(** * ABIExtractor: extraction, repair and address-to-ABI matching

    A shallow embedding of [main.py] and the properties of its
    extraction/repair pipeline and of its matching engine.

    Conventions of the embedding.
    - A Python [str] is a [list ascii], one element per character.  The
      alphabet is the code points below 256; the character classes of
      the [re] module (word characters, white space) are the ones Python
      uses on that range.
    - A Python exception is a value [Raises e]; a function that may
      raise returns an [outcome].
    - String literals of this file never contain the double-quote
      character: [lit] reads a backquote as a double quote. *)

From Stdlib Require Import Ascii String.
From Stdlib Require Import List Arith Bool ZArith Lia.
Import ListNotations.

Local Open Scope char_scope.
Local Open Scope list_scope.

(* ================================================================== *)
(** ** Python values: strings, exceptions, dictionaries *)

Definition str := list ascii.

Definition dquote : ascii := "034".
Definition squote : ascii := "039".
Definition backslash : ascii := "092".
Definition newline : ascii := "010".

(** [lit s]: the characters of [s], a backquote standing for a double quote. *)
Definition lit (s : string) : str :=
  map (fun c => if Ascii.eqb c "`" then dquote else c) (list_ascii_of_string s).

Inductive exn : Type :=
| TypeError | ValueError | KeyError | IndexError | AttributeError
| JSONDecodeError | RequestError.

Inductive outcome (A : Type) : Type :=
| Returns (a : A)
| Raises (e : exn).
Arguments Returns {A} a.
Arguments Raises {A} e.

Fixpoint str_eqb (a b : str) : bool :=
  match a, b with
  | [], [] => true
  | x :: a', y :: b' => Ascii.eqb x y && str_eqb a' b'
  | _, _ => false
  end.

(** [s.startswith(p)] *)
Fixpoint startswith (p s : str) : bool :=
  match p, s with
  | [], _ => true
  | x :: p', y :: s' => Ascii.eqb x y && startswith p' s'
  | _ :: _, [] => false
  end.

(** [sub in s] *)
Fixpoint contains (sub s : str) : bool :=
  match s with
  | [] => startswith sub []
  | _ :: s' => startswith sub s || contains sub s'
  end.

Fixpoint find_at (sub s : str) (i : nat) : option nat :=
  match s with
  | [] => if startswith sub [] then Some i else None
  | _ :: s' => if startswith sub s then Some i else find_at sub s' (S i)
  end.

(** [s.find(sub, start)]; [None] is Python's -1. *)
Definition find (sub s : str) (start : nat) : option nat :=
  if (start <=? length s)%nat then find_at sub (skipn start s) start else None.

Fixpoint rfind_at (sub s : str) (i : nat) (best : option nat) : option nat :=
  match s with
  | [] => if startswith sub [] then Some i else best
  | _ :: s' => rfind_at sub s' (S i) (if startswith sub s then Some i else best)
  end.

(** [s.rfind(sub, 0, stop)]: the last occurrence lying inside [s[0:stop]]. *)
Definition rfind (sub s : str) (stop : nat) : option nat :=
  rfind_at sub (firstn stop s) 0 None.

(** [s.replace(old, new)] for a non-empty [old]: occurrences are taken
    left to right and do not overlap; [skip] counts the characters of
    the occurrence just replaced that are still to be passed over. *)
Fixpoint replace_from (old new : str) (skip : nat) (s : str) : str :=
  match s with
  | [] => []
  | c :: s' =>
      match skip with
      | S k => replace_from old new k s'
      | O => if startswith old s
             then new ++ replace_from old new (length old - 1) s'
             else c :: replace_from old new 0 s'
      end
  end.

Definition replace (old new s : str) : str := replace_from old new 0 s.

(** The rest of [s] after the prefix [p], when [s] starts with it. *)
Fixpoint strip_prefix (p s : str) : option str :=
  match p, s with
  | [], _ => Some s
  | x :: p', y :: s' => if Ascii.eqb x y then strip_prefix p' s' else None
  | _ :: _, [] => None
  end.

Fixpoint take_while (f : ascii -> bool) (s : str) : str :=
  match s with
  | [] => []
  | c :: s' => if f c then c :: take_while f s' else []
  end.

Fixpoint drop_while (f : ascii -> bool) (s : str) : str :=
  match s with
  | [] => []
  | c :: s' => if f c then drop_while f s' else s
  end.

(** A [dict] keeps its keys in insertion order; [d[k] = v] overwrites in
    place when [k] is present and appends otherwise. *)
Definition dict (V : Type) := list (str * V).

Fixpoint dict_set {V : Type} (k : str) (v : V) (d : dict V) : dict V :=
  match d with
  | [] => [(k, v)]
  | (k', v') :: d' =>
      if str_eqb k' k then (k', v) :: d' else (k', v') :: dict_set k v d'
  end.

Fixpoint dict_get {V : Type} (k : str) (d : dict V) : option V :=
  match d with
  | [] => None
  | (k', v') :: d' => if str_eqb k' k then Some v' else dict_get k d'
  end.

Definition keys {V : Type} (d : dict V) : list str := map fst d.

(* ================================================================== *)
(** ** Character classes of the [re] module *)

Definition in_range (lo hi : nat) (c : ascii) : bool :=
  let n := nat_of_ascii c in ((lo <=? n) && (n <=? hi))%nat.

Definition is_digit (c : ascii) : bool := in_range 48 57 c.

(** [[0-9a-zA-Z]] *)
Definition is_alnum (c : ascii) : bool :=
  in_range 48 57 c || in_range 65 90 c || in_range 97 122 c.

(** [[a-zA-Z_]] *)
Definition is_ident_start (c : ascii) : bool :=
  in_range 65 90 c || in_range 97 122 c || Ascii.eqb c "_".

(** [\w] on code points below 256. *)
Definition is_word (c : ascii) : bool :=
  is_alnum c || Ascii.eqb c "_"
  || in_range 170 170 c || in_range 178 179 c || in_range 181 181 c
  || in_range 185 186 c || in_range 188 190 c || in_range 192 214 c
  || in_range 216 246 c || in_range 248 255 c.

(** [\s] on code points below 256. *)
Definition is_space (c : ascii) : bool :=
  in_range 9 13 c || in_range 28 32 c || in_range 133 133 c
  || in_range 160 160 c.

(* ================================================================== *)
(** ** BraceScanner *)

Definition marker_quoted : str := lit "`buildInfo`".
Definition marker_bare : str := lit "buildInfo".

(** The [while True] loop of [find_buildinfo_and_nearest_opening_brace];
    every iteration moves [index] past the marker it found, so
    [S (length js_code)] iterations always suffice
    (lemma [find_buildinfo_loop_fuel]). *)
Fixpoint find_buildinfo_loop (fuel : nat) (js_code : str) (index : nat)
  : list (nat * nat) :=
  match fuel with
  | O => []
  | S fuel' =>
      let build_info_index :=
        match find marker_quoted js_code index with
        | Some i => Some i
        | None => find marker_bare js_code index
        end in
      match build_info_index with
      | None => []
      | Some b =>
          let occurrences := find_buildinfo_loop fuel' js_code (S b) in
          match rfind (lit "{") js_code b with
          | Some open_brace_index => (open_brace_index, b) :: occurrences
          | None => occurrences
          end
      end
  end.

Definition find_buildinfo_and_nearest_opening_brace (js_code : str)
  : list (nat * nat) :=
  find_buildinfo_loop (S (length js_code)) js_code 0.

(** The [for] loop of [extract_matching_braces_content] over
    [js_code[start_index:]]; [None] is the Python value [None] returned
    when the count never comes back to zero. *)
Fixpoint braces_loop (chars : str) (open_brace_count : Z) (content : str)
  : option str :=
  match chars with
  | [] => None
  | char :: rest =>
      let content := content ++ [char] in
      if Ascii.eqb char "{" then
        braces_loop rest (open_brace_count + 1)%Z content
      else if Ascii.eqb char "}" then
        let open_brace_count := (open_brace_count - 1)%Z in
        if (open_brace_count =? 0)%Z then Some content
        else braces_loop rest open_brace_count content
      else braces_loop rest open_brace_count content
  end.

Definition extract_matching_braces_content (js_code : str) (start_index : nat)
  : option str :=
  braces_loop (skipn start_index js_code) 0%Z [].

(* ================================================================== *)
(** ** ObjectRepairer: the primary repair *)

(** The lookahead [(?=\s*[:])]. *)
Fixpoint lookahead_colon (s : str) : bool :=
  match s with
  | [] => false
  | c :: s' =>
      if Ascii.eqb c ":" then true
      else if is_space c then lookahead_colon s' else false
  end.

(** One attempt of [(\b[a-zA-Z_]\w*\b)(?=\s*[:])] at a position whose
    preceding character is a word character iff [prev_word]: the text
    of group 1.  The greedy run of word characters may not be
    shortened, [\b] fails inside it. *)
Definition match_key (prev_word : bool) (s : str) : option str :=
  if prev_word then None
  else
    match s with
    | [] => None
    | c :: s' =>
        if is_ident_start c && lookahead_colon (drop_while is_word s')
        then Some (c :: take_while is_word s')
        else None
    end.

(** [re.sub(r'(\b[a-zA-Z_]\w*\b)(?=\s*[:])', r'`\1`', s)], the backquotes
    standing for double quotes: the matches are searched left to right,
    each is replaced by group 1 between double quotes, the other
    characters are copied. *)
Fixpoint re_sub_keys (prev_word : bool) (skip : nat) (s : str) : str :=
  match s with
  | [] => []
  | c :: s' =>
      match skip with
      | S k => re_sub_keys (is_word c) k s'
      | O =>
          match match_key prev_word s with
          | Some key =>
              dquote :: key ++ dquote
                :: re_sub_keys (is_word c) (length key - 1) s'
          | None => c :: re_sub_keys (is_word c) 0 s'
          end
      end
  end.

Definition quote_keys (s : str) : str := re_sub_keys false 0 s.

(** The same substitution computed run by run (lemma
    [quote_keys_runs]): [quote_word w rest] is what stands for the
    maximal run [w] of word characters followed by [rest], and
    [sub_keys w s] reads [s] with the run read so far in [w]. *)
Definition quote_word (w rest : str) : str :=
  match w with
  | [] => []
  | c :: _ =>
      if is_ident_start c && lookahead_colon rest
      then dquote :: w ++ [dquote]
      else w
  end.

Fixpoint sub_keys (w s : str) : str :=
  match s with
  | [] => quote_word w []
  | c :: s' =>
      if is_word c then sub_keys (w ++ [c]) s'
      else quote_word w s ++ c :: sub_keys [] s'
  end.

Definition repair_json (s : str) : str :=
  let s := quote_keys s in
  let s := replace [squote] [dquote] s in
  let s := replace [backslash] [backslash; backslash] s in
  let s := replace (lit "!0") (lit "true") s in
  let s := replace (lit "!1") (lit "false") s in
  s.

(** [repair_json] as [process_js_url] calls it, on the value returned by
    [extract_matching_braces_content]: [re.sub] raises [TypeError] when
    it is handed [None]. *)
Definition repair_json_value (v : option str) : outcome str :=
  match v with
  | Some s => Returns (repair_json s)
  | None => Raises TypeError
  end.

Fixpoint dedup (l : list str) : list str :=
  match l with
  | [] => []
  | x :: l' => x :: filter (fun y => negb (str_eqb x y)) (dedup l')
  end.

(** The loop of [process_js_url] over the occurrences; the first
    exception leaves the loop (nothing in [process_js_url] catches it). *)
Fixpoint repair_occurrences (js_code : str) (occurrences : list (nat * nat))
  (abi_jsons : list str) : outcome (list str) :=
  match occurrences with
  | [] => Returns abi_jsons
  | occurrence :: more =>
      let buildinfo_content_nested :=
        extract_matching_braces_content js_code (fst occurrence) in
      match repair_json_value buildinfo_content_nested with
      | Returns repaired_json =>
          repair_occurrences js_code more (abi_jsons ++ [repaired_json])
      | Raises e => Raises e
      end
  end.

(** The extraction half of [process_js_url]: from the bundle text to the
    deduplicated repaired blobs.  [list(set(...))] is modelled by
    [dedup]; Python leaves the order of the result unspecified. *)
Definition extract_abi_jsons (js_code : str) : outcome (list str) :=
  let buildinfo_occurrences :=
    find_buildinfo_and_nearest_opening_brace js_code in
  match repair_occurrences js_code buildinfo_occurrences [] with
  | Returns abi_jsons => Returns (dedup abi_jsons)
  | Raises e => Raises e
  end.

(* ================================================================== *)
(** ** AddressExtractor *)

Definition address_prefix : str := lit "erd1qqqqqqqqq".

Definition placeholder_address : str :=
  lit "erd1qqqqqqqqqqqqqqqpqqqqqqqqqqqqqqqqqqqqqqqqqqqqq".

Definition starts_with_word (s : str) : bool :=
  match s with
  | [] => false
  | c :: _ => is_word c
  end.

(** One attempt of [\berd1qqqqqqqqq[0-9a-zA-Z]+\b] at a position whose
    preceding character is a word character iff [prev_word].  The greedy
    run may not be shortened: [\b] fails inside it. *)
Definition match_address (prev_word : bool) (s : str) : option str :=
  if prev_word then None
  else
    match strip_prefix address_prefix s with
    | None => None
    | Some rest =>
        match take_while is_alnum rest with
        | [] => None
        | run =>
            if starts_with_word (drop_while is_alnum rest) then None
            else Some (address_prefix ++ run)
        end
    end.

(** [sc_address_pattern.findall(js_code)]: matches are searched left to
    right, the search resuming where the previous match ended. *)
Fixpoint findall_addresses (prev_word : bool) (skip : nat) (s : str)
  : list str :=
  match s with
  | [] => []
  | c :: s' =>
      match skip with
      | S k => findall_addresses (is_word c) k s'
      | O =>
          match match_address prev_word s with
          | Some address =>
              address :: findall_addresses (is_word c) (length address - 1) s'
          | None => findall_addresses (is_word c) 0 s'
          end
      end
  end.

Definition extract_addresses (js_code : str) : list str :=
  let sc_address_matches := findall_addresses false 0 js_code in
  filter (fun address => negb (contains placeholder_address address))
         sc_address_matches.

(* ================================================================== *)
(** ** The [json] module

    [json.loads] is library code; this is a model of the decoder of
    CPython ([json/decoder.py], [json/scanner.py]) with the default
    options.  Numbers keep their literal text.  An object becomes a
    [dict]: a repeated key keeps its first position and its last value.
    A [\uXXXX] escape is decoded when its code point is below 256; the
    model does not cover texts with larger escapes. *)

#[warnings="-register-all"]
Inductive json : Type :=
| JNull
| JBool (b : bool)
| JNumber (literal : str)
| JString (s : str)
| JArray (items : list json)
| JObject (members : list (str * json)).

Inductive parse (A : Type) : Type :=
| Parsed (a : A) (rest : str)
| SyntaxError
| OutOfFuel.
Arguments Parsed {A} a rest.
Arguments SyntaxError {A}.
Arguments OutOfFuel {A}.

Definition is_json_ws (c : ascii) : bool :=
  Ascii.eqb c " " || Ascii.eqb c "009" || Ascii.eqb c "010" || Ascii.eqb c "013".

Definition skip_ws (s : str) : str := drop_while is_json_ws s.

Definition hex_value (c : ascii) : option nat :=
  let n := nat_of_ascii c in
  if in_range 48 57 c then Some (n - 48)
  else if in_range 97 102 c then Some (n - 87)
  else if in_range 65 70 c then Some (n - 55)
  else None.

Definition decode_uXXXX (h1 h2 h3 h4 : ascii) : option ascii :=
  match hex_value h1, hex_value h2, hex_value h3, hex_value h4 with
  | Some a, Some b, Some c, Some d =>
      let n := ((a * 16 + b) * 16 + c) * 16 + d in
      if (n <? 256)%nat then Some (ascii_of_nat n) else None
  | _, _, _, _ => None
  end.

(** The table [BACKSLASH] of the decoder. *)
Definition unescape (esc : ascii) : option ascii :=
  if Ascii.eqb esc dquote then Some dquote
  else if Ascii.eqb esc backslash then Some backslash
  else if Ascii.eqb esc "/" then Some "/"
  else if Ascii.eqb esc "b" then Some "008"
  else if Ascii.eqb esc "f" then Some "012"
  else if Ascii.eqb esc "n" then Some "010"
  else if Ascii.eqb esc "r" then Some "013"
  else if Ascii.eqb esc "t" then Some "009"
  else None.

(** [scanstring], strict: from the character after the opening quote to
    the decoded text and the input after the closing quote. *)
Fixpoint scanstring (s : str) : option (str * str) :=
  match s with
  | [] => None
  | c :: s' =>
      if Ascii.eqb c dquote then Some ([], s')
      else if Ascii.eqb c backslash then
        match s' with
        | [] => None
        | esc :: s'' =>
            if Ascii.eqb esc "u" then
              match s'' with
              | h1 :: h2 :: h3 :: h4 :: s5 =>
                  match decode_uXXXX h1 h2 h3 h4, scanstring s5 with
                  | Some ch, Some (text, rest) => Some (ch :: text, rest)
                  | _, _ => None
                  end
              | _ => None
              end
            else
              match unescape esc, scanstring s'' with
              | Some ch, Some (text, rest) => Some (ch :: text, rest)
              | _, _ => None
              end
        end
      else if in_range 0 31 c then None
      else
        match scanstring s' with
        | Some (text, rest) => Some (c :: text, rest)
        | None => None
        end
  end.

(** [NUMBER_RE]: an optional minus sign, then a zero or a digit run that
    does not start with zero; then, each optional, a fraction (a dot and
    digits) and an exponent (e or E, an optional sign, digits). *)
Definition scan_integer (s : str) : option (str * str) :=
  match s with
  | c :: s' =>
      if Ascii.eqb c "0" then Some ([c], s')
      else if in_range 49 57 c
           then Some (c :: take_while is_digit s', drop_while is_digit s')
           else None
  | [] => None
  end.

Definition scan_digits (s : str) : option (str * str) :=
  match take_while is_digit s with
  | [] => None
  | ds => Some (ds, drop_while is_digit s)
  end.

Definition scan_fraction (s : str) : str * str :=
  match s with
  | c :: s' =>
      if Ascii.eqb c "." then
        match scan_digits s' with
        | Some (ds, rest) => (c :: ds, rest)
        | None => ([], s)
        end
      else ([], s)
  | [] => ([], s)
  end.

Definition scan_exponent (s : str) : str * str :=
  match s with
  | e :: s' =>
      if Ascii.eqb e "e" || Ascii.eqb e "E" then
        match s' with
        | sg :: s'' =>
            if Ascii.eqb sg "-" || Ascii.eqb sg "+" then
              match scan_digits s'' with
              | Some (ds, rest) => (e :: sg :: ds, rest)
              | None => ([], s)
              end
            else
              match scan_digits s' with
              | Some (ds, rest) => (e :: ds, rest)
              | None => ([], s)
              end
        | [] => ([], s)
        end
      else ([], s)
  | [] => ([], s)
  end.

Definition match_number (s : str) : option (str * str) :=
  let signed :=
    match s with
    | c :: s' =>
        if Ascii.eqb c "-" then
          match scan_integer s' with
          | Some (ds, rest) => Some (c :: ds, rest)
          | None => None
          end
        else scan_integer s
    | [] => None
    end in
  match signed with
  | None => None
  | Some (int_part, rest) =>
      let (frac, rest1) := scan_fraction rest in
      let (exp, rest2) := scan_exponent rest1 in
      Some (int_part ++ frac ++ exp, rest2)
  end.

(** The scalar branches of [scan_once]. *)
Definition scan_scalar (s : str) : parse json :=
  match strip_prefix (lit "null") s with
  | Some rest => Parsed JNull rest
  | None =>
  match strip_prefix (lit "true") s with
  | Some rest => Parsed (JBool true) rest
  | None =>
  match strip_prefix (lit "false") s with
  | Some rest => Parsed (JBool false) rest
  | None =>
  match match_number s with
  | Some (literal, rest) => Parsed (JNumber literal) rest
  | None =>
  match strip_prefix (lit "NaN") s with
  | Some rest => Parsed (JNumber (lit "NaN")) rest
  | None =>
  match strip_prefix (lit "Infinity") s with
  | Some rest => Parsed (JNumber (lit "Infinity")) rest
  | None =>
  match strip_prefix (lit "-Infinity") s with
  | Some rest => Parsed (JNumber (lit "-Infinity")) rest
  | None => SyntaxError
  end end end end end end end.

(** [scan_once], [JSONArray] and [JSONObject]; every call consumes one
    unit of [fuel], and twice the length of the text is always enough
    (lemma [scan_once_fuel]). *)
Fixpoint scan_once (fuel : nat) (s : str) : parse json :=
  match fuel with
  | O => OutOfFuel
  | S fuel =>
      match s with
      | [] => SyntaxError
      | c :: s' =>
          if Ascii.eqb c dquote then
            match scanstring s' with
            | Some (text, rest) => Parsed (JString text) rest
            | None => SyntaxError
            end
          else if Ascii.eqb c "{" then
            match skip_ws s' with
            | c1 :: rest =>
                if Ascii.eqb c1 "}" then Parsed (JObject []) rest
                else if Ascii.eqb c1 dquote then parse_members fuel rest []
                else SyntaxError
            | [] => SyntaxError
            end
          else if Ascii.eqb c "[" then
            match skip_ws s' with
            | c1 :: rest =>
                if Ascii.eqb c1 "]" then Parsed (JArray []) rest
                else parse_items fuel (c1 :: rest) []
            | [] => SyntaxError
            end
          else scan_scalar s
      end
  end

with parse_items (fuel : nat) (s : str) (values : list json) : parse json :=
  match fuel with
  | O => OutOfFuel
  | S fuel =>
      match scan_once fuel s with
      | Parsed value rest =>
          match skip_ws rest with
          | c :: rest1 =>
              if Ascii.eqb c "]" then Parsed (JArray (values ++ [value])) rest1
              else if Ascii.eqb c ","
                   then parse_items fuel (skip_ws rest1) (values ++ [value])
                   else SyntaxError
          | [] => SyntaxError
          end
      | SyntaxError => SyntaxError
      | OutOfFuel => OutOfFuel
      end
  end

with parse_members (fuel : nat) (s : str) (pairs : dict json) : parse json :=
  match fuel with
  | O => OutOfFuel
  | S fuel =>
      match scanstring s with
      | None => SyntaxError
      | Some (key, rest) =>
          match skip_ws rest with
          | c :: rest1 =>
              if Ascii.eqb c ":" then
                match scan_once fuel (skip_ws rest1) with
                | Parsed value rest2 =>
                    match skip_ws rest2 with
                    | c2 :: rest3 =>
                        if Ascii.eqb c2 "}"
                        then Parsed (JObject (dict_set key value pairs)) rest3
                        else if Ascii.eqb c2 "," then
                          match skip_ws rest3 with
                          | c3 :: rest4 =>
                              if Ascii.eqb c3 dquote
                              then parse_members fuel rest4
                                     (dict_set key value pairs)
                              else SyntaxError
                          | [] => SyntaxError
                          end
                        else SyntaxError
                    | [] => SyntaxError
                    end
                | SyntaxError => SyntaxError
                | OutOfFuel => OutOfFuel
                end
              else SyntaxError
          | [] => SyntaxError
          end
      end
  end.

Definition json_fuel (s : str) : nat := S (2 * length s).

(** [json.loads(s)]: one value, white space around it, nothing else. *)
Definition json_loads (s : str) : outcome json :=
  match scan_once (json_fuel s) (skip_ws s) with
  | Parsed value rest =>
      match skip_ws rest with
      | [] => Returns value
      | _ :: _ => Raises JSONDecodeError
      end
  | SyntaxError => Raises JSONDecodeError
  | OutOfFuel => Raises JSONDecodeError
  end.

(** [value[key]] for a string [key]: only an object that has the key
    answers; a missing key raises [KeyError], any other value
    [TypeError]. *)
Definition getitem (value : json) (key : str) : outcome json :=
  match value with
  | JObject members =>
      match dict_get key members with
      | Some v => Returns v
      | None => Raises KeyError
      end
  | _ => Raises TypeError
  end.

(** [s.encode('unicode_escape').decode('utf-8')] *)
Definition hex_digit (n : nat) : ascii :=
  if (n <? 10)%nat then ascii_of_nat (48 + n) else ascii_of_nat (87 + n).

Definition unicode_escape_char (c : ascii) : str :=
  let n := nat_of_ascii c in
  if Ascii.eqb c backslash then [backslash; backslash]
  else if Ascii.eqb c "009" then [backslash; "t"]
  else if Ascii.eqb c "010" then [backslash; "n"]
  else if Ascii.eqb c "013" then [backslash; "r"]
  else if (n <? 32)%nat || (127 <=? n)%nat
       then [backslash; "x"; hex_digit (n / 16); hex_digit (n mod 16)]
       else [c].

Definition unicode_escape (s : str) : str := flat_map unicode_escape_char s.

(* ================================================================== *)
(** ** ObjectRepairer: the secondary repair *)

Definition repair_docs_as_single_string (docs_string : str) : str :=
  let content_without_brackets := removelast (tl docs_string) in
  let escaped_quotes_content :=
    replace [dquote] [backslash; dquote] content_without_brackets in
  let repaired_content :=
    replace [backslash; backslash; "n"] [backslash; "n"] escaped_quotes_content in
  dquote :: repaired_content ++ [dquote].

(** [.*?\]]: the shortest run of characters other than a newline up to
    a closing bracket. *)
Fixpoint lazy_until_bracket (s : str) : option str :=
  match s with
  | [] => None
  | c :: s' =>
      if Ascii.eqb c "]" then Some []
      else if Ascii.eqb c newline then None
      else
        match lazy_until_bracket s' with
        | Some inner => Some (c :: inner)
        | None => None
        end
  end.

Definition docs_prefix : str := lit "`docs`:".

(** One attempt of ["docs":(\[.*?\])]: the text of group 1. *)
Definition match_docs (s : str) : option str :=
  match strip_prefix (docs_prefix ++ lit "[") s with
  | None => None
  | Some rest =>
      match lazy_until_bracket rest with
      | Some inner => Some (lit "[" ++ inner ++ lit "]")
      | None => None
      end
  end.

(** [re.findall(r'"docs":(\[.*?\])', broken_json)] *)
Fixpoint findall_docs (skip : nat) (s : str) : list str :=
  match s with
  | [] => []
  | _ :: s' =>
      match skip with
      | S k => findall_docs k s'
      | O =>
          match match_docs s with
          | Some docs_content =>
              docs_content
              :: findall_docs (length docs_prefix + length docs_content - 1) s'
          | None => findall_docs 0 s'
          end
      end
  end.

Definition repair_broken_json (broken_json : str) : str :=
  let docs_fields := findall_docs 0 broken_json in
  fold_left
    (fun repaired_content docs_content =>
       let repaired_docs_content := repair_docs_as_single_string docs_content in
       replace docs_content (lit "[" ++ repaired_docs_content ++ lit "]")
               repaired_content)
    docs_fields broken_json.

(* ================================================================== *)
(** ** Effects: the random generator, the network, the file system *)

Inductive file_content : Type :=
| AbiJson (abi_json : json)
| RelationshipJson (relationship_dict : dict str).

Inductive event : Type :=
| MakeDirs (path : str)
| Query (sc_address : str) (func_name : json)
| WriteFile (path : str) (content : file_content)
| PrintFound (sc_address abi_json_path : str)
| PrintRelationship (relationship_file_path : str).

(** The state a run threads: the draws the random generator will
    deliver, the effects performed so far (oldest first) and the
    relationship dictionary of [find_matching_contracts]. *)
Record state : Type := mkState {
  rng : list nat;
  trace : list event;
  relationship_dict : dict str
}.

(** A computation returns or raises, and in both cases leaves a state:
    what was written before an exception stays written. *)
Definition M (A : Type) : Type := state -> outcome A * state.

Definition ret {A : Type} (a : A) : M A := fun st => (Returns a, st).

Definition raise {A : Type} (e : exn) : M A := fun st => (Raises e, st).

Definition bind {A B : Type} (m : M A) (k : A -> M B) : M B :=
  fun st =>
    match m st with
    | (Returns a, st') => k a st'
    | (Raises e, st') => (Raises e, st')
    end.

Definition lift {A : Type} (o : outcome A) : M A := fun st => (o, st).

Declare Scope monad_scope.
Delimit Scope monad_scope with monad.
Notation "x <- m ;; k" := (bind m (fun x => k))
  (at level 61, m at next level, right associativity) : monad_scope.
Notation "m ;; k" := (bind m (fun _ => k))
  (at level 61, right associativity) : monad_scope.
Local Open Scope monad_scope.

Definition obind {A B : Type} (o : outcome A) (k : A -> outcome B) : outcome B :=
  match o with
  | Returns a => k a
  | Raises e => Raises e
  end.

Fixpoint omap {A B : Type} (f : A -> outcome B) (l : list A) : outcome (list B) :=
  match l with
  | [] => Returns []
  | x :: l' =>
      obind (f x) (fun y => obind (omap f l') (fun ys => Returns (y :: ys)))
  end.

Definition emit (e : event) : M unit :=
  fun st => (Returns tt, mkState (rng st) (trace st ++ [e]) (relationship_dict st)).

(** [for x in l: body(x)] *)
Fixpoint for_each {A : Type} (l : list A) (body : A -> M unit) : M unit :=
  match l with
  | [] => ret tt
  | x :: l' => body x ;; for_each l' body
  end.

(** [try: m  except Exception: pass] *)
Definition try_pass (m : M unit) : M unit :=
  fun st => (Returns tt, snd (m st)).

(** [random._randbelow(n)] for a positive [n]: the next draw, reduced. *)
Definition randbelow (n : nat) : M nat :=
  fun st =>
    match rng st with
    | [] => (Returns 0, st)
    | r :: draws =>
        (Returns (r mod n), mkState draws (trace st) (relationship_dict st))
    end.

Fixpoint list_set {A : Type} (j : nat) (x : A) (l : list A) : list A :=
  match l, j with
  | [], _ => []
  | _ :: l', O => x :: l'
  | y :: l', S j' => y :: list_set j' x l'
  end.

(** The selection loop of [random.sample]: [result[i] = pool[j]], then
    the last live entry of the pool takes the place [j]. *)
Fixpoint sample_loop {A : Type} (k : nat) (pool : list A) : M (list A) :=
  match k with
  | O => ret []
  | S k' =>
      j <- randbelow (length pool) ;;
      match nth_error pool j with
      | None => raise IndexError
      | Some x =>
          result <- sample_loop k' (removelast (list_set j (last pool x) pool)) ;;
          ret (x :: result)
      end
  end.

(** [random.sample(population, k)] is library code: [k] entries at
    distinct positions, [ValueError] when [k] exceeds the population.
    The model is CPython's selection from a pool; for a population of
    more than 21 entries CPython records the chosen positions in a set
    instead, under the same contract. *)
Definition random_sample {A : Type} (population : list A) (k : nat) : M (list A) :=
  if (length population <? k)%nat then raise ValueError
  else sample_loop k population.

(** [os.path.join(a, b)] on POSIX. *)
Definition os_path_join (a b : str) : str :=
  if startswith (lit "/") b then b
  else
    match a with
    | [] => b
    | _ :: _ =>
        if Ascii.eqb (last a " ") "/" then a ++ b else a ++ lit "/" ++ b
    end.

Definition create_export_directories (subdomain : str) : M str :=
  let exports_directory := lit "exports" in
  let subdomain_directory := os_path_join exports_directory subdomain in
  emit (MakeDirs subdomain_directory) ;;
  ret subdomain_directory.

(** [export_abi_json]; a [name_field] that is not a string has no
    [replace] method.  Writing a file always succeeds in this model. *)
Definition export_abi_json (abi_json name_field : json) (subdomain_directory : str)
  : M str :=
  match name_field with
  | JString name =>
      let filename_base := replace (lit " ") (lit "_") name in
      let filename := filename_base ++ lit ".json" in
      let file_path := os_path_join subdomain_directory filename in
      let unique_path := file_path in
      emit (WriteFile unique_path (AbiJson abi_json)) ;;
      ret unique_path
  | _ => raise AttributeError
  end.

Definition export_relationship_dict (relationship_dict : dict str)
  (subdomain_directory : str) : M str :=
  let relationship_file_path :=
    os_path_join subdomain_directory (lit "relationship.json") in
  emit (WriteFile relationship_file_path (RelationshipJson relationship_dict)) ;;
  ret relationship_file_path.

Definition get_relationship_dict : M (dict str) :=
  fun st => (Returns (relationship_dict st), st).

(** [relationship_dict[sc_address] = abi_json_path] *)
Definition set_relationship (sc_address abi_json_path : str) : M unit :=
  fun st =>
    (Returns tt,
     mkState (rng st) (trace st)
             (dict_set sc_address abi_json_path (relationship_dict st))).

(** [relationship_dict = {}] *)
Definition new_relationship_dict : M unit :=
  fun st => (Returns tt, mkState (rng st) (trace st) []).

(* ================================================================== *)
(** ** MatchingEngine *)

Definition NUMBER_OF_MATCHES : nat := 5.

(** [code in ["function not found", "contract not found"]] *)
Definition not_found (return_code : json) : bool :=
  match return_code with
  | JString s =>
      str_eqb s (lit "function not found") || str_eqb s (lit "contract not found")
  | _ => false
  end.

(** [response["data"]["data"]["returnCode"]] *)
Definition return_code_of (response : json) : outcome json :=
  obind (getitem response (lit "data")) (fun data =>
  obind (getitem data (lit "data")) (fun data =>
  getitem data (lit "returnCode"))).

(** The first [json.loads] and, when it raises, the one on the text
    repaired by [repair_broken_json]. *)
Definition load_abi_json (abi_json_str : str) : outcome json :=
  let abi_json_str_escaped := unicode_escape abi_json_str in
  match json_loads abi_json_str_escaped with
  | Returns abi_json => Returns abi_json
  | Raises _ => json_loads (repair_broken_json abi_json_str)
  end.

(** [[endpoint["name"] for endpoint in abi_json["endpoints"]]]:
    iterating an object or a string yields strings, which cannot be
    indexed by ["name"]; the other values cannot be iterated. *)
Definition endpoint_names (abi_json : json) : outcome (list json) :=
  obind (getitem abi_json (lit "endpoints")) (fun endpoints =>
  match endpoints with
  | JArray items => omap (fun endpoint => getitem endpoint (lit "name")) items
  | JObject [] => Returns []
  | JString [] => Returns []
  | _ => Raises TypeError
  end).

(** [function_names[0]] *)
Definition first_name (function_names : list json) : outcome json :=
  match function_names with
  | [] => Raises IndexError
  | func_name :: _ => Returns func_name
  end.

(** The expression bound to [random_functions]. *)
Definition confirmation_functions (function_names : list json) : M (list json) :=
  if (NUMBER_OF_MATCHES - 1 <? length function_names)%nat
  then random_sample (tl function_names) NUMBER_OF_MATCHES
  else ret (tl function_names).

Section Engine.

(** The network: what [query_function] returns (the decoded body of
    the response) or raises for an address and a function name.  The
    model takes the answer to be a function of the query. *)
Variable rpc : str -> json -> outcome json.

Definition query_function (sc_address : str) (func_name : json) : M json :=
  emit (Query sc_address func_name) ;;
  lift (rpc sc_address func_name).

(** The loop over [random_functions]. *)
Fixpoint count_matches (sc_address : str) (random_functions : list json)
  (match_count : nat) : M nat :=
  match random_functions with
  | [] => ret match_count
  | random_func :: more =>
      response <- query_function sc_address random_func ;;
      return_code <- lift (return_code_of response) ;;
      count_matches sc_address more
        (if not_found return_code then match_count else S match_count)
  end.

(** The body of the loop over [sc_addresses]. *)
Definition match_pair (abi_json : json) (function_names : list json)
  (func_name : json) (subdomain_directory : str) (sc_address : str) : M unit :=
  response <- query_function sc_address func_name ;;
  return_code <- lift (return_code_of response) ;;
  if not_found return_code then ret tt
  else
    random_functions <- confirmation_functions function_names ;;
    match_count <- count_matches sc_address random_functions 0 ;;
    if (match_count =? length random_functions)%nat then
      name_field <- lift (getitem abi_json (lit "name")) ;;
      abi_json_path <- export_abi_json abi_json name_field subdomain_directory ;;
      set_relationship sc_address abi_json_path ;;
      emit (PrintFound sc_address abi_json_path)
    else ret tt.

(** The body of the [try] statement. *)
Definition process_abi (sc_addresses : list str) (subdomain_directory : str)
  (abi_json_str : str) : M unit :=
  abi_json <- lift (load_abi_json abi_json_str) ;;
  function_names <- lift (endpoint_names abi_json) ;;
  func_name <- lift (first_name function_names) ;;
  for_each sc_addresses
    (match_pair abi_json function_names func_name subdomain_directory).

(** [find_matching_contracts]; [domain] is [urlparse(url).netloc]. *)
Definition find_matching_contracts (abi_jsons : list str)
  (sc_addresses : list str) (domain : str) : M unit :=
  new_relationship_dict ;;
  subdomain_directory <- create_export_directories domain ;;
  for_each abi_jsons
    (fun abi_json_str =>
       try_pass (process_abi sc_addresses subdomain_directory abi_json_str)) ;;
  relationship_dict <- get_relationship_dict ;;
  relationship_file_path <-
    export_relationship_dict relationship_dict subdomain_directory ;;
  emit (PrintRelationship relationship_file_path).

End Engine.

(* ================================================================== *)
(** ** Predicates of the statements *)

Definition ends_with_word (s : str) : bool := starts_with_word (rev s).

(** An identifier of the key pattern: [[a-zA-Z_]\w*]. *)
Definition is_identifier (s : str) : bool :=
  match s with
  | [] => false
  | c :: s' => is_ident_start c && forallb is_word s'
  end.

(** [has_bare_key prev_word s]: some identifier of [s] starts a word
    and is followed, white space apart, by a colon; [prev_word] tells
    whether the character before [s] is a word character. *)
Fixpoint has_bare_key (prev_word : bool) (s : str) : bool :=
  match s with
  | [] => false
  | c :: s' =>
      (negb prev_word && is_ident_start c
       && lookahead_colon (drop_while is_word s'))
      || has_bare_key (is_word c) s'
  end.

(** The run [w] read so far stays unquoted, and so does what follows. *)
Definition pending_plain (w s : str) : Prop :=
  match w with
  | [] => has_bare_key false s = false
  | h :: _ =>
      is_ident_start h && lookahead_colon (drop_while is_word s) = false
      /\ has_bare_key true s = false
  end.

(** An address-shaped token: the literal prefix and one or more
    characters of [[0-9a-zA-Z]]. *)
Definition is_address (token : str) : bool :=
  match strip_prefix address_prefix token with
  | Some (c :: run) => forallb is_alnum (c :: run)
  | _ => false
  end.

(** The text the secondary repair puts between the quotes of the single
    string: double quotes escaped, then [\\n] collapsed to [\n]. *)
Definition escape_docs (inner : str) : str :=
  replace [backslash; backslash; "n"] [backslash; "n"]
    (replace [dquote] [backslash; dquote] inner).



(** A probe succeeds when the network answers and the return code of
    the answer is neither of the two rejection codes. *)
Definition probe_ok (rpc : str -> json -> outcome json)
  (sc_address : str) (func_name : json) : bool :=
  match rpc sc_address func_name with
  | Returns response =>
      match return_code_of response with
      | Returns return_code => negb (not_found return_code)
      | Raises _ => false
      end
  | Raises _ => false
  end.

(** The path [export_abi_json] writes a descriptor named [name] to. *)
Definition abi_path (subdomain_directory name : str) : str :=
  os_path_join subdomain_directory
    (replace (lit " ") (lit "_") name ++ lit ".json").

(** The state with the events [evs] added to its trace. *)
Definition log (evs : list event) (st : state) : state :=
  mkState (rng st) (trace st ++ evs) (relationship_dict st).

(** The state after the pair [sc_address], [abi_json_path] is recorded. *)
Definition recorded (sc_address abi_json_path : str) (abi_json : json)
  (st : state) : state :=
  mkState (rng st)
    (trace st ++ [WriteFile abi_json_path (AbiJson abi_json);
                  PrintFound sc_address abi_json_path])
    (dict_set sc_address abi_json_path (relationship_dict st)).

(** The body of a response of the network with the given return code. *)
Definition response_with (return_code : str) : json :=
  JObject [(lit "data",
            JObject [(lit "data",
                      JObject [(lit "returnCode", JString return_code)])])].

(** A network on which every function of every contract answers with
    the return code [ok]. *)
Definition rpc_all_ok (sc_address : str) (func_name : json) : outcome json :=
  Returns (response_with (lit "ok")).

(** What [match_pair] does once the first probe has succeeded. *)
Definition confirm_and_record (rpc : str -> json -> outcome json)
  (abi_json : json) (function_names : list json) (subdomain_directory : str)
  (sc_address : str) : M unit :=
  random_functions <- confirmation_functions function_names ;;
  match_count <- count_matches rpc sc_address random_functions 0 ;;
  if (match_count =? length random_functions)%nat then
    name_field <- lift (getitem abi_json (lit "name")) ;;
    abi_json_path <- export_abi_json abi_json name_field subdomain_directory ;;
    set_relationship sc_address abi_json_path ;;
    emit (PrintFound sc_address abi_json_path)
  else ret tt.

(** The loop of [find_matching_contracts] over the descriptors, from
    the state it starts in to the state it ends in. *)
Definition run_batch (rpc : str -> json -> outcome json)
  (sc_addresses : list str) (subdomain_directory : str)
  (abi_jsons : list str) (st : state) : state :=
  snd (for_each abi_jsons
         (fun abi_json_str =>
            try_pass (process_abi rpc sc_addresses subdomain_directory
                        abi_json_str)) st).

(** The dictionary told by the matches a trace announces, and the path
    of the last match it announces for an address. *)
Definition record_event (d : dict str) (e : event) : dict str :=
  match e with
  | PrintFound sc_address abi_json_path => dict_set sc_address abi_json_path d
  | _ => d
  end.

Definition dict_of_trace (evs : list event) : dict str :=
  fold_left record_event evs [].

Definition last_found (sc_address : str) (evs : list event) : option str :=
  fold_left
    (fun found e =>
       match e with
       | PrintFound a abi_json_path =>
           if str_eqb a sc_address then Some abi_json_path else found
       | _ => found
       end)
    evs None.

Definition is_relationship_write (e : event) : bool :=
  match e with
  | WriteFile _ (RelationshipJson _) => true
  | _ => false
  end.

(** The events of a pair that do not touch the dictionary. *)
Definition quiet (e : event) : bool :=
  match e with
  | Query _ _ => true
  | WriteFile _ (AbiJson _) => true
  | _ => false
  end.

(** The inputs of the examples. *)
Definition one_abi : str :=
  lit "{`name`:`One`,`endpoints`:[{`name`:`only`}]}".

Definition two_abi : str :=
  lit "{`name`:`Two`,`endpoints`:[{`name`:`f1`},{`name`:`f2`}]}".

Definition five_abi : str :=
  lit "{`name`:`Five`,`endpoints`:[{`name`:`f1`},{`name`:`f2`},{`name`:`f3`},{`name`:`f4`},{`name`:`f5`}]}".

Definition five_names : list json :=
  map (fun s => JString (lit s)) ["f1"; "f2"; "f3"; "f4"; "f5"]%string.

Definition address_a : str := lit "erd1qqqqqqqqqa".
Definition address_b : str := lit "erd1qqqqqqqqqb".

(** A network on which the contract at [address_a] has the function
    [only] and every other contract has every other function. *)
Definition rpc_example (sc_address : str) (func_name : json) : outcome json :=
  match func_name with
  | JString f =>
      if Bool.eqb (str_eqb sc_address address_a) (str_eqb f (lit "only"))
      then Returns (response_with (lit "ok"))
      else Returns (response_with (lit "function not found"))
  | _ => Raises RequestError
  end.

(** The same network, except that every probe of [f1] fails. *)
Definition rpc_flaky (sc_address : str) (func_name : json) : outcome json :=
  match func_name with
  | JString f =>
      if str_eqb f (lit "f1") then Raises RequestError
      else rpc_example sc_address func_name
  | _ => Raises RequestError
  end.

Definition empty_state : state := mkState [] [] [].

(** A bundle with two objects; the second has an opening brace inside
    a string, which the brace count never makes up for. *)
Definition unbalanced_bundle : str :=
  lit "a={buildInfo:{v:1},name:'A'};b={buildInfo:{v:2},docs:'see {'};".

(** The generator is the only part of the state a sample touches. *)
Definition same_but_rng (st st' : state) : Prop :=
  trace st' = trace st /\ relationship_dict st' = relationship_dict st.

(** Since [base], the dictionary is the one told by the announced
    matches, and the relationship file has not been written. *)
Definition tells_since (base : list event) (st : state) : Prop :=
  exists evs,
    trace st = base ++ evs
    /\ relationship_dict st = dict_of_trace evs
    /\ forallb (fun e => negb (is_relationship_write e)) evs = true.

(** A computation preserves [P] when [P] holds after it, returned or
    raised, whenever it held before. *)
Definition preserved (P : state -> Prop) {A : Type} (m : M A) : Prop :=
  forall st, P st -> P (snd (m st)).

(* ================================================================== *)
(** ** More of the brace scanner *)

(** The loop of [extract_full_json]: the index after the closing brace
    that brings the count back to zero; [i] is the index of the first
    character of [chars]. *)
Fixpoint full_json_loop (chars : str) (brace_count : Z) (i : nat) : option nat :=
  match chars with
  | [] => None
  | char :: rest =>
      if Ascii.eqb char "{" then full_json_loop rest (brace_count + 1)%Z (S i)
      else if Ascii.eqb char "}" then
        let brace_count := (brace_count - 1)%Z in
        if (brace_count =? 0)%Z then Some (S i)
        else full_json_loop rest brace_count (S i)
      else full_json_loop rest brace_count (S i)
  end.

(** [text[start:stop]] for [start <= stop]. *)
Definition slice (text : str) (start stop : nat) : str :=
  firstn (stop - start) (skipn start text).

(** [extract_full_json]; a Python function that ends without [return]
    returns [None]. *)
Definition extract_full_json (text : str) (start_index : nat) : option str :=
  match full_json_loop (skipn start_index text) 0%Z start_index with
  | Some end_index => Some (slice text start_index end_index)
  | None => None
  end.

(** Opening braces minus closing braces. *)
Fixpoint balance (s : str) : Z :=
  match s with
  | [] => 0%Z
  | c :: s' =>
      ((if Ascii.eqb c "{" then 1 else if Ascii.eqb c "}" then -1 else 0)
       + balance s')%Z
  end.

(** [sub] occurs in [s] at offset [i]: [s[i:].startswith(sub)] with
    [i <= len(s)]. *)
Definition occurs_at (sub s : str) (i : nat) : Prop :=
  i <= length s /\ startswith sub (skipn i s) = true.

(** A bundle with a bare marker in one object and a quoted marker in a
    later one. *)
Definition mixed_bundle : str :=
  lit "a={buildInfo:{v:1}};b={`buildInfo`:{v:2}};".

(** [s.count(c)] for a character [c]. *)
Definition count (c : ascii) (s : str) : nat := length (filter (Ascii.eqb c) s).


(** A printable ASCII character other than the backslash: what
    [unicode_escape] copies. *)
Definition is_plain (c : ascii) : bool :=
  in_range 32 126 c && negb (Ascii.eqb c backslash).

(** A character that a JSON string holds as it is, or behind one
    backslash when it is the double quote: no backslash, no control
    character. *)
Definition is_docs_text (c : ascii) : bool :=
  negb (Ascii.eqb c backslash) && negb (in_range 0 31 c).

(* ================================================================== *)
(** ** What a run may do *)

Definition is_query (e : event) : bool :=
  match e with
  | Query _ _ => true
  | _ => false
  end.

(** [abi_json] with the endpoint names [function_names] is what one of
    the texts of [abi_jsons] loads to. *)
Definition descriptor_of (abi_jsons : list str) (abi_json : json)
  (function_names : list json) : Prop :=
  exists abi_json_str,
    In abi_json_str abi_jsons
    /\ load_abi_json abi_json_str = Returns abi_json
    /\ endpoint_names abi_json = Returns function_names.

(** [abi_json_path] is the path of the export of a descriptor of
    [abi_jsons] whose name is a string. *)
Definition export_of (abi_jsons : list str) (dir : str) (abi_json : json)
  (abi_json_path : str) : Prop :=
  exists function_names name,
    descriptor_of abi_jsons abi_json function_names
    /\ getitem abi_json (lit "name") = Returns (JString name)
    /\ abi_json_path = abi_path dir name.

(** The events of a run over the descriptors [abi_jsons] and the
    addresses [sc_addresses] with the export directory [dir]. *)
Definition allowed_event (abi_jsons sc_addresses : list str) (dir : str)
  (e : event) : Prop :=
  match e with
  | MakeDirs d => d = dir
  | Query sc_address func_name =>
      In sc_address sc_addresses
      /\ exists abi_json function_names,
           descriptor_of abi_jsons abi_json function_names
           /\ In func_name function_names
  | WriteFile path (AbiJson abi_json) => export_of abi_jsons dir abi_json path
  | WriteFile path (RelationshipJson _) =>
      path = os_path_join dir (lit "relationship.json")
  | PrintFound sc_address abi_json_path =>
      In sc_address sc_addresses
      /\ exists abi_json, export_of abi_jsons dir abi_json abi_json_path
  | PrintRelationship path => path = os_path_join dir (lit "relationship.json")
  end.

(** From every state, [m] adds to the trace only events that are
    [allowed], at most [bound] of them queries, leaves what is already
    in the trace, and returns only values that satisfy [post]. *)
Definition emits (allowed : event -> Prop) (bound : nat) {A : Type}
  (post : A -> Prop) (m : M A) : Prop :=
  forall st,
    exists evs,
      trace (snd (m st)) = trace st ++ evs
      /\ Forall allowed evs
      /\ length (filter is_query evs) <= bound
      /\ forall a, fst (m st) = Returns a -> post a.

(** The first probe of an address for the endpoint [func_name] is
    answered with one of the two rejection codes. *)
Definition probe_rejected (rpc : str -> json -> outcome json)
  (sc_address : str) (func_name : json) : bool :=
  match obind (rpc sc_address func_name) return_code_of with
  | Returns return_code => not_found return_code
  | Raises _ => false
  end.

(** A network on which no contract has any function. *)
Definition rpc_nothing (sc_address : str) (func_name : json) : outcome json :=
  Returns (response_with (lit "function not found")).

(** Since [base], every path the dictionary holds is the path of a
    descriptor written to a file. *)
Definition paths_written_since (base : list event) (st : state) : Prop :=
  exists evs,
    trace st = base ++ evs
    /\ forall sc_address abi_json_path,
         dict_get sc_address (relationship_dict st) = Some abi_json_path ->
         exists abi_json, In (WriteFile abi_json_path (AbiJson abi_json)) evs.

(* ================================================================== *)
(** ** One script of the application *)

Section Script.

Variable rpc : str -> json -> outcome json.

(** The network and the library, as functions of what they are asked:
    [requests.get(js_url).text]; what [get_active_addresses] returns for
    a list of addresses, the identifiers of the hits of the index, or
    raises; [urlparse(url).netloc]. *)
Variable http_get : str -> outcome str.
Variable get_active_addresses : list str -> outcome (list str).
Variable netloc : str -> str.

Definition process_js_url (js_url : str) : M (list str) :=
  js_code <- lift (http_get js_url) ;;
  abi_jsons <- lift (extract_abi_jsons js_code) ;;
  let extracted_addresses := extract_addresses js_code in
  active_addresses <- lift (get_active_addresses extracted_addresses) ;;
  find_matching_contracts rpc abi_jsons active_addresses (netloc js_url) ;;
  ret abi_jsons.

End Script.

(** [track_sc_abi_relationship]: the dictionary after the call. *)
Definition track_sc_abi_relationship (sc_address abi_json_path : str)
  (relationship_dict : dict str) : dict str :=
  dict_set sc_address abi_json_path relationship_dict.

(** A descriptor named by a number, not by a string. *)
Definition unnamed_abi : json :=
  JObject [(lit "name", JNumber (lit "7"));
           (lit "endpoints", JArray [JObject [(lit "name", JString (lit "f"))]])].

(* ================================================================== *)
(** * Properties *)

(** ** Characters and strings *)

Ltac ascii_cases c := destruct c as [[|] [|] [|] [|] [|] [|] [|] [|]].

Lemma word_not_colon_space c :
  is_word c = true -> Ascii.eqb c ":" = false /\ is_space c = false.
Proof. ascii_cases c; vm_compute; intros; split; congruence. Qed.

Lemma space_not_word c : is_space c = true -> is_word c = false.
Proof. ascii_cases c; vm_compute; congruence. Qed.

Lemma ident_start_word c : is_ident_start c = true -> is_word c = true.
Proof. ascii_cases c; vm_compute; congruence. Qed.

Lemma ends_with_word_snoc s c : ends_with_word (s ++ [c]) = is_word c.
Proof. unfold ends_with_word. rewrite rev_app_distr. reflexivity. Qed.

Lemma take_drop_while f s : take_while f s ++ drop_while f s = s.
Proof.
  induction s as [|c s IH]; [reflexivity|]. cbn.
  destruct (f c); cbn; [now rewrite IH | reflexivity].
Qed.

Lemma take_while_all f s : forallb f (take_while f s) = true.
Proof.
  induction s as [|c s IH]; [reflexivity|]. cbn.
  destruct (f c) eqn:E; cbn; [now rewrite E | reflexivity].
Qed.

Lemma drop_while_length f s : length (drop_while f s) <= length s.
Proof.
  induction s as [|c s IH]; cbn; [lia|]. destruct (f c); cbn; lia.
Qed.

(** ** The key-quoting step *)

Lemma lookahead_colon_app a c b :
  Ascii.eqb c ":" = false -> is_space c = false ->
  lookahead_colon (a ++ c :: b) = lookahead_colon a.
Proof.
  intros Hc Hs. induction a as [|x a IH]; simpl.
  - now rewrite Hc, Hs.
  - destruct (Ascii.eqb x ":"); [reflexivity|].
    destruct (is_space x); [exact IH | reflexivity].
Qed.

Lemma lookahead_colon_spaces ws post :
  forallb is_space ws = true -> lookahead_colon (ws ++ ":" :: post) = true.
Proof.
  induction ws as [|x ws IH]; simpl; [reflexivity|].
  intros H. apply andb_prop in H as [Hx Hws].
  rewrite Hx. destruct (Ascii.eqb x ":"); auto.
Qed.

Lemma quote_word_end w : quote_word w [] = w.
Proof. destruct w; simpl; [reflexivity|]. now rewrite andb_false_r. Qed.

Lemma quote_word_app w a c b :
  Ascii.eqb c ":" = false -> is_space c = false ->
  quote_word w (a ++ c :: b) = quote_word w a.
Proof.
  intros Hc Hs. unfold quote_word. destruct w; [reflexivity|].
  now rewrite lookahead_colon_app.
Qed.

Lemma sub_keys_word_run u : forall w s,
  forallb is_word u = true -> sub_keys w (u ++ s) = sub_keys (w ++ u) s.
Proof.
  induction u as [|x u IH]; intros w s H; simpl.
  - now rewrite app_nil_r.
  - simpl in H. apply andb_prop in H as [Hx Hu].
    rewrite Hx, IH by assumption. now rewrite <- app_assoc.
Qed.

Lemma sub_keys_words w : forallb is_word w = true -> sub_keys [] w = w.
Proof.
  intros H. rewrite <- (app_nil_r w) at 1.
  rewrite sub_keys_word_run by assumption. simpl. apply quote_word_end.
Qed.

Lemma re_sub_keys_skip u : forall pw s,
  forallb is_word u = true ->
  re_sub_keys pw (length u) (u ++ s)
  = re_sub_keys (match u with [] => pw | _ => true end) 0 s.
Proof.
  induction u as [|c u IH]; intros pw s H; [reflexivity|].
  cbn [forallb] in H. apply andb_prop in H as [Hc Hu].
  cbn [length app re_sub_keys]. rewrite IH by assumption. rewrite Hc.
  now destruct u.
Qed.

Lemma re_sub_keys_inside u : forall s,
  forallb is_word u = true ->
  re_sub_keys true 0 (u ++ s) = u ++ re_sub_keys true 0 s.
Proof.
  induction u as [|c u IH]; intros s H; [reflexivity|].
  cbn [forallb] in H. apply andb_prop in H as [Hc Hu].
  cbn [app re_sub_keys match_key]. rewrite Hc. now rewrite IH.
Qed.

Lemma re_sub_keys_after_word s :
  starts_with_word s = false ->
  re_sub_keys true 0 s = re_sub_keys false 0 s.
Proof.
  destruct s as [|x s]; [reflexivity|]. cbn [starts_with_word]. intros Hx.
  cbn [re_sub_keys match_key].
  assert (is_ident_start x = false) as ->; [|reflexivity].
  destruct (is_ident_start x) eqn:E; [|reflexivity].
  apply ident_start_word in E. congruence.
Qed.

Lemma drop_while_not_word s : starts_with_word (drop_while is_word s) = false.
Proof.
  induction s as [|c s IH]; [reflexivity|]. cbn [drop_while].
  destruct (is_word c) eqn:E; [exact IH | cbn; exact E].
Qed.

(** The substitution computed run by run is the one computed match by
    match. *)
Lemma re_sub_keys_runs : forall n s,
  length s <= n -> re_sub_keys false 0 s = sub_keys [] s.
Proof.
  induction n as [|n IH]; intros s L.
  - destruct s; [reflexivity | cbn in L; lia].
  - destruct s as [|c s]; [reflexivity|]. cbn [length] in L.
    destruct (is_word c) eqn:Hc.
    + pose proof (take_drop_while is_word s) as Es.
      pose proof (take_while_all is_word s) as Hu.
      pose proof (drop_while_not_word s) as Hr.
      pose proof (drop_while_length is_word s) as Lr.
      set (u := take_while is_word s) in *.
      set (r := drop_while is_word s) in *.
      assert (Hrun : sub_keys [] (c :: s) = quote_word (c :: u) r ++ sub_keys [] r).
      { rewrite <- Es.
        change (c :: u ++ r) with ((c :: u) ++ r).
        rewrite sub_keys_word_run by (cbn [forallb]; now rewrite Hc).
        cbn [app]. destruct r as [|x r']; [cbn; now rewrite app_nil_r|].
        cbn [starts_with_word] in Hr. cbn [sub_keys]. rewrite Hr.
        destruct (quote_word (c :: u) (x :: r')); reflexivity. }
      rewrite Hrun, <- (IH r) by lia. rewrite <- (re_sub_keys_after_word r Hr).
      cbn [re_sub_keys match_key quote_word]. fold u. fold r.
      destruct (is_ident_start c && lookahead_colon r).
      * replace (length (c :: u) - 1) with (length u) by (cbn [length]; lia).
        rewrite Hc. rewrite <- Es at 1. rewrite re_sub_keys_skip by exact Hu.
        assert (E : re_sub_keys (match u with [] => true | _ => true end) 0 r
                    = re_sub_keys true 0 r) by now destruct u.
        rewrite E. cbn [app]. rewrite <- app_assoc. reflexivity.
      * rewrite Hc. rewrite <- Es at 1.
        rewrite re_sub_keys_inside by exact Hu. reflexivity.
    + cbn [re_sub_keys match_key sub_keys quote_word app]. rewrite Hc.
      assert (is_ident_start c = false) as ->.
      { destruct (is_ident_start c) eqn:E; [|reflexivity].
        apply ident_start_word in E. congruence. }
      cbn [andb]. now rewrite IH by lia.
Qed.

Lemma quote_keys_runs s : quote_keys s = sub_keys [] s.
Proof. now apply (re_sub_keys_runs (length s)). Qed.

(** A character that is neither a word character, white space nor a
    colon cuts the text in two independent halves. *)
Lemma sub_keys_cut c a : forall w b,
  is_word c = false -> Ascii.eqb c ":" = false -> is_space c = false ->
  sub_keys w (a ++ c :: b) = sub_keys w a ++ c :: sub_keys [] b.
Proof.
  intros w b Hw Hc Hs. revert w.
  induction a as [|x a IH]; intros w; cbn [app sub_keys].
  - rewrite Hw. rewrite <- (quote_word_app w [] c b Hc Hs). reflexivity.
  - destruct (is_word x); [apply IH|].
    rewrite IH. change (x :: a ++ c :: b) with ((x :: a) ++ c :: b).
    rewrite quote_word_app by assumption. now rewrite <- app_assoc.
Qed.

(** So does the start of a word after a character that is not one. *)
Lemma sub_keys_before_word a x c r : forall w,
  is_word x = false -> is_word c = true ->
  sub_keys w (a ++ x :: c :: r) = sub_keys w (a ++ [x]) ++ sub_keys [] (c :: r).
Proof.
  intros w Hx Hc. destruct (word_not_colon_space c Hc) as [Hcol Hsp].
  revert w. induction a as [|y a IH]; intros w.
  - cbn [app sub_keys]. rewrite Hx.
    rewrite <- (quote_word_app w [x] c r Hcol Hsp).
    cbn [app quote_word]. rewrite <- app_assoc. reflexivity.
  - cbn [app sub_keys]. destruct (is_word y); [apply IH|].
    rewrite IH.
    rewrite <- (quote_word_app w (y :: a ++ [x]) c r Hcol Hsp).
    cbn [app]. rewrite <- !app_assoc. reflexivity.
Qed.

Lemma quote_keys_before_word pre c r :
  ends_with_word pre = false -> is_word c = true ->
  quote_keys (pre ++ c :: r) = quote_keys pre ++ quote_keys (c :: r).
Proof.
  intros Hpre Hc. rewrite !quote_keys_runs.
  destruct (rev pre) as [|x p] eqn:E.
  - apply (f_equal (@rev ascii)) in E. rewrite rev_involutive in E.
    subst pre. reflexivity.
  - apply (f_equal (@rev ascii)) in E. rewrite rev_involutive in E.
    cbn [rev] in E. subst pre. rewrite ends_with_word_snoc in Hpre.
    rewrite <- app_assoc. cbn [app]. now apply sub_keys_before_word.
Qed.

Lemma sub_keys_spaces ws post :
  forallb is_space ws = true ->
  sub_keys [] (ws ++ ":" :: post) = ws ++ ":" :: sub_keys [] post.
Proof.
  induction ws as [|x ws IH]; intros H; cbn [app sub_keys forallb] in *.
  - reflexivity.
  - apply andb_prop in H as [Hx Hws]. rewrite (space_not_word x Hx).
    cbn [quote_word app]. now rewrite IH.
Qed.

Lemma sub_keys_nonword w x rest :
  is_word x = false ->
  sub_keys w (x :: rest) = quote_word w (x :: rest) ++ x :: sub_keys [] rest.
Proof. intros H. cbn [sub_keys]. now rewrite H. Qed.

Lemma quote_keys_key id ws post :
  is_identifier id = true -> forallb is_space ws = true ->
  quote_keys (id ++ ws ++ ":" :: post)
  = dquote :: id ++ dquote :: ws ++ ":" :: quote_keys post.
Proof.
  intros Hid Hws. rewrite !quote_keys_runs.
  destruct id as [|c id]; [discriminate|]. cbn [is_identifier] in Hid.
  apply andb_prop in Hid as [Hc Hid].
  assert (Hall : forallb is_word (c :: id) = true).
  { cbn. now rewrite (ident_start_word c Hc). }
  rewrite sub_keys_word_run by assumption. cbn [app].
  assert (Hq : quote_word (c :: id) (ws ++ ":" :: post)
               = dquote :: (c :: id) ++ [dquote]).
  { cbn [quote_word]. now rewrite Hc, lookahead_colon_spaces. }
  destruct ws as [|x ws].
  - cbn [app] in *. rewrite sub_keys_nonword by reflexivity.
    rewrite Hq. cbn [app]. rewrite <- app_assoc. reflexivity.
  - cbn [app forallb] in *. apply andb_prop in Hws as [Hx Hws].
    rewrite sub_keys_nonword by now apply space_not_word.
    rewrite Hq, sub_keys_spaces by assumption.
    cbn [app]. rewrite <- app_assoc. reflexivity.
Qed.

(** C4. The key-quoting step of the primary repair wraps in double
    quotes every identifier that stands at the start of a word and is
    followed, white space apart, by a colon; an identifier already
    enclosed in double quotes is copied with its one pair of quotes. *)
Theorem quote_keys_wraps_keys_once :
  (forall pre id ws post,
      ends_with_word pre = false ->
      is_identifier id = true ->
      forallb is_space ws = true ->
      quote_keys (pre ++ id ++ ws ++ ":" :: post)
      = quote_keys pre ++ dquote :: id ++ dquote :: ws ++ ":" :: quote_keys post)
  /\
  (forall pre id post,
      forallb is_word id = true ->
      quote_keys (pre ++ dquote :: id ++ dquote :: post)
      = quote_keys pre ++ dquote :: id ++ dquote :: quote_keys post).
Proof.
  split.
  - intros pre id ws post Hpre Hid Hws.
    destruct id as [|c id]; [discriminate|].
    assert (Hc : is_word c = true).
    { cbn in Hid. apply andb_prop in Hid as [Hc _]. now apply ident_start_word. }
    cbn [app]. rewrite quote_keys_before_word by assumption.
    change (c :: id ++ ws ++ ":" :: post) with ((c :: id) ++ ws ++ ":" :: post).
    now rewrite quote_keys_key.
  - intros pre id post Hid. rewrite !quote_keys_runs.
    rewrite (sub_keys_cut dquote pre [] (id ++ dquote :: post)) by reflexivity.
    rewrite (sub_keys_cut dquote id [] post) by reflexivity.
    now rewrite (sub_keys_words id Hid).
Qed.

Lemma quote_keys_wraps_keys_once_witness :
  quote_keys (lit "{name : 1}") = lit "{`name` : 1}"
  /\ quote_keys (lit "{`name`:1}") = lit "{`name`:1}".
Proof.
  split.
  - exact (proj1 quote_keys_wraps_keys_once (lit "{") (lit "name") (lit " ")
             (lit " 1}") eq_refl eq_refl eq_refl).
  - exact (proj2 quote_keys_wraps_keys_once (lit "{") (lit "name")
             (lit ":1}") eq_refl).
Defined.

(** ** The primary repair on text that needs none *)

Lemma replace_from_absent old new s :
  contains old s = false -> replace_from old new 0 s = s.
Proof.
  induction s as [|c s IH]; intros H; [reflexivity|].
  cbn [contains] in H. apply orb_false_elim in H as [H1 H2].
  cbn [replace_from]. rewrite H1. now rewrite IH.
Qed.

Lemma replace_absent old new s : contains old s = false -> replace old new s = s.
Proof. apply replace_from_absent. Qed.

Lemma quote_word_unchanged w rest :
  quote_word w rest = w ->
  match w with
  | [] => True
  | h :: _ => is_ident_start h && lookahead_colon rest = false
  end.
Proof.
  destruct w as [|h w]; [trivial|]. cbn [quote_word].
  destruct (is_ident_start h && lookahead_colon rest); [|reflexivity].
  intros H. apply (f_equal (@length ascii)) in H.
  cbn [length] in H. rewrite length_app in H. cbn in H. lia.
Qed.

Lemma sub_keys_plain s : forall w, pending_plain w s -> sub_keys w s = w ++ s.
Proof.
  induction s as [|c s IH]; intros w H.
  - cbn [sub_keys]. rewrite quote_word_end. now rewrite app_nil_r.
  - cbn [sub_keys]. destruct (is_word c) eqn:Hc.
    + rewrite IH; [now rewrite <- app_assoc|].
      destruct w as [|h w]; cbn [pending_plain app] in *.
      * cbn [has_bare_key] in H. rewrite Hc in H.
        apply orb_false_elim in H as [H1 H2]. cbn [negb andb] in H1. now split.
      * destruct H as [H1 H2]. cbn [drop_while has_bare_key] in *.
        rewrite Hc in *. cbn [negb andb orb] in H2. now split.
    + assert (Hs : has_bare_key false s = false).
      { destruct w as [|h w]; cbn [pending_plain] in H.
        - cbn [has_bare_key] in H. rewrite Hc in H.
          now apply orb_false_elim in H as [_ H].
        - destruct H as [_ H]. cbn [has_bare_key] in H. now rewrite Hc in H. }
      rewrite (IH [] Hs). cbn [app].
      destruct w as [|h w]; [reflexivity|].
      destruct H as [H _]. cbn [drop_while] in H. rewrite Hc in H.
      cbn [quote_word]. rewrite H. reflexivity.
Qed.

Lemma quote_keys_plain s : has_bare_key false s = false -> quote_keys s = s.
Proof. intros H. rewrite quote_keys_runs. now rewrite sub_keys_plain. Qed.

(** C5, as amended.  A text without single quote, backslash, [!0], [!1]
    and without an identifier that starts a word and is followed, white
    space apart, by a colon is returned unchanged by the primary repair;
    it therefore parses after the repair exactly as it did before. *)
Theorem repair_json_keeps_plain_json s :
  has_bare_key false s = false ->
  contains [squote] s = false ->
  contains [backslash] s = false ->
  contains (lit "!0") s = false ->
  contains (lit "!1") s = false ->
  repair_json s = s /\ json_loads (repair_json s) = json_loads s.
Proof.
  intros Hk Hq Hb H0 H1.
  assert (E : repair_json s = s).
  { unfold repair_json. rewrite (quote_keys_plain s Hk).
    rewrite (replace_absent _ _ s Hq), (replace_absent _ _ s Hb).
    now rewrite (replace_absent _ _ s H0), (replace_absent _ _ s H1). }
  split; [exact E | now rewrite E].
Qed.

Lemma repair_json_keeps_plain_json_witness :
  repair_json (lit "{`a`:[1,true],`b c`:`x`}") = lit "{`a`:[1,true],`b c`:`x`}"
  /\ json_loads (repair_json (lit "{`a`:[1,true],`b c`:`x`}"))
     = json_loads (lit "{`a`:[1,true],`b c`:`x`}").
Proof.
  exact (repair_json_keeps_plain_json (lit "{`a`:[1,true],`b c`:`x`}")
           eq_refl eq_refl eq_refl eq_refl eq_refl).
Defined.

(** C5, as stated, fails: this strict JSON text has double-quoted keys
    and strings only, no single quote, no backslash, no [!0] or [!1];
    the key-quoting step quotes the [b] inside its string value and the
    result is not JSON any more. *)
Lemma repair_json_breaks_colon_in_string :
  ~ (forall s v,
        json_loads s = Returns v ->
        contains [squote] s = false ->
        contains [backslash] s = false ->
        contains (lit "!0") s = false ->
        contains (lit "!1") s = false ->
        json_loads (repair_json s) = Returns v).
Proof.
  intros H.
  specialize (H (lit "{`a`:`b:c`}") (JObject [(lit "a", JString (lit "b:c"))])
                eq_refl eq_refl eq_refl eq_refl eq_refl).
  vm_compute in H. discriminate H.
Qed.

Example repair_json_colon_in_string :
  repair_json (lit "{`a`:`b:c`}") = lit "{`a`:``b`:c`}"
  /\ scan_once (json_fuel (lit "{`a`:``b`:c`}")) (lit "{`a`:``b`:c`}")
     = SyntaxError.
Proof. split; reflexivity. Qed.

Example repair_json_apostrophe_in_string :
  json_loads (lit "{`a`:`it's`}") = Returns (JObject [(lit "a", JString (lit "it's"))])
  /\ repair_json (lit "{`a`:`it's`}") = lit "{`a`:`it`s`}"
  /\ scan_once (json_fuel (lit "{`a`:`it`s`}")) (lit "{`a`:`it`s`}") = SyntaxError.
Proof. repeat split; reflexivity. Qed.

(** ** The address extractor *)

Lemma alnum_word c : is_alnum c = true -> is_word c = true.
Proof. unfold is_word. now intros ->. Qed.

Lemma nonword_not_alnum c : is_word c = false -> is_alnum c = false.
Proof.
  intros H. destruct (is_alnum c) eqn:E; [|reflexivity].
  apply alnum_word in E. congruence.
Qed.

Lemma forallb_alnum_word s : forallb is_alnum s = true -> forallb is_word s = true.
Proof.
  induction s as [|c s IH]; [reflexivity|]. cbn [forallb]. intros H.
  apply andb_prop in H as [H1 H2]. now rewrite (alnum_word c H1), IH.
Qed.

Lemma strip_prefix_spec p : forall s r, strip_prefix p s = Some r -> s = p ++ r.
Proof.
  induction p as [|x p IH]; intros s r H; cbn in *.
  - now injection H as ->.
  - destruct s as [|y s]; [discriminate|].
    destruct (Ascii.eqb_spec x y) as [->|]; [|discriminate].
    now rewrite (IH s r H).
Qed.

Lemma strip_prefix_app p r : strip_prefix p (p ++ r) = Some r.
Proof. induction p as [|x p IH]; cbn; [reflexivity|]. now rewrite Ascii.eqb_refl. Qed.

(** The text a match attempt reads ends at the first character that is
    not a word character. *)
Lemma strip_prefix_cut p : forall a x b,
  forallb is_word p = true -> is_word x = false ->
  strip_prefix p (a ++ x :: b)
  = match strip_prefix p (a ++ [x]) with
    | Some r => Some (r ++ b)
    | None => None
    end
  /\ forall r, strip_prefix p (a ++ [x]) = Some r -> exists r', r = r' ++ [x].
Proof.
  induction p as [|y p IH]; intros a x b Hp Hx.
  - cbn. split; [now rewrite <- app_assoc|].
    intros r H. injection H as <-. now exists a.
  - cbn [forallb] in Hp. apply andb_prop in Hp as [Hy Hp].
    destruct a as [|z a]; cbn [app strip_prefix].
    + destruct (Ascii.eqb_spec y x) as [->|]; [congruence|].
      split; [reflexivity | discriminate].
    + destruct (Ascii.eqb y z); [now apply IH|].
      split; [reflexivity | discriminate].
Qed.

Lemma take_while_cut a x b :
  is_alnum x = false ->
  take_while is_alnum (a ++ x :: b) = take_while is_alnum (a ++ [x])
  /\ starts_with_word (drop_while is_alnum (a ++ x :: b))
     = starts_with_word (drop_while is_alnum (a ++ [x])).
Proof.
  intros Hx. induction a as [|c a IH]; cbn [app take_while drop_while].
  - rewrite Hx. now split.
  - destruct (is_alnum c); [|now split].
    destruct IH as [IH1 IH2]. now rewrite IH1, IH2.
Qed.

Lemma match_address_cut pw a x b :
  is_word x = false ->
  match_address pw (a ++ x :: b) = match_address pw (a ++ [x]).
Proof.
  intros Hx. unfold match_address. destruct pw; [reflexivity|].
  destruct (strip_prefix_cut address_prefix a x b eq_refl Hx) as [E Hr].
  rewrite E. destruct (strip_prefix address_prefix (a ++ [x])) as [r|]; [|reflexivity].
  destruct (Hr r eq_refl) as [r' ->]. rewrite <- app_assoc. cbn [app].
  destruct (take_while_cut r' x b (nonword_not_alnum x Hx)) as [E1 E2].
  now rewrite E1, E2.
Qed.

Lemma match_address_spec pw s addr :
  match_address pw s = Some addr ->
  exists rest, s = addr ++ rest /\ is_address addr = true
               /\ starts_with_word rest = false.
Proof.
  unfold match_address. destruct pw; [discriminate|].
  destruct (strip_prefix address_prefix s) as [r|] eqn:E; [|discriminate].
  apply strip_prefix_spec in E.
  destruct (take_while is_alnum r) as [|c run] eqn:Et; [discriminate|].
  destruct (starts_with_word (drop_while is_alnum r)) eqn:Ed; [discriminate|].
  intros H. injection H as <-. exists (drop_while is_alnum r).
  repeat split; [| |exact Ed].
  - change (s = (address_prefix ++ c :: run) ++ drop_while is_alnum r).
    rewrite <- app_assoc, <- Et, take_drop_while. exact E.
  - change (is_address (address_prefix ++ c :: run) = true).
    unfold is_address. rewrite strip_prefix_app, <- Et. apply take_while_all.
Qed.

Lemma is_address_word addr : is_address addr = true -> forallb is_word addr = true.
Proof.
  unfold is_address.
  destruct (strip_prefix address_prefix addr) as [[|c run]|] eqn:E; try discriminate.
  apply strip_prefix_spec in E. subst addr. intros H.
  rewrite forallb_app. now rewrite (forallb_alnum_word _ H).
Qed.

Lemma match_address_length pw a x addr :
  is_word x = false ->
  match_address pw (a ++ [x]) = Some addr -> length addr <= length a.
Proof.
  intros Hx H. apply match_address_spec in H as (rest & E & Ha & _).
  apply is_address_word in Ha.
  destruct rest as [|y rest].
  - rewrite app_nil_r in E. subst addr.
    rewrite forallb_app in Ha. cbn in Ha. rewrite Hx in Ha.
    now rewrite andb_false_r in Ha.
  - apply (f_equal (@length ascii)) in E. rewrite !length_app in E.
    cbn in E. lia.
Qed.

Lemma match_address_nonword pw x b :
  is_word x = false -> match_address pw (x :: b) = None.
Proof.
  intros Hx. unfold match_address. destruct pw; [reflexivity|].
  assert (E : strip_prefix address_prefix (x :: b) = None).
  { change address_prefix with ("e" :: lit "rd1qqqqqqqqq"). cbn [strip_prefix].
    destruct (Ascii.eqb_spec "e" x) as [<-|]; [discriminate Hx | reflexivity]. }
  now rewrite E.
Qed.

Lemma findall_addresses_cut x b : forall a pw k,
  is_word x = false -> k <= length a ->
  findall_addresses pw k (a ++ x :: b)
  = findall_addresses pw k (a ++ [x]) ++ findall_addresses false 0 b.
Proof.
  intros a pw k Hx. revert pw k.
  induction a as [|c a IH]; intros pw k Hk.
  - cbn in Hk. assert (k = 0) as -> by lia. cbn [app findall_addresses].
    rewrite !match_address_nonword by assumption. now rewrite Hx.
  - cbn [app findall_addresses]. destruct k as [|k].
    + change (c :: a ++ x :: b) with ((c :: a) ++ x :: b).
      change (c :: a ++ [x]) with ((c :: a) ++ [x]).
      rewrite match_address_cut by assumption.
      destruct (match_address pw ((c :: a) ++ [x])) as [addr|] eqn:E.
      * apply match_address_length in E; [|assumption].
        cbn [length] in E. rewrite IH by lia. reflexivity.
      * apply IH. lia.
    + apply IH. cbn in Hk. lia.
Qed.

Lemma findall_addresses_skip u : forall pw s,
  findall_addresses pw (length u) (u ++ s)
  = findall_addresses (match rev u with c :: _ => is_word c | [] => pw end) 0 s.
Proof.
  induction u as [|c u IH]; intros pw s; [reflexivity|].
  cbn [length app findall_addresses]. rewrite IH. cbn [rev].
  destruct (rev u); reflexivity.
Qed.

Lemma findall_addresses_prev pw s :
  starts_with_word s = false ->
  findall_addresses pw 0 s = findall_addresses false 0 s.
Proof.
  destruct s as [|x b]; [reflexivity|]. cbn [starts_with_word]. intros Hx.
  cbn [findall_addresses]. now rewrite !match_address_nonword.
Qed.

Lemma match_address_token tok post :
  is_address tok = true -> starts_with_word post = false ->
  match_address false (tok ++ post) = Some tok.
Proof.
  unfold is_address. intros Ht Hp.
  destruct (strip_prefix address_prefix tok) as [[|c run]|] eqn:E; try discriminate.
  apply strip_prefix_spec in E. subst tok.
  unfold match_address. rewrite <- app_assoc, strip_prefix_app.
  assert (Hcut : take_while is_alnum ((c :: run) ++ post) = c :: run
                 /\ drop_while is_alnum ((c :: run) ++ post) = post).
  { revert Ht. generalize (c :: run) as u.
    induction u as [|y u IH]; intros Hu.
    - destruct post as [|z post]; [now split|]. cbn in Hp |- *.
      now rewrite (nonword_not_alnum z Hp).
    - cbn [forallb] in Hu. apply andb_prop in Hu as [Hy Hu].
      cbn [app take_while drop_while]. rewrite Hy.
      destruct (IH Hu) as [-> ->]. now split. }
  destruct Hcut as [-> ->]. now rewrite Hp.
Qed.

Lemma findall_addresses_token tok post :
  is_address tok = true -> starts_with_word post = false ->
  findall_addresses false 0 (tok ++ post) = tok :: findall_addresses false 0 post.
Proof.
  intros Ht Hp. pose proof (match_address_token tok post Ht Hp) as Hm.
  destruct tok as [|c tok]; [discriminate Ht|].
  cbn [app findall_addresses] in *. rewrite Hm. f_equal.
  replace (length (c :: tok) - 1) with (length tok) by (cbn [length]; lia).
  rewrite findall_addresses_skip.
  now apply findall_addresses_prev.
Qed.

Lemma findall_addresses_sound addr : forall s pw k,
  In addr (findall_addresses pw k s) -> is_address addr = true.
Proof.
  induction s as [|c s IH]; intros pw k H; [contradiction|].
  cbn [findall_addresses] in H. destruct k as [|k]; [|now apply IH in H].
  destruct (match_address pw (c :: s)) as [a|] eqn:E; [|now apply IH in H].
  destruct H as [->|H]; [|now apply IH in H].
  now apply match_address_spec in E as (_ & _ & E & _).
Qed.

(** C7, as amended.  Every address-shaped token that stands between word
    boundaries is returned once per occurrence, in order and with its
    duplicates, unless it contains the placeholder literal; the tokens
    that contain the literal are the only ones left out, and the
    placeholder itself is never returned. *)
Theorem extract_addresses_tokens :
  (forall pre token post,
      ends_with_word pre = false ->
      is_address token = true ->
      starts_with_word post = false ->
      extract_addresses (pre ++ token ++ post)
      = extract_addresses pre
        ++ (if contains placeholder_address token then [] else [token])
        ++ extract_addresses post)
  /\
  (forall js_code address,
      In address (extract_addresses js_code) ->
      is_address address = true
      /\ contains placeholder_address address = false
      /\ address <> placeholder_address).
Proof.
  split.
  - intros pre token post Hpre Ht Hpost. unfold extract_addresses.
    assert (E : findall_addresses false 0 (pre ++ token ++ post)
                = findall_addresses false 0 pre
                  ++ token :: findall_addresses false 0 post).
    { rewrite <- (findall_addresses_token token post Ht Hpost).
      destruct (rev pre) as [|x p] eqn:Er;
        apply (f_equal (@rev ascii)) in Er; rewrite rev_involutive in Er;
        cbn [rev] in Er; subst pre; [reflexivity|].
      rewrite ends_with_word_snoc in Hpre. rewrite <- app_assoc. cbn [app].
      apply findall_addresses_cut; [assumption | lia]. }
    rewrite E, filter_app. cbn [filter].
    now destruct (contains placeholder_address token).
  - intros js_code address H. unfold extract_addresses in H.
    apply filter_In in H as [H1 H2]. apply negb_true_iff in H2.
    repeat split; [now apply findall_addresses_sound in H1 | exact H2 |].
    intros ->. vm_compute in H2. discriminate.
Qed.

Lemma extract_addresses_tokens_witness :
  extract_addresses (lit "a:'erd1qqqqqqqqqabc',b:'erd1qqqqqqqqqabc'")
  = [lit "erd1qqqqqqqqqabc"; lit "erd1qqqqqqqqqabc"].
Proof.
  exact (proj1 extract_addresses_tokens (lit "a:'") (lit "erd1qqqqqqqqqabc")
           (lit "',b:'erd1qqqqqqqqqabc'") eq_refl eq_refl eq_refl).
Defined.

(** C7, as stated, fails: a token that is not the placeholder but
    continues it is excluded as well. *)
Lemma extract_addresses_excludes_more :
  ~ (forall pre token post,
        ends_with_word pre = false ->
        is_address token = true ->
        starts_with_word post = false ->
        token <> placeholder_address ->
        In token (extract_addresses (pre ++ token ++ post))).
Proof.
  intros H.
  assert (Hne : placeholder_address ++ lit "zllls8a5w6u" <> placeholder_address).
  { intros E. apply (f_equal (@length ascii)) in E. vm_compute in E. discriminate. }
  specialize (H (lit "sc='") (placeholder_address ++ lit "zllls8a5w6u") (lit "';")
                eq_refl eq_refl eq_refl Hne).
  vm_compute in H. exact H.
Qed.

(** ** The secondary repair *)

Lemma startswith_strip_prefix p : forall s,
  startswith p s = false -> strip_prefix p s = None.
Proof.
  induction p as [|x p IH]; intros s H; [discriminate|].
  destruct s as [|y s]; [reflexivity|]. cbn in *.
  destruct (Ascii.eqb x y); [now apply IH | reflexivity].
Qed.


Lemma find_at_shift sub s : forall i,
  find_at sub s i
  = match find_at sub s 0 with Some k => Some (i + k) | None => None end.
Proof.
  induction s as [|c s IH]; intros i; cbn [find_at].
  - destruct (startswith sub []); [f_equal; lia | reflexivity].
  - destruct (startswith sub (c :: s)); [f_equal; lia|].
    rewrite (IH (S i)), (IH 1).
    destruct (find_at sub s 0); [f_equal; lia | reflexivity].
Qed.






Lemma replace_from_skip old new u : forall s,
  replace_from old new (length u) (u ++ s) = replace_from old new 0 s.
Proof.
  induction u as [|c u IH]; intros s; [reflexivity|].
  cbn [length app replace_from]. apply IH.
Qed.


Lemma repair_docs_as_single_string_field inner :
  repair_docs_as_single_string (lit "[" ++ inner ++ lit "]")
  = dquote :: escape_docs inner ++ [dquote].
Proof.
  unfold repair_docs_as_single_string, escape_docs.
  change (tl (lit "[" ++ inner ++ lit "]")) with (inner ++ ["]"]).
  now rewrite removelast_last.
Qed.



(** ** Termination of the loops that the model runs on fuel *)

Lemma find_lower_bound sub s start i : find sub s start = Some i -> start <= i.
Proof.
  unfold find. destruct (start <=? length s)%nat; [|discriminate].
  rewrite find_at_shift. destruct (find_at sub (skipn start s) 0); [|discriminate].
  intros H. injection H as <-. lia.
Qed.

Lemma find_past_end sub s start : length s < start -> find sub s start = None.
Proof.
  intros H. unfold find.
  destruct (Nat.leb_spec start (length s)); [lia | reflexivity].
Qed.

(** The marker loop gives the same list with any fuel above the number
    of characters left: the fuel of the definition never runs out. *)
Lemma find_buildinfo_loop_fuel js_code : forall fuel1 fuel2 index,
  length js_code < fuel1 + index -> length js_code < fuel2 + index ->
  find_buildinfo_loop fuel1 js_code index = find_buildinfo_loop fuel2 js_code index.
Proof.
  assert (Hzero : forall fuel index, length js_code < index ->
                    find_buildinfo_loop fuel js_code index = []).
  { intros [|fuel] index H; [reflexivity|]. cbn [find_buildinfo_loop].
    now rewrite !find_past_end. }
  induction fuel1 as [|fuel1 IH]; intros fuel2 index H1 H2.
  - now rewrite !Hzero by lia.
  - destruct fuel2 as [|fuel2]; [now rewrite !Hzero by lia|].
    cbn [find_buildinfo_loop].
    destruct (match find marker_quoted js_code index with
              | Some i => Some i
              | None => find marker_bare js_code index
              end) as [b|] eqn:E; [|reflexivity].
    assert (Hb : index <= b).
    { destruct (find marker_quoted js_code index) eqn:Eq.
      - injection E as ->. now apply find_lower_bound in Eq.
      - now apply find_lower_bound in E. }
    now rewrite (IH fuel2 (S b)) by lia.
Qed.

Lemma skip_ws_cons s c r : skip_ws s = c :: r -> length r < length s.
Proof.
  intros H. pose proof (drop_while_length is_json_ws s) as L.
  unfold skip_ws in H. rewrite H in L. cbn in L. lia.
Qed.

Lemma skip_ws_length s : length (skip_ws s) <= length s.
Proof. apply drop_while_length. Qed.

Lemma scanstring_length s : forall text rest,
  scanstring s = Some (text, rest) -> length rest < length s.
Proof.
  induction s as [s IH] using (well_founded_induction
    (Wf_nat.well_founded_ltof _ (@length ascii))).
  unfold Wf_nat.ltof in IH. intros text rest H.
  destruct s as [|c s]; [discriminate|]. cbn [scanstring] in H.
  destruct (Ascii.eqb c dquote).
  { injection H as _ <-. cbn. lia. }
  destruct (Ascii.eqb c backslash).
  { destruct s as [|esc s]; [discriminate|].
    destruct (Ascii.eqb esc "u").
    - destruct s as [|h1 [|h2 [|h3 [|h4 s]]]]; try discriminate.
      destruct (decode_uXXXX h1 h2 h3 h4); [|discriminate].
      destruct (scanstring s) as [[t r]|] eqn:E; [|discriminate].
      injection H as _ <-. apply IH in E; cbn in *; lia.
    - destruct (unescape esc); [|discriminate].
      destruct (scanstring s) as [[t r]|] eqn:E; [|discriminate].
      injection H as _ <-. apply IH in E; cbn in *; lia. }
  destruct (in_range 0 31 c); [discriminate|].
  destruct (scanstring s) as [[t r]|] eqn:E; [|discriminate].
  injection H as _ <-. apply IH in E; cbn in *; lia.
Qed.

Lemma strip_prefix_length p s r :
  strip_prefix p s = Some r -> length s = length p + length r.
Proof. intros H. apply strip_prefix_spec in H. subst s. apply length_app. Qed.

Lemma scan_integer_length s ds rest :
  scan_integer s = Some (ds, rest) -> length rest < length s.
Proof.
  destruct s as [|c s]; [discriminate|]. cbn [scan_integer].
  destruct (Ascii.eqb c "0"); [intros H; injection H as _ <-; cbn; lia|].
  destruct (in_range 49 57 c); [|discriminate].
  intros H. injection H as _ <-.
  pose proof (drop_while_length is_digit s). cbn. lia.
Qed.

Lemma scan_digits_length s ds rest :
  scan_digits s = Some (ds, rest) -> length rest <= length s.
Proof.
  unfold scan_digits. destruct (take_while is_digit s); [discriminate|].
  intros H. injection H as _ <-. apply drop_while_length.
Qed.

Lemma scan_fraction_length s : length (snd (scan_fraction s)) <= length s.
Proof.
  destruct s as [|c s]; [cbn; lia|]. cbn [scan_fraction].
  destruct (Ascii.eqb c "."); [|cbn; lia].
  destruct (scan_digits s) as [[ds rest]|] eqn:E; [|cbn; lia].
  apply scan_digits_length in E. cbn. lia.
Qed.

Lemma scan_exponent_length s : length (snd (scan_exponent s)) <= length s.
Proof.
  destruct s as [|e s]; [cbn; lia|]. cbn [scan_exponent].
  destruct (Ascii.eqb e "e" || Ascii.eqb e "E"); [|cbn; lia].
  destruct s as [|sg s]; [cbn; lia|].
  destruct (Ascii.eqb sg "-" || Ascii.eqb sg "+").
  - destruct (scan_digits s) as [[ds rest]|] eqn:E; [|cbn; lia].
    apply scan_digits_length in E. cbn. lia.
  - destruct (scan_digits (sg :: s)) as [[ds rest]|] eqn:E; [|cbn; lia].
    apply scan_digits_length in E. cbn in *. lia.
Qed.

Lemma match_number_length s literal rest :
  match_number s = Some (literal, rest) -> length rest < length s.
Proof.
  unfold match_number.
  set (signed := match s with
                 | [] => None
                 | c :: s' =>
                     if Ascii.eqb c "-"
                     then match scan_integer s' with
                          | Some (ds, rest) => Some (c :: ds, rest)
                          | None => None
                          end
                     else scan_integer s
                 end).
  assert (Hs : forall i r, signed = Some (i, r) -> length r < length s).
  { subst signed. intros i r. destruct s as [|c s]; [discriminate|].
    destruct (Ascii.eqb c "-").
    - destruct (scan_integer s) as [[ds r']|] eqn:E; [|discriminate].
      intros H. injection H as _ <-. apply scan_integer_length in E. cbn. lia.
    - apply scan_integer_length. }
  destruct signed as [[i r]|]; [|discriminate].
  specialize (Hs i r eq_refl).
  pose proof (scan_fraction_length r) as Hf.
  destruct (scan_fraction r) as [frac r1]. cbn [snd] in Hf.
  pose proof (scan_exponent_length r1) as He.
  destruct (scan_exponent r1) as [ex r2]. cbn [snd] in He.
  intros H. injection H as _ <-. lia.
Qed.

Lemma scan_scalar_length s v rest :
  scan_scalar s = Parsed v rest -> length rest < length s.
Proof.
  unfold scan_scalar.
  repeat match goal with
  | |- context [strip_prefix ?p s] =>
      let E := fresh "E" in
      destruct (strip_prefix p s) eqn:E;
      [apply strip_prefix_length in E; cbn [length lit map list_ascii_of_string] in E;
       intros H; injection H as _ <-; cbn in E; lia|]
  | |- context [match_number s] =>
      let E := fresh "E" in
      destruct (match_number s) as [[? ?]|] eqn:E;
      [apply match_number_length in E; intros H; injection H as _ <-; exact E|]
  end.
  discriminate.
Qed.

Lemma scan_once_S fuel s :
  scan_once (S fuel) s
  = match s with
    | [] => SyntaxError
    | c :: s' =>
        if Ascii.eqb c dquote then
          match scanstring s' with
          | Some (text, rest) => Parsed (JString text) rest
          | None => SyntaxError
          end
        else if Ascii.eqb c "{" then
          match skip_ws s' with
          | c1 :: rest =>
              if Ascii.eqb c1 "}" then Parsed (JObject []) rest
              else if Ascii.eqb c1 dquote then parse_members fuel rest []
              else SyntaxError
          | [] => SyntaxError
          end
        else if Ascii.eqb c "[" then
          match skip_ws s' with
          | c1 :: rest =>
              if Ascii.eqb c1 "]" then Parsed (JArray []) rest
              else parse_items fuel (c1 :: rest) []
          | [] => SyntaxError
          end
        else scan_scalar s
    end.
Proof. reflexivity. Qed.

Lemma parse_items_S fuel s values :
  parse_items (S fuel) s values
  = match scan_once fuel s with
    | Parsed value rest =>
        match skip_ws rest with
        | c :: rest1 =>
            if Ascii.eqb c "]" then Parsed (JArray (values ++ [value])) rest1
            else if Ascii.eqb c ","
                 then parse_items fuel (skip_ws rest1) (values ++ [value])
                 else SyntaxError
        | [] => SyntaxError
        end
    | SyntaxError => SyntaxError
    | OutOfFuel => OutOfFuel
    end.
Proof. reflexivity. Qed.

Lemma parse_members_S fuel s pairs :
  parse_members (S fuel) s pairs
  = match scanstring s with
    | None => SyntaxError
    | Some (key, rest) =>
        match skip_ws rest with
        | c :: rest1 =>
            if Ascii.eqb c ":" then
              match scan_once fuel (skip_ws rest1) with
              | Parsed value rest2 =>
                  match skip_ws rest2 with
                  | c2 :: rest3 =>
                      if Ascii.eqb c2 "}"
                      then Parsed (JObject (dict_set key value pairs)) rest3
                      else if Ascii.eqb c2 "," then
                        match skip_ws rest3 with
                        | c3 :: rest4 =>
                            if Ascii.eqb c3 dquote
                            then parse_members fuel rest4
                                   (dict_set key value pairs)
                            else SyntaxError
                        | [] => SyntaxError
                        end
                      else SyntaxError
                  | [] => SyntaxError
                  end
              | SyntaxError => SyntaxError
              | OutOfFuel => OutOfFuel
              end
            else SyntaxError
        | [] => SyntaxError
        end
    end.
Proof. reflexivity. Qed.

Ltac break_match :=
  match goal with
  | |- context [match ?x with _ => _ end] => destruct x eqn:?
  end.

Ltac measure_facts :=
  repeat match goal with
  | H : scanstring _ = Some _ |- _ => apply scanstring_length in H
  | H : skip_ws _ = _ :: _ |- _ => apply skip_ws_cons in H
  | H : scan_scalar _ = Parsed _ _ |- _ => apply scan_scalar_length in H
  end.

Ltac skip_fact x :=
  lazymatch goal with
  | _ : length (skip_ws x) <= length x |- _ => fail
  | _ => pose proof (skip_ws_length x)
  end.

Ltac skip_facts :=
  repeat match goal with
  | E : context [skip_ws ?x] |- _ => skip_fact x
  | |- context [skip_ws ?x] => skip_fact x
  end.

(** Every successful parse consumes input. *)
Lemma parse_consumes fuel :
  (forall s v r, scan_once fuel s = Parsed v r -> length r < length s)
  /\ (forall s vs v r, parse_items fuel s vs = Parsed v r -> length r < length s)
  /\ (forall s ps v r, parse_members fuel s ps = Parsed v r -> length r < length s).
Proof.
  induction fuel as [|fuel (IH1 & IH2 & IH3)]; [repeat split; discriminate|].
  repeat split.
  - intros s v r. rewrite scan_once_S.
    repeat break_match; intros H; try discriminate;
      try (injection H as _ <-); try apply IH2 in H; try apply IH3 in H;
      measure_facts; cbn [length] in *; lia.
  - intros s vs v r. rewrite parse_items_S.
    repeat break_match; intros H; try discriminate;
      try (injection H as _ <-); try apply IH2 in H;
      repeat match goal with
      | E : scan_once fuel _ = Parsed _ _ |- _ => apply IH1 in E
      end;
      measure_facts; skip_facts; cbn [length] in *; lia.
  - intros s ps v r. rewrite parse_members_S.
    repeat break_match; intros H; try discriminate;
      try (injection H as _ <-); try apply IH3 in H;
      repeat match goal with
      | E : scan_once fuel _ = Parsed _ _ |- _ => apply IH1 in E
      end;
      measure_facts; skip_facts; cbn [length] in *; lia.
Qed.

Ltac consume_facts fuel :=
  repeat match goal with
  | E : scan_once fuel _ = Parsed _ _ |- _ =>
      apply (proj1 (parse_consumes fuel)) in E
  end.

(** With more fuel than twice the length of the text, no parser gives
    up for lack of fuel. *)
Lemma parse_fuel fuel :
  (forall s, 2 * length s < fuel -> scan_once fuel s <> OutOfFuel)
  /\ (forall s vs, 2 * length s + 1 < fuel -> parse_items fuel s vs <> OutOfFuel)
  /\ (forall s ps, 2 * length s < fuel -> parse_members fuel s ps <> OutOfFuel).
Proof.
  induction fuel as [|fuel (IH1 & IH2 & IH3)]; [repeat split; intros; lia|].
  repeat split.
  - intros s L. rewrite scan_once_S.
    repeat break_match; try discriminate;
      try (unfold scan_scalar in *; repeat break_match; discriminate).
    all: measure_facts.
    + apply IH3. cbn [length] in *. lia.
    + apply IH2. cbn [length] in *. lia.
  - intros s vs L. rewrite parse_items_S.
    repeat break_match; try discriminate.
    + apply IH2. consume_facts fuel. measure_facts. skip_facts.
      cbn [length] in *. lia.
    + match goal with E : scan_once fuel _ = OutOfFuel |- _ =>
        apply IH1 in E; [contradiction | lia] end.
  - intros s ps L. rewrite parse_members_S.
    repeat break_match; try discriminate.
    + apply IH3. consume_facts fuel. measure_facts. skip_facts.
      cbn [length] in *. lia.
    + match goal with E : scan_once fuel _ = OutOfFuel |- _ =>
        apply IH1 in E; [contradiction|] end.
      measure_facts. skip_facts. cbn [length] in *. lia.
Qed.

Lemma scan_once_fuel s : scan_once (json_fuel s) (skip_ws s) <> OutOfFuel.
Proof.
  apply (proj1 (parse_fuel (json_fuel s))). unfold json_fuel.
  pose proof (skip_ws_length s). lia.
Qed.

(** [json_loads] raises only on text that is not one JSON value: the
    fuel of the definition never runs out. *)
Lemma json_loads_raises s e :
  json_loads s = Raises e ->
  scan_once (json_fuel s) (skip_ws s) = SyntaxError
  \/ exists value rest,
       scan_once (json_fuel s) (skip_ws s) = Parsed value rest
       /\ skip_ws rest <> [].
Proof.
  unfold json_loads. pose proof (scan_once_fuel s) as F.
  destruct (scan_once (json_fuel s) (skip_ws s)) as [v r| |];
    [|now left | contradiction].
  destruct (skip_ws r) as [|c r'] eqn:E; [discriminate|].
  intros _. right. exists v, r. split; [reflexivity|]. now rewrite E.
Qed.

(** ** The matching engine: one pair *)

Lemma log_log evs1 evs2 st : log evs2 (log evs1 st) = log (evs1 ++ evs2) st.
Proof. unfold log. cbn. now rewrite <- app_assoc. Qed.

Lemma log_nil st : log [] st = st.
Proof. destruct st. unfold log. cbn. now rewrite app_nil_r. Qed.

Section Pair.

Variable rpc : str -> json -> outcome json.

Lemma query_function_run sc_address func_name st :
  query_function rpc sc_address func_name st
  = (rpc sc_address func_name, log [Query sc_address func_name] st).
Proof. reflexivity. Qed.

(** The first probe of a pair, when it succeeds and when it does not. *)
Lemma first_probe_run sc_address func_name st :
  (response <- query_function rpc sc_address func_name ;;
   lift (return_code_of response)) st
  = (obind (rpc sc_address func_name) return_code_of,
     log [Query sc_address func_name] st).
Proof.
  unfold bind. rewrite query_function_run.
  destruct (rpc sc_address func_name); reflexivity.
Qed.

Lemma probe_ok_code sc_address func_name :
  probe_ok rpc sc_address func_name = true ->
  exists return_code,
    obind (rpc sc_address func_name) return_code_of = Returns return_code
    /\ not_found return_code = false.
Proof.
  unfold probe_ok. destruct (rpc sc_address func_name) as [response|]; [|discriminate].
  cbn [obind]. destruct (return_code_of response) as [code|]; [|discriminate].
  intros H. exists code. split; [reflexivity|]. now apply negb_true_iff.
Qed.

Lemma probe_not_ok sc_address func_name :
  probe_ok rpc sc_address func_name = false ->
  (exists e, obind (rpc sc_address func_name) return_code_of = Raises e)
  \/ (exists return_code,
        obind (rpc sc_address func_name) return_code_of = Returns return_code
        /\ not_found return_code = true).
Proof.
  unfold probe_ok. destruct (rpc sc_address func_name) as [response|e];
    [|left; now exists e].
  cbn [obind]. destruct (return_code_of response) as [code|e];
    [|left; now exists e].
  intros H. right. exists code. split; [reflexivity|]. now apply negb_false_iff.
Qed.

Lemma count_matches_step sc_address random_func more match_count st :
  count_matches rpc sc_address (random_func :: more) match_count st
  = match obind (rpc sc_address random_func) return_code_of with
    | Returns return_code =>
        count_matches rpc sc_address more
          (if not_found return_code then match_count else S match_count)
          (log [Query sc_address random_func] st)
    | Raises e => (Raises e, log [Query sc_address random_func] st)
    end.
Proof.
  cbn [count_matches]. unfold bind at 1. unfold bind at 1.
  rewrite query_function_run.
  destruct (rpc sc_address random_func) as [response|]; [|reflexivity].
  cbn [obind]. unfold lift.
  destruct (return_code_of response); reflexivity.
Qed.

(** The confirmation round counts every probe when all of them
    succeed. *)
Lemma count_matches_all_ok sc_address random_functions :
  forall match_count st,
    forallb (probe_ok rpc sc_address) random_functions = true ->
    count_matches rpc sc_address random_functions match_count st
    = (Returns (match_count + length random_functions),
       log (map (Query sc_address) random_functions) st).
Proof.
  induction random_functions as [|f more IH]; intros n st H.
  - cbn. now rewrite Nat.add_0_r, log_nil.
  - cbn [forallb] in H. apply andb_prop in H as [Hf Hmore].
    rewrite count_matches_step.
    destruct (probe_ok_code _ _ Hf) as (code & -> & Hcode). rewrite Hcode.
    rewrite IH by assumption. rewrite log_log. cbn [length map app].
    f_equal. f_equal. lia.
Qed.

(** It raises or counts fewer when one of them does not; in both
    cases only queries are added to the state. *)
Lemma count_matches_bounded sc_address random_functions :
  forall match_count st,
    exists queries,
      snd (count_matches rpc sc_address random_functions match_count st)
      = log (map (Query sc_address) queries) st
      /\ match fst (count_matches rpc sc_address random_functions match_count st) with
         | Returns n => n <= match_count + length random_functions
         | Raises _ => True
         end.
Proof.
  induction random_functions as [|f more IH]; intros n st.
  - exists []. cbn. rewrite log_nil. split; [reflexivity | lia].
  - rewrite count_matches_step.
    destruct (obind (rpc sc_address f) return_code_of) as [code|e].
    + destruct (IH (if not_found code then n else S n)
                   (log [Query sc_address f] st)) as (qs & E & B).
      exists (f :: qs). rewrite E, log_log. split; [reflexivity|].
      destruct (fst (count_matches rpc sc_address more _ _)); [|exact I].
      cbn [length]. destruct (not_found code); lia.
    + exists [f]. split; [reflexivity | exact I].
Qed.

Lemma count_matches_one_failed sc_address random_functions :
  forall match_count st,
    forallb (probe_ok rpc sc_address) random_functions = false ->
    match fst (count_matches rpc sc_address random_functions match_count st) with
    | Returns n => n < match_count + length random_functions
    | Raises _ => True
    end.
Proof.
  induction random_functions as [|f more IH]; intros n st H; [discriminate|].
  rewrite count_matches_step. cbn [forallb] in H.
  destruct (probe_ok rpc sc_address f) eqn:Hf.
  - destruct (probe_ok_code _ _ Hf) as (code & -> & Hcode). rewrite Hcode.
    cbn [andb] in H. specialize (IH (S n) (log [Query sc_address f] st) H).
    destruct (fst (count_matches rpc sc_address more _ _)); [|exact I].
    cbn [length]. lia.
  - destruct (probe_not_ok _ _ Hf) as [(e & ->)|(code & -> & Hcode)]; [exact I|].
    rewrite Hcode.
    destruct (count_matches_bounded sc_address more n (log [Query sc_address f] st))
      as (qs & _ & B).
    destruct (fst (count_matches rpc sc_address more _ _)); [|exact I].
    cbn [length]. lia.
Qed.

Lemma match_pair_first abi_json function_names func_name dir sc_address st :
  match_pair rpc abi_json function_names func_name dir sc_address st
  = match obind (rpc sc_address func_name) return_code_of with
    | Returns return_code =>
        if not_found return_code
        then (Returns tt, log [Query sc_address func_name] st)
        else confirm_and_record rpc abi_json function_names dir sc_address
               (log [Query sc_address func_name] st)
    | Raises e => (Raises e, log [Query sc_address func_name] st)
    end.
Proof.
  unfold match_pair. unfold bind at 1. unfold bind at 1.
  rewrite query_function_run.
  destruct (rpc sc_address func_name) as [response|]; [|reflexivity].
  cbn [obind]. unfold lift.
  destruct (return_code_of response) as [code|]; [|reflexivity].
  destruct (not_found code); reflexivity.
Qed.

Lemma export_and_record abi_json name dir sc_address st :
  (abi_json_path <- export_abi_json abi_json (JString name) dir ;;
   set_relationship sc_address abi_json_path ;;
   emit (PrintFound sc_address abi_json_path)) st
  = (Returns tt, recorded sc_address (abi_path dir name) abi_json st).
Proof.
  unfold recorded, abi_path, export_abi_json, set_relationship, emit, bind, ret.
  cbn [rng trace relationship_dict]. now rewrite <- app_assoc.
Qed.


Lemma confirm_and_record_rejects abi_json function_names dir sc_address
      random_functions st st' :
  confirmation_functions function_names st = (Returns random_functions, st') ->
  forallb (probe_ok rpc sc_address) random_functions = false ->
  exists queries,
    snd (confirm_and_record rpc abi_json function_names dir sc_address st)
    = log (map (Query sc_address) queries) st'.
Proof.
  intros Hs Hbad. unfold confirm_and_record. unfold bind at 1. rewrite Hs.
  unfold bind at 1.
  pose proof (count_matches_one_failed sc_address random_functions 0 st' Hbad) as B.
  destruct (count_matches_bounded sc_address random_functions 0 st') as (qs & E & _).
  destruct (count_matches rpc sc_address random_functions 0 st') as [[n|e] st2];
    cbn [fst snd] in *; exists qs; [|exact E].
  destruct (Nat.eqb_spec n (length random_functions)); [lia | exact E].
Qed.

End Pair.

(** ** The confirmation sample *)

Lemma list_set_length {A} (x : A) l : forall j, length (list_set j x l) = length l.
Proof.
  induction l as [|y l IH]; intros [|j]; cbn; auto.
Qed.

Lemma list_set_In {A} (x : A) l : forall j y,
  In y (list_set j x l) -> y = x \/ In y l.
Proof.
  induction l as [|z l IH]; intros [|j] y H; cbn in *; try contradiction.
  - destruct H as [<-|H]; auto.
  - destruct H as [<-|H]; auto. apply IH in H as [->|H]; auto.
Qed.

Lemma removelast_In {A} (y : A) l : In y (removelast l) -> In y l.
Proof.
  induction l as [|z l IH]; [contradiction|]. cbn [removelast].
  destruct l as [|z' l]; [contradiction|].
  intros [<-|H]; [now left | right; now apply IH].
Qed.

Lemma removelast_len {A} (l : list A) : length (removelast l) = length l - 1.
Proof.
  induction l as [|z l IH]; [reflexivity|]. cbn [removelast].
  destruct l as [|z' l]; [reflexivity|]. cbn [length] in *. lia.
Qed.

Lemma last_In {A} (d : A) l : l <> [] -> In (last l d) l.
Proof.
  induction l as [|z l IH]; [contradiction|]. intros _. cbn [last].
  destruct l as [|z' l]; [now left|]. right. now apply IH.
Qed.

Lemma randbelow_spec n st :
  0 < n ->
  exists j st', randbelow n st = (Returns j, st') /\ j < n /\ same_but_rng st st'.
Proof.
  intros Hn. unfold randbelow. destruct (rng st) as [|r draws].
  - exists 0, st. repeat split; lia.
  - eexists _, _. split; [reflexivity|]. split; [|now split].
    apply Nat.mod_upper_bound. lia.
Qed.

Lemma sample_loop_spec {A} k : forall (pool : list A) st,
  k <= length pool ->
  exists result st',
    sample_loop k pool st = (Returns result, st')
    /\ length result = k /\ incl result pool /\ same_but_rng st st'.
Proof.
  induction k as [|k IH]; intros pool st Hk.
  - exists [], st. repeat split. intros x [].
  - cbn [sample_loop]. unfold bind at 1.
    destruct (randbelow_spec (length pool) st) as (j & st1 & -> & Hj & Ht & Hr);
      [lia|].
    destruct (nth_error pool j) as [x|] eqn:Ex;
      [|apply nth_error_None in Ex; lia].
    assert (Hne : pool <> []) by (destruct pool; [cbn in Hk; lia | discriminate]).
    destruct (IH (removelast (list_set j (last pool x) pool)) st1)
      as (result & st2 & E & Hl & Hi & Ht2 & Hr2).
    { rewrite removelast_len, list_set_length. lia. }
    unfold bind, ret. rewrite E.
    exists (x :: result), st2. split; [reflexivity|].
    split; [cbn; lia|]. split; [|split; congruence].
    intros y [<-|Hy]; [now apply nth_error_In in Ex|].
    apply Hi, removelast_In, list_set_In in Hy as [->|Hy]; [|exact Hy].
    now apply last_In.
Qed.

Lemma confirmation_functions_few function_names st :
  length function_names <= 4 ->
  confirmation_functions function_names st = (Returns (tl function_names), st).
Proof.
  intros H. unfold confirmation_functions, NUMBER_OF_MATCHES.
  destruct (Nat.ltb_spec (5 - 1) (length function_names)); [lia | reflexivity].
Qed.

Lemma confirmation_functions_many function_names st :
  6 <= length function_names ->
  exists random_functions st',
    confirmation_functions function_names st = (Returns random_functions, st')
    /\ length random_functions = 5
    /\ incl random_functions (tl function_names)
    /\ same_but_rng st st'.
Proof.
  intros H. unfold confirmation_functions, NUMBER_OF_MATCHES, random_sample.
  destruct (Nat.ltb_spec (5 - 1) (length function_names)); [|lia].
  assert (L : 5 <= length (tl function_names))
    by (destruct function_names; cbn in *; lia).
  destruct (Nat.ltb_spec (length (tl function_names)) 5); [lia|].
  now apply sample_loop_spec.
Qed.

Lemma confirmation_functions_five function_names st :
  length function_names = 5 ->
  confirmation_functions function_names st = (Raises ValueError, st).
Proof.
  intros L.
  destruct function_names as [|n1 [|n2 [|n3 [|n4 [|n5 [|n6 l]]]]]];
    try discriminate L.
  reflexivity.
Qed.

(** C2.  Code defect: the guard of the sample compares the number of
    all the endpoint names with [NUMBER_OF_MATCHES - 1], not the number
    of the remaining ones with [NUMBER_OF_MATCHES].  For a descriptor
    with exactly five endpoint names the four remaining names are not
    used as the confirmation round: [random.sample] is asked for five
    names out of four and raises [ValueError]. *)
Theorem confirmation_functions_five_raises :
  forall (n1 n2 n3 n4 n5 : json) (st : state),
    confirmation_functions [n1; n2; n3; n4; n5] st = (Raises ValueError, st).
Proof. reflexivity. Qed.

(** ** Decisions on one pair *)

Section Decision.

Variable rpc : str -> json -> outcome json.

(** A first probe answered with a rejection code ends the pair: one
    query, nothing else. *)
Lemma match_pair_first_rejected abi_json function_names func_name dir
      sc_address return_code st :
  obind (rpc sc_address func_name) return_code_of = Returns return_code ->
  not_found return_code = true ->
  match_pair rpc abi_json function_names func_name dir sc_address st
  = (Returns tt, log [Query sc_address func_name] st).
Proof. intros H1 H2. now rewrite match_pair_first, H1, H2. Qed.


(** ... and only then: when one probe of the round fails, the pair
    leaves nothing but queries. *)
Lemma match_pair_rejects abi_json function_names func_name dir sc_address
      random_functions st st' :
  confirmation_functions function_names (log [Query sc_address func_name] st)
  = (Returns random_functions, st') ->
  forallb (probe_ok rpc sc_address) random_functions = false ->
  exists queries,
    snd (match_pair rpc abi_json function_names func_name dir sc_address st)
    = log (map (Query sc_address) queries) st'
    \/ snd (match_pair rpc abi_json function_names func_name dir sc_address st)
       = log [Query sc_address func_name] st.
Proof.
  intros Hs Hbad. rewrite match_pair_first.
  destruct (obind (rpc sc_address func_name) return_code_of) as [code|e];
    [|exists []; now right].
  destruct (not_found code); [exists []; now right|].
  destruct (confirm_and_record_rejects rpc abi_json function_names dir
              sc_address random_functions _ _ Hs Hbad) as (qs & E).
  exists qs. now left.
Qed.

Lemma match_pair_rejects_dict abi_json function_names func_name dir sc_address
      random_functions st st' :
  confirmation_functions function_names (log [Query sc_address func_name] st)
  = (Returns random_functions, st') ->
  relationship_dict st' = relationship_dict st ->
  forallb (probe_ok rpc sc_address) random_functions = false ->
  relationship_dict
    (snd (match_pair rpc abi_json function_names func_name dir sc_address st))
  = relationship_dict st.
Proof.
  intros Hs Hr Hbad.
  destruct (match_pair_rejects abi_json function_names func_name dir
              sc_address random_functions st st' Hs Hbad) as (qs & [-> | ->]);
    [exact Hr | reflexivity].
Qed.

(** With exactly five endpoint names a successful first probe is
    followed by the [ValueError] of the sample. *)
Lemma match_pair_five abi_json function_names func_name dir sc_address st :
  length function_names = 5 ->
  probe_ok rpc sc_address func_name = true ->
  match_pair rpc abi_json function_names func_name dir sc_address st
  = (Raises ValueError, log [Query sc_address func_name] st).
Proof.
  intros L H0. rewrite match_pair_first.
  destruct (probe_ok_code rpc _ _ H0) as (code & -> & ->).
  unfold confirm_and_record. unfold bind at 1.
  now rewrite confirmation_functions_five.
Qed.

End Decision.

(** ** Dictionaries *)

Lemma str_eqb_eq a : forall b, str_eqb a b = true <-> a = b.
Proof.
  induction a as [|x a IH]; intros [|y b]; cbn; split; try congruence.
  - intros H. apply andb_prop in H as [H1 H2].
    apply Ascii.eqb_eq in H1. apply IH in H2. congruence.
  - intros H. injection H as -> ->. rewrite Ascii.eqb_refl. now apply IH.
Qed.

Lemma str_eqb_refl a : str_eqb a a = true.
Proof. now apply str_eqb_eq. Qed.

Lemma str_eqb_neq a b : a <> b -> str_eqb a b = false.
Proof.
  intros H. destruct (str_eqb a b) eqn:E; [|reflexivity].
  apply str_eqb_eq in E. contradiction.
Qed.

Lemma dict_set_keys {V} k (v : V) d :
  keys (dict_set k v d) = if existsb (str_eqb k) (keys d) then keys d else keys d ++ [k].
Proof.
  induction d as [|[k' v'] d IH]; [reflexivity|]. cbn [dict_set keys map fst existsb].
  destruct (str_eqb k' k) eqn:E.
  - apply str_eqb_eq in E. subst k'. now rewrite str_eqb_refl.
  - assert (E' : str_eqb k k' = false).
    { apply str_eqb_neq. intros ->. now rewrite str_eqb_refl in E. }
    rewrite E'. cbn [orb map fst]. fold (keys (dict_set k v d)). rewrite IH.
    fold (keys d). now destruct (existsb (str_eqb k) (keys d)).
Qed.

Lemma dict_set_keys_incl {V} k (v : V) d : incl (keys d) (keys (dict_set k v d)).
Proof.
  rewrite dict_set_keys. destruct (existsb (str_eqb k) (keys d)).
  - apply incl_refl.
  - now apply incl_appl, incl_refl.
Qed.

Lemma dict_set_nodup {V} k (v : V) d :
  NoDup (keys d) -> NoDup (keys (dict_set k v d)).
Proof.
  intros H. rewrite dict_set_keys.
  destruct (existsb (str_eqb k) (keys d)) eqn:E; [exact H|].
  apply NoDup_app; [exact H | repeat constructor; intros [] |].
  intros x Hx [E'|[]]. subst x.
  assert (existsb (str_eqb k) (keys d) = true); [|congruence].
  apply existsb_exists. exists k. split; [exact Hx | apply str_eqb_refl].
Qed.

Lemma dict_get_set_same {V} k (v : V) d : dict_get k (dict_set k v d) = Some v.
Proof.
  induction d as [|[k' v'] d IH]; cbn; [now rewrite str_eqb_refl|].
  destruct (str_eqb k' k) eqn:E; cbn; now rewrite E.
Qed.

Lemma dict_get_set_other {V} k k' (v : V) d :
  k' <> k -> dict_get k (dict_set k' v d) = dict_get k d.
Proof.
  intros Hne. induction d as [|[k2 v2] d IH]; cbn.
  - now rewrite (str_eqb_neq _ _ Hne).
  - destruct (str_eqb k2 k') eqn:E; cbn; [|now rewrite IH].
    apply str_eqb_eq in E. subst k2. now rewrite (str_eqb_neq _ _ Hne).
Qed.

Lemma dict_of_trace_snoc evs e :
  dict_of_trace (evs ++ [e]) = record_event (dict_of_trace evs) e.
Proof. unfold dict_of_trace. now rewrite fold_left_app. Qed.

Lemma dict_of_trace_nodup evs : NoDup (keys (dict_of_trace evs)).
Proof.
  induction evs as [|e evs IH] using rev_ind; [constructor|].
  rewrite dict_of_trace_snoc. destruct e; cbn [record_event]; auto.
  now apply dict_set_nodup.
Qed.

(** Last writer wins. *)
Lemma dict_of_trace_last_found sc_address evs :
  dict_get sc_address (dict_of_trace evs) = last_found sc_address evs.
Proof.
  induction evs as [|e evs IH] using rev_ind; [reflexivity|].
  rewrite dict_of_trace_snoc. unfold last_found. rewrite fold_left_app.
  fold (last_found sc_address evs). cbn [fold_left].
  destruct e; cbn [record_event]; try exact IH.
  destruct (str_eqb sc_address0 sc_address) eqn:E.
  - apply str_eqb_eq in E. subst. apply dict_get_set_same.
  - rewrite dict_get_set_other; [exact IH|].
    intros ->. now rewrite str_eqb_refl in E.
Qed.

(** ** What every step of a run preserves *)

Section Invariant.

Variable rpc : str -> json -> outcome json.

(** [P] holds on with new draws, with a quiet event, and with a match
    recorded and announced. *)
Variable P : state -> Prop.
Hypothesis P_rng : forall st draws,
    P st -> P (mkState draws (trace st) (relationship_dict st)).
Hypothesis P_quiet : forall st e, quiet e = true -> P st -> P (log [e] st).
Hypothesis P_record : forall st sc_address abi_json_path,
    P st ->
    P (mkState (rng st) (trace st ++ [PrintFound sc_address abi_json_path])
         (dict_set sc_address abi_json_path (relationship_dict st))).

Lemma preserves_ret {A} (a : A) : preserved P (ret a).
Proof. intros st H. exact H. Qed.

Lemma preserves_raise {A} e : preserved P (@raise A e).
Proof. intros st H. exact H. Qed.

Lemma preserves_lift {A} (o : outcome A) : preserved P (lift o).
Proof. intros st H. exact H. Qed.

Lemma preserves_bind {A B} (m : M A) (k : A -> M B) :
  preserved P m -> (forall a, preserved P (k a)) -> preserved P (bind m k).
Proof.
  intros Hm Hk st H. unfold bind. specialize (Hm st H).
  destruct (m st) as [[a|e] st']; cbn [snd] in *; [now apply Hk | exact Hm].
Qed.

Lemma preserves_for_each {A} (body : A -> M unit) l :
  (forall x, preserved P (body x)) -> preserved P (for_each l body).
Proof.
  intros Hb. induction l as [|x l IH]; [apply preserves_ret|].
  cbn [for_each]. apply preserves_bind; auto.
Qed.

Lemma preserves_try_pass m : preserved P m -> preserved P (try_pass m).
Proof. intros Hm st H. apply (Hm st H). Qed.

Lemma preserves_quiet e : quiet e = true -> preserved P (emit e).
Proof. intros He st H. now apply P_quiet. Qed.

Lemma preserves_randbelow n : preserved P (randbelow n).
Proof.
  intros st H. unfold randbelow. destruct (rng st) as [|r draws] eqn:E;
    [exact H | now apply P_rng].
Qed.

Lemma preserves_sample_loop {A} k : forall pool : list A,
  preserved P (sample_loop k pool).
Proof.
  induction k as [|k IH]; intros pool; [apply preserves_ret|].
  cbn [sample_loop]. apply preserves_bind; [apply preserves_randbelow|].
  intros j. destruct (nth_error pool j); [|apply preserves_raise].
  apply preserves_bind; [apply IH | intros; apply preserves_ret].
Qed.

Lemma preserves_confirmation_functions function_names :
  preserved P (confirmation_functions function_names).
Proof.
  unfold confirmation_functions, random_sample.
  destruct (_ <? _)%nat; [|apply preserves_ret].
  destruct (_ <? _)%nat; [apply preserves_raise | apply preserves_sample_loop].
Qed.

Lemma preserves_query sc_address func_name :
  preserved P (query_function rpc sc_address func_name).
Proof.
  unfold query_function. apply preserves_bind;
    [now apply preserves_quiet | intros; apply preserves_lift].
Qed.

Lemma preserves_count_matches sc_address random_functions :
  forall match_count,
    preserved P (count_matches rpc sc_address random_functions match_count).
Proof.
  induction random_functions as [|f more IH]; intros n; [apply preserves_ret|].
  cbn [count_matches]. apply preserves_bind; [apply preserves_query|].
  intros response. apply preserves_bind; [apply preserves_lift|].
  intros code. apply IH.
Qed.

Lemma preserves_record sc_address abi_json_path :
  preserved P (set_relationship sc_address abi_json_path ;;
             emit (PrintFound sc_address abi_json_path)).
Proof. intros st H. now apply (P_record st sc_address abi_json_path). Qed.

Lemma preserves_match_pair abi_json function_names func_name dir sc_address :
  preserved P (match_pair rpc abi_json function_names func_name dir sc_address).
Proof.
  unfold match_pair. apply preserves_bind; [apply preserves_query|].
  intros response. apply preserves_bind; [apply preserves_lift|].
  intros code. destruct (not_found code); [apply preserves_ret|].
  apply preserves_bind; [apply preserves_confirmation_functions|].
  intros fs. apply preserves_bind; [apply preserves_count_matches|].
  intros n. destruct (n =? length fs)%nat; [|apply preserves_ret].
  apply preserves_bind; [apply preserves_lift|].
  intros name_field. apply preserves_bind; [|intros; apply preserves_record].
  unfold export_abi_json. destruct name_field; try apply preserves_raise.
  apply preserves_bind; [now apply preserves_quiet | intros; apply preserves_ret].
Qed.

Lemma preserves_process_abi sc_addresses dir abi_json_str :
  preserved P (process_abi rpc sc_addresses dir abi_json_str).
Proof.
  unfold process_abi. apply preserves_bind; [apply preserves_lift|].
  intros abi_json. apply preserves_bind; [apply preserves_lift|].
  intros names. apply preserves_bind; [apply preserves_lift|].
  intros f. apply preserves_for_each. intros a. apply preserves_match_pair.
Qed.

Lemma preserves_run_batch sc_addresses dir abi_jsons st :
  P st -> P (run_batch rpc sc_addresses dir abi_jsons st).
Proof.
  unfold run_batch. apply preserves_for_each.
  intros a. apply preserves_try_pass, preserves_process_abi.
Qed.

End Invariant.

(** ** A whole run *)

Section Run.

Variable rpc : str -> json -> outcome json.

Lemma run_batch_cons sc_addresses dir abi_json_str abi_jsons st :
  run_batch rpc sc_addresses dir (abi_json_str :: abi_jsons) st
  = run_batch rpc sc_addresses dir abi_jsons
      (snd (process_abi rpc sc_addresses dir abi_json_str st)).
Proof. reflexivity. Qed.

Lemma run_batch_app sc_addresses dir l1 : forall l2 st,
  run_batch rpc sc_addresses dir (l1 ++ l2) st
  = run_batch rpc sc_addresses dir l2 (run_batch rpc sc_addresses dir l1 st).
Proof.
  induction l1 as [|a l1 IH]; intros l2 st; [reflexivity|].
  cbn [app]. rewrite !run_batch_cons. apply IH.
Qed.

Lemma for_each_try_pass_returns {A} (body : A -> M unit) l : forall st,
  fst (for_each l (fun x => try_pass (body x)) st) = Returns tt.
Proof.
  induction l as [|x l IH]; intros st; [reflexivity|].
  cbn [for_each]. unfold bind, try_pass at 1. apply IH.
Qed.

(** The run: an empty dictionary, the directory, the loop, and then
    the dictionary written and announced. *)
Lemma find_matching_contracts_run abi_jsons sc_addresses domain st :
  let dir := os_path_join (lit "exports") domain in
  let finished :=
    run_batch rpc sc_addresses dir abi_jsons
      (log [MakeDirs dir] (mkState (rng st) (trace st) [])) in
  find_matching_contracts rpc abi_jsons sc_addresses domain st
  = (Returns tt,
     log [WriteFile (os_path_join dir (lit "relationship.json"))
            (RelationshipJson (relationship_dict finished));
          PrintRelationship (os_path_join dir (lit "relationship.json"))]
       finished).
Proof.
  intros dir finished.
  pose proof (for_each_try_pass_returns
                (process_abi rpc sc_addresses dir) abi_jsons
                (log [MakeDirs dir] (mkState (rng st) (trace st) []))) as R.
  assert (Ef : finished
               = snd (for_each abi_jsons
                        (fun x => try_pass (process_abi rpc sc_addresses dir x))
                        (log [MakeDirs dir] (mkState (rng st) (trace st) []))))
    by reflexivity.
  unfold find_matching_contracts, new_relationship_dict,
    create_export_directories, get_relationship_dict,
    export_relationship_dict, bind, emit, ret.
  cbn [rng trace relationship_dict]. fold dir.
  change (mkState (rng st) (trace st ++ [MakeDirs dir]) [])
    with (log [MakeDirs dir] (mkState (rng st) (trace st) [])).
  destruct (for_each abi_jsons _ _) as [r st3].
  cbn [fst snd] in R, Ef. subst r st3.
  unfold log. cbn [rng trace relationship_dict]. now rewrite <- app_assoc.
Qed.

End Run.

(** ** The claims on the matching engine *)

(** C1.  Code defect, the one of C2.  The decision on a pair is as the
    claim says whenever the confirmation round is drawn
    ([match_pair_first_rejected], [match_pair_accepts],
    [match_pair_rejects]); but for a descriptor with exactly five
    endpoint names no round is drawn: also when every endpoint of the
    descriptor answers without a rejection code, the pair raises
    [ValueError] after its first probe and is not recorded. *)
Theorem five_endpoints_never_accepted
  (rpc : str -> json -> outcome json) (abi_json : json)
  (function_names : list json) (func_name : json) (dir sc_address : str)
  (st : state) :
  length function_names = 5 ->
  hd_error function_names = Some func_name ->
  forallb (probe_ok rpc sc_address) function_names = true ->
  match_pair rpc abi_json function_names func_name dir sc_address st
  = (Raises ValueError,
     mkState (rng st) (trace st ++ [Query sc_address func_name])
             (relationship_dict st)).
Proof.
  intros L Hhd Hok. apply match_pair_five; [exact L|].
  destruct function_names as [|f l]; [discriminate|].
  injection Hhd as <-. cbn [forallb] in Hok. now apply andb_prop in Hok as [H _].
Qed.

Lemma five_endpoints_never_accepted_witness :
  match_pair rpc_all_ok JNull five_names (JString (lit "f1"))
    (lit "exports/x") address_a empty_state
  = (Raises ValueError,
     mkState [] [Query address_a (JString (lit "f1"))] []).
Proof.
  exact (five_endpoints_never_accepted rpc_all_ok JNull five_names
           (JString (lit "f1")) (lit "exports/x") address_a empty_state
           eq_refl eq_refl eq_refl).
Defined.

(** The same defect seen from a whole run: the descriptor with five
    endpoints is lost on a network that answers [ok] to everything,
    the descriptors with one and with two endpoints are recorded. *)
Example five_endpoints_run :
  relationship_dict
    (snd (find_matching_contracts rpc_all_ok [five_abi] [address_a] (lit "x")
            empty_state)) = []
  /\ relationship_dict
       (snd (find_matching_contracts rpc_all_ok [two_abi] [address_a] (lit "x")
               empty_state)) = [(address_a, lit "exports/x/Two.json")]
  /\ relationship_dict
       (snd (find_matching_contracts rpc_all_ok [one_abi] [address_a] (lit "x")
               empty_state)) = [(address_a, lit "exports/x/One.json")].
Proof. repeat split; vm_compute; reflexivity. Qed.

(** Changing one probe of a drawn round into a failure turns an
    accepted pair into one that leaves the dictionary as it was. *)
Lemma match_pair_flip (rpc' : str -> json -> outcome json) abi_json
      function_names func_name dir sc_address random_functions f st st' :
  confirmation_functions function_names (log [Query sc_address func_name] st)
  = (Returns random_functions, st') ->
  relationship_dict st' = relationship_dict st ->
  In f random_functions ->
  probe_ok rpc' sc_address f = false ->
  relationship_dict
    (snd (match_pair rpc' abi_json function_names func_name dir sc_address st))
  = relationship_dict st.
Proof.
  intros Hs Hr Hin Hf. eapply match_pair_rejects_dict; [exact Hs | exact Hr |].
  destruct (forallb (probe_ok rpc' sc_address) random_functions) eqn:E;
    [|reflexivity].
  rewrite forallb_forall in E. specialize (E f Hin). congruence.
Qed.



(** C8.  When the body of the [try] raises for one descriptor, whatever
    the exception and wherever it was raised, the run goes on with the
    descriptors after it, from the state the failed one left; it ends
    by writing the dictionary, which still has every address recorded
    before and during the failed descriptor. *)
Theorem exception_skips_one_descriptor
  (rpc : str -> json -> outcome json) (before after : list str)
  (failing : str) (sc_addresses : list str) (domain : str)
  (st st_failed : state) (e : exn) :
  let dir := os_path_join (lit "exports") domain in
  let started := log [MakeDirs dir] (mkState (rng st) (trace st) []) in
  let st_before := run_batch rpc sc_addresses dir before started in
  let finished := run_batch rpc sc_addresses dir after st_failed in
  process_abi rpc sc_addresses dir failing st_before = (Raises e, st_failed) ->
  find_matching_contracts rpc (before ++ failing :: after) sc_addresses domain st
  = (Returns tt,
     log [WriteFile (os_path_join dir (lit "relationship.json"))
            (RelationshipJson (relationship_dict finished));
          PrintRelationship (os_path_join dir (lit "relationship.json"))]
       finished)
  /\ incl (keys (relationship_dict st_before)) (keys (relationship_dict st_failed))
  /\ incl (keys (relationship_dict st_failed)) (keys (relationship_dict finished)).
Proof.
  intros dir started st_before finished Hfail.
  assert (Hgrow : forall K st1 l,
             incl K (keys (relationship_dict st1)) ->
             incl K (keys (relationship_dict (run_batch rpc sc_addresses dir l st1)))).
  { intros K st1 l H0.
    apply (preserves_run_batch rpc
             (fun s => incl K (keys (relationship_dict s)))); [| | |exact H0].
    - intros s draws H. exact H.
    - intros s ev _ H. exact H.
    - intros s a p H. cbn [relationship_dict].
      eapply incl_tran; [exact H | apply dict_set_keys_incl]. }
  split; [|split].
  - rewrite find_matching_contracts_run. fold dir. fold started.
    rewrite run_batch_app, run_batch_cons. fold st_before.
    rewrite Hfail. reflexivity.
  - assert (E : st_failed = snd (process_abi rpc sc_addresses dir failing st_before))
      by now rewrite Hfail.
    rewrite E.
    apply (preserves_process_abi rpc
             (fun s => incl (keys (relationship_dict st_before))
                         (keys (relationship_dict s)))).
    + intros s draws H. exact H.
    + intros s ev _ H. exact H.
    + intros s a p H. cbn [relationship_dict].
      eapply incl_tran; [exact H | apply dict_set_keys_incl].
    + apply incl_refl.
  - apply Hgrow, incl_refl.
Qed.

Lemma exception_skips_one_descriptor_witness :
  find_matching_contracts rpc_example [one_abi; five_abi; two_abi]
    [address_a; address_b] (lit "x") empty_state
  = (Returns tt,
     mkState []
       [MakeDirs (lit "exports/x");
        Query address_a (JString (lit "only"));
        WriteFile (lit "exports/x/One.json")
          (AbiJson (JObject [(lit "name", JString (lit "One"));
                             (lit "endpoints",
                              JArray [JObject [(lit "name", JString (lit "only"))]])]));
        PrintFound address_a (lit "exports/x/One.json");
        Query address_b (JString (lit "only"));
        Query address_a (JString (lit "f1"));
        Query address_b (JString (lit "f1"));
        Query address_a (JString (lit "f1"));
        Query address_b (JString (lit "f1"));
        Query address_b (JString (lit "f2"));
        WriteFile (lit "exports/x/Two.json")
          (AbiJson (JObject [(lit "name", JString (lit "Two"));
                             (lit "endpoints",
                              JArray [JObject [(lit "name", JString (lit "f1"))];
                                      JObject [(lit "name", JString (lit "f2"))]])]));
        PrintFound address_b (lit "exports/x/Two.json");
        WriteFile (lit "exports/x/relationship.json")
          (RelationshipJson [(address_a, lit "exports/x/One.json");
                             (address_b, lit "exports/x/Two.json")]);
        PrintRelationship (lit "exports/x/relationship.json")]
       [(address_a, lit "exports/x/One.json");
        (address_b, lit "exports/x/Two.json")]).
Proof.
  exact (proj1 (exception_skips_one_descriptor rpc_example [one_abi] [two_abi]
                  five_abi [address_a; address_b] (lit "x") empty_state
                  (mkState []
                     [MakeDirs (lit "exports/x");
                      Query address_a (JString (lit "only"));
                      WriteFile (lit "exports/x/One.json")
                        (AbiJson (JObject [(lit "name", JString (lit "One"));
                                           (lit "endpoints",
                                            JArray [JObject [(lit "name", JString (lit "only"))]])]));
                      PrintFound address_a (lit "exports/x/One.json");
                      Query address_b (JString (lit "only"));
                      Query address_a (JString (lit "f1"));
                      Query address_b (JString (lit "f1"))]
                     [(address_a, lit "exports/x/One.json")])
                  ValueError eq_refl)).
Defined.

(** The exceptions of the claim, each raised by the body of the [try]:
    a text that does not parse, a descriptor without endpoints, and a
    probe that fails, after which the second address is not probed; a
    run over such a descriptor goes on to the next one. *)
Example process_abi_exceptions :
  fst (process_abi rpc_example [address_a; address_b] (lit "exports/x")
         (lit "{name") empty_state) = Raises JSONDecodeError
  /\ fst (process_abi rpc_example [address_a; address_b] (lit "exports/x")
            (lit "{`name`:`N`}") empty_state) = Raises KeyError
  /\ process_abi rpc_flaky [address_a; address_b] (lit "exports/x") two_abi
       empty_state
     = (Raises RequestError,
        mkState [] [Query address_a (JString (lit "f1"))] [])
  /\ relationship_dict
       (snd (find_matching_contracts rpc_flaky [two_abi; one_abi]
               [address_a; address_b] (lit "x") empty_state))
     = [(address_a, lit "exports/x/One.json")].
Proof. repeat split; vm_compute; reflexivity. Qed.

(** ** The relationship dictionary of a run *)

Lemma tells_since_batch rpc sc_addresses dir abi_jsons base st :
  tells_since base st ->
  tells_since base (run_batch rpc sc_addresses dir abi_jsons st).
Proof.
  apply preserves_run_batch.
  - intros s draws (evs & Ht & Hd & Hw). now exists evs.
  - intros s e Hq (evs & Ht & Hd & Hw). exists (evs ++ [e]).
    unfold log. cbn [trace relationship_dict].
    rewrite Ht, <- app_assoc, dict_of_trace_snoc, forallb_app, Hw.
    destruct e as [| | p [|] | |]; try discriminate Hq; now repeat split.
  - intros s a p (evs & Ht & Hd & Hw). exists (evs ++ [PrintFound a p]).
    cbn [trace relationship_dict].
    rewrite Ht, <- app_assoc, dict_of_trace_snoc, forallb_app, Hw, Hd.
    now repeat split.
Qed.

(** C9.  In every run, whatever the state it starts in, the
    relationship dictionary starts empty; at the end it is the
    dictionary told by the matches announced during the run, in their
    order, so that it is changed by recording accepted matches only
    and a later match for an address replaces the earlier one; it has
    each address once, as it had after every earlier match; and the
    relationship file is written once, after the loop, with that
    dictionary. *)
Theorem relationship_dict_lifecycle
  (rpc : str -> json -> outcome json) (abi_jsons sc_addresses : list str)
  (domain : str) (st : state) :
  let dir := os_path_join (lit "exports") domain in
  let relationship_file_path := os_path_join dir (lit "relationship.json") in
  exists evs final,
    find_matching_contracts rpc abi_jsons sc_addresses domain st
    = (Returns tt, final)
    /\ trace final
       = trace st ++ [MakeDirs dir] ++ evs
         ++ [WriteFile relationship_file_path
               (RelationshipJson (relationship_dict final));
             PrintRelationship relationship_file_path]
    /\ forallb (fun e => negb (is_relationship_write e)) evs = true
    /\ dict_of_trace [] = []
    /\ relationship_dict final = dict_of_trace evs
    /\ (forall evs1 evs2,
          evs = evs1 ++ evs2 -> NoDup (keys (dict_of_trace evs1)))
    /\ NoDup (keys (relationship_dict final))
    /\ (forall sc_address,
          dict_get sc_address (relationship_dict final)
          = last_found sc_address evs).
Proof.
  intros dir relationship_file_path.
  pose proof (find_matching_contracts_run rpc abi_jsons sc_addresses domain st)
    as Hrun. cbv zeta in Hrun. fold dir in Hrun. fold relationship_file_path in Hrun.
  pose proof (tells_since_batch rpc sc_addresses dir abi_jsons
                (trace st ++ [MakeDirs dir])
                (log [MakeDirs dir] (mkState (rng st) (trace st) []))) as H.
  remember (run_batch rpc sc_addresses dir abi_jsons
              (log [MakeDirs dir] (mkState (rng st) (trace st) []))) as finished.
  destruct H as (evs & Ht & Hd & Hw).
  { exists []. unfold log. cbn [trace relationship_dict].
    now rewrite app_nil_r. }
  exists evs. eexists. split; [exact Hrun|].
  unfold log. cbn [trace relationship_dict]. rewrite Ht, Hd. repeat split.
  - now rewrite <- !app_assoc.
  - exact Hw.
  - intros evs1 evs2 _. apply dict_of_trace_nodup.
  - apply dict_of_trace_nodup.
  - intros a. apply dict_of_trace_last_found.
Qed.

(** ** The claim on the brace scanner *)

(** An occurrence whose braces never close makes the whole extraction
    raise, whatever the other occurrences are. *)
Lemma unclosed_occurrence_raises js_code occurrences : forall abi_jsons occurrence,
  In occurrence occurrences ->
  extract_matching_braces_content js_code (fst occurrence) = None ->
  repair_occurrences js_code occurrences abi_jsons = Raises TypeError.
Proof.
  induction occurrences as [|o more IH]; intros acc occ Hin Hnone; [contradiction|].
  cbn [repair_occurrences].
  destruct (extract_matching_braces_content js_code (fst o)) as [blob|] eqn:E.
  - cbn [repair_json_value]. destruct Hin as [->|Hin]; [congruence|].
    now apply (IH _ occ).
  - reflexivity.
Qed.

(** C3.  Code defect: [extract_matching_braces_content] returns [None]
    for an offset whose braces never close, and [process_js_url] hands
    that value to [repair_json], which raises [TypeError]; nothing
    catches it.  In this bundle the braces of the first object close
    and those of the second never do: no blob at all is produced,
    although the first one alone is extracted and repaired. *)
Theorem unclosed_blob_aborts_extraction :
  find_buildinfo_and_nearest_opening_brace unbalanced_bundle = [(2, 3); (31, 32)]
  /\ extract_matching_braces_content unbalanced_bundle 2
     = Some (lit "{buildInfo:{v:1},name:'A'}")
  /\ extract_matching_braces_content unbalanced_bundle 31 = None
  /\ extract_abi_jsons unbalanced_bundle = Raises TypeError
  /\ extract_abi_jsons (lit "a={buildInfo:{v:1},name:'A'};")
     = Returns [lit "{`buildInfo`:{`v`:1},`name`:`A`}"].
Proof. repeat split; vm_compute; reflexivity. Qed.

(* ================================================================== *)
(** * More properties: the brace scanner *)

Lemma balance_app a b : balance (a ++ b) = (balance a + balance b)%Z.
Proof. induction a as [|c a IH]; cbn [app balance]; lia. Qed.

Lemma balance_close s : balance ("}" :: s) = (balance s - 1)%Z.
Proof. cbn [balance]. change (("}" =? "{")%char) with false.
  change (("}" =? "}")%char) with true. cbv iota. lia. Qed.

(** What a successful scan has read: a text that ends with the closing
    brace at which the count is zero for the first time. *)
Lemma braces_loop_some chars : forall count acc content,
  braces_loop chars count acc = Some content ->
  exists body rest,
    chars = body ++ "}" :: rest
    /\ content = acc ++ body ++ ["}"]
    /\ (count + balance (body ++ ["}"]) = 0)%Z
    /\ forall p q, body = p ++ "}" :: q ->
                   (count + balance (p ++ ["}"]) <> 0)%Z.
Proof.
  induction chars as [|c chars IH]; intros count acc content H; [discriminate|].
  cbn [braces_loop] in H.
  destruct (Ascii.eqb c "{") eqn:Eo.
  - apply IH in H as (body & rest & E1 & E2 & E3 & E4).
    exists (c :: body), rest. subst chars. repeat split.
    + rewrite E2, <- app_assoc. reflexivity.
    + cbn [app balance]. rewrite Eo. lia.
    + intros p q Ep. destruct p as [|x p].
      * cbn in Ep. injection Ep as -> _. discriminate Eo.
      * cbn [app] in Ep. injection Ep as <- Ep.
        specialize (E4 p q Ep). cbn [app balance]. rewrite Eo. lia.
  - destruct (Ascii.eqb c "}") eqn:Ec.
    + apply Ascii.eqb_eq in Ec. subst c.
      destruct (Z.eqb_spec (count - 1) 0) as [Hz|Hz].
      * injection H as <-. exists [], chars. repeat split.
        -- cbn. lia.
        -- intros [|x p] q Ep; discriminate Ep.
      * apply IH in H as (body & rest & E1 & E2 & E3 & E4).
        exists ("}" :: body), rest. subst chars. repeat split.
        -- rewrite E2, <- app_assoc. reflexivity.
        -- cbn [app]. rewrite balance_close. lia.
        -- intros p q Ep. destruct p as [|x p].
           ++ cbn. lia.
           ++ cbn [app] in Ep. injection Ep as <- Ep.
              specialize (E4 p q Ep). cbn [app]. rewrite balance_close. lia.
    + apply IH in H as (body & rest & E1 & E2 & E3 & E4).
      exists (c :: body), rest. subst chars. repeat split.
      * rewrite E2, <- app_assoc. reflexivity.
      * cbn [app balance]. rewrite Eo, Ec. lia.
      * intros p q Ep. destruct p as [|x p].
        -- cbn in Ep. injection Ep as -> _. now rewrite Ascii.eqb_refl in Ec.
        -- cbn [app] in Ep. injection Ep as <- Ep.
           specialize (E4 p q Ep). cbn [app balance]. rewrite Eo, Ec. lia.
Qed.

(** What a failed scan has read: no closing brace of the text brings
    the count to zero. *)
Lemma braces_loop_none chars : forall count acc,
  braces_loop chars count acc = None ->
  forall p q, chars = p ++ "}" :: q -> (count + balance (p ++ ["}"]) <> 0)%Z.
Proof.
  induction chars as [|c chars IH]; intros count acc H p q Ep.
  - destruct p; discriminate Ep.
  - cbn [braces_loop] in H. destruct p as [|x p].
    + cbn in Ep. injection Ep as -> ->.
      change (("}" =? "{")%char) with false in H.
      change (("}" =? "}")%char) with true in H. cbv iota in H.
      destruct (Z.eqb_spec (count - 1) 0); [discriminate|]. cbn. lia.
    + cbn [app] in Ep. injection Ep as -> Ep. cbn [app balance].
      destruct (Ascii.eqb x "{") eqn:Eo.
      * specialize (IH _ _ H p q Ep). lia.
      * destruct (Ascii.eqb x "}") eqn:Ec.
        -- destruct (Z.eqb_spec (count - 1) 0); [discriminate|].
           specialize (IH _ _ H p q Ep). lia.
        -- specialize (IH _ _ H p q Ep). lia.
Qed.

(** When the count is positive, it stays positive on every proper
    prefix of what a successful scan reads. *)
Lemma braces_loop_positive chars : forall count acc content,
  braces_loop chars count acc = Some content ->
  (0 < count)%Z ->
  forall p q, content = acc ++ p ++ q -> q <> [] -> (0 < count + balance p)%Z.
Proof.
  induction chars as [|c chars IH]; intros count acc content H Hc p q Ep Hq;
    [discriminate|].
  destruct p as [|x p]; [cbn; lia|].
  cbn [braces_loop] in H.
  assert (Hhead : forall count',
             braces_loop chars count' (acc ++ [c]) = Some content ->
             x = c /\ content = (acc ++ [c]) ++ p ++ q).
  { intros count' H'. apply braces_loop_some in H' as (body & rest & _ & E2 & _).
    rewrite E2, <- !app_assoc in Ep. apply app_inv_head in Ep.
    cbn [app] in Ep. injection Ep as -> Ep.
    split; [reflexivity|]. rewrite E2, <- !app_assoc. cbn [app].
    now rewrite Ep. }
  destruct (Ascii.eqb c "{") eqn:Eo.
  - destruct (Hhead _ H) as [-> E]. cbn [balance]. rewrite Eo.
    specialize (IH _ _ _ H ltac:(lia) p q E Hq). lia.
  - destruct (Ascii.eqb c "}") eqn:Ec.
    + destruct (Z.eqb_spec (count - 1) 0) as [Hz|Hz].
      * injection H as <-. apply app_inv_head in Ep.
        cbn [app] in Ep. injection Ep as _ Ep.
        destruct p; [destruct q; [contradiction | discriminate] | discriminate].
      * destruct (Hhead _ H) as [-> E]. cbn [balance]. rewrite Eo, Ec.
        specialize (IH _ _ _ H ltac:(lia) p q E Hq). lia.
    + destruct (Hhead _ H) as [-> E]. cbn [balance]. rewrite Eo, Ec.
      specialize (IH _ _ _ H ltac:(lia) p q E Hq). lia.
Qed.

(** X1.  A blob returned by [extract_matching_braces_content] is the
    shortest prefix of the text from the start offset that ends with a
    closing brace and has as many closing as opening braces. *)
Theorem extract_matching_braces_content_shortest_balanced js_code start_index content :
  extract_matching_braces_content js_code start_index = Some content ->
  exists body rest,
    skipn start_index js_code = body ++ "}" :: rest
    /\ content = body ++ ["}"]
    /\ balance content = 0%Z
    /\ forall p q, body = p ++ "}" :: q -> balance (p ++ ["}"]) <> 0%Z.
Proof.
  unfold extract_matching_braces_content. intros H.
  apply braces_loop_some in H as (body & rest & E1 & E2 & E3 & E4).
  exists body, rest. cbn [app] in E2. subst content.
  repeat split; [assumption | lia | intros p q Ep; specialize (E4 p q Ep); lia].
Qed.

Lemma extract_matching_braces_content_shortest_balanced_witness :
  exists body rest,
    skipn 2 (lit "a={b:{c:1}};{}") = body ++ "}" :: rest
    /\ lit "{b:{c:1}}" = body ++ ["}"]
    /\ balance (lit "{b:{c:1}}") = 0%Z
    /\ forall p q, body = p ++ "}" :: q -> balance (p ++ ["}"]) <> 0%Z.
Proof.
  exact (extract_matching_braces_content_shortest_balanced
           (lit "a={b:{c:1}};{}") 2 (lit "{b:{c:1}}") eq_refl).
Defined.

(** X2.  When the start offset is at an opening brace, the braces of the
    returned blob nest: every proper non-empty prefix of the blob has
    more opening than closing braces. *)
Theorem extract_matching_braces_content_nested js_code start_index content rest p q :
  skipn start_index js_code = "{" :: rest ->
  extract_matching_braces_content js_code start_index = Some content ->
  content = p ++ q -> p <> [] -> q <> [] ->
  (0 < balance p)%Z.
Proof.
  unfold extract_matching_braces_content. intros -> H E Hp Hq.
  cbn [braces_loop] in H. change (("{" =? "{")%char) with true in H. cbv iota in H.
  destruct p as [|x p]; [contradiction|].
  pose proof H as H'.
  apply braces_loop_some in H' as (body & rest' & _ & E2 & _).
  assert (E' : content = ([] ++ ["{"]) ++ p ++ q /\ x = "{").
  { rewrite E2 in E. cbn [app] in E. injection E as <- E.
    split; [|reflexivity]. rewrite E2. cbn [app]. now rewrite E. }
  destruct E' as [E' ->].
  pose proof (braces_loop_positive _ _ _ _ H ltac:(lia) p q E' Hq) as Hpos.
  cbn [balance]. change (("{" =? "{")%char) with true. cbv iota. lia.
Qed.

Lemma extract_matching_braces_content_nested_witness :
  (0 < balance (lit "{b:{c:1}"))%Z.
Proof.
  apply (extract_matching_braces_content_nested
           (lit "a={b:{c:1}};{}") 2 (lit "{b:{c:1}}") (lit "b:{c:1}};{}")
           (lit "{b:{c:1}") (lit "}"));
    [reflexivity | reflexivity | reflexivity | discriminate | discriminate].
Defined.

(** X3.  [extract_matching_braces_content] returns [None] exactly when
    no closing brace of the text from the start offset brings the count
    of open braces back to zero; in particular for a start offset at or
    past the end of the text. *)
Theorem extract_matching_braces_content_none_iff js_code start_index :
  extract_matching_braces_content js_code start_index = None
  <-> (forall p q, skipn start_index js_code = p ++ "}" :: q ->
                   balance (p ++ ["}"]) <> 0%Z).
Proof.
  unfold extract_matching_braces_content. split.
  - intros H p q Ep. pose proof (braces_loop_none _ _ _ H p q Ep). lia.
  - intros H.
    destruct (braces_loop (skipn start_index js_code) 0 []) as [content|] eqn:E;
      [|reflexivity].
    apply braces_loop_some in E as (body & rest & E1 & _ & E3 & _).
    exfalso. apply (H body rest E1). lia.
Qed.

Lemma extract_matching_braces_content_none_iff_witness :
  extract_matching_braces_content (lit "a={b") 2 = None.
Proof.
  apply (proj2 (extract_matching_braces_content_none_iff (lit "a={b") 2)).
  intros p q E. cbn in E.
  destruct p as [|x p]; [discriminate E|].
  destruct p as [|y p]; [discriminate E|].
  destruct p as [|z p]; discriminate E.
Defined.

Lemma full_json_loop_bound chars : forall count i e,
  full_json_loop chars count i = Some e -> i < e.
Proof.
  induction chars as [|c chars IH]; intros count i e H; [discriminate|].
  cbn [full_json_loop] in H.
  destruct (Ascii.eqb c "{"); [apply IH in H; lia|].
  destruct (Ascii.eqb c "}"); [|apply IH in H; lia].
  destruct (count - 1 =? 0)%Z; [injection H as <-; lia | apply IH in H; lia].
Qed.

Lemma braces_loop_full_json_loop chars : forall count acc i,
  braces_loop chars count acc
  = match full_json_loop chars count i with
    | Some e => Some (acc ++ firstn (e - i) chars)
    | None => None
    end.
Proof.
  induction chars as [|c chars IH]; intros count acc i; [reflexivity|].
  cbn [braces_loop full_json_loop].
  assert (Hrec : forall count',
             braces_loop chars count' (acc ++ [c])
             = match full_json_loop chars count' (S i) with
               | Some e => Some (acc ++ firstn (e - i) (c :: chars))
               | None => None
               end).
  { intros count'. rewrite (IH count' (acc ++ [c]) (S i)).
    destruct (full_json_loop chars count' (S i)) as [e|] eqn:E; [|reflexivity].
    apply full_json_loop_bound in E.
    replace (e - i) with (S (e - S i)) by lia.
    cbn [firstn]. now rewrite <- app_assoc. }
  destruct (Ascii.eqb c "{"); [apply Hrec|].
  destruct (Ascii.eqb c "}"); [|apply Hrec].
  destruct (count - 1 =? 0)%Z; [|apply Hrec].
  replace (S i - i) with 1 by lia. reflexivity.
Qed.

(** X4.  [extract_full_json], which slices the text by indices, and
    [extract_matching_braces_content], which accumulates the characters,
    return the same value for every text and start offset. *)
Theorem extract_full_json_same_as_matching_braces text start_index :
  extract_full_json text start_index
  = extract_matching_braces_content text start_index.
Proof.
  unfold extract_full_json, extract_matching_braces_content, slice.
  rewrite (braces_loop_full_json_loop _ 0%Z [] start_index).
  destruct (full_json_loop (skipn start_index text) 0 start_index); reflexivity.
Qed.

(* ================================================================== *)
(** * More properties: the marker search *)

Lemma find_at_some sub s : forall i k,
  find_at sub s i = Some k ->
  exists d, k = i + d /\ d <= length s
            /\ startswith sub (skipn d s) = true
            /\ forall j, j < d -> startswith sub (skipn j s) = false.
Proof.
  induction s as [|c s IH]; intros i k H; cbn [find_at] in H.
  - destruct (startswith sub []) eqn:E; [|discriminate]. injection H as <-.
    exists 0. repeat split; [lia | cbn; lia | exact E | intros j Hj; lia].
  - destruct (startswith sub (c :: s)) eqn:E.
    + injection H as <-. exists 0.
      repeat split; [lia | cbn; lia | exact E | intros j Hj; lia].
    + apply IH in H as (d & -> & Hd & Hs & Hmin). exists (S d).
      repeat split; [lia | cbn [length]; lia | exact Hs |].
      intros [|j] Hj; [exact E | apply Hmin; lia].
Qed.

Lemma find_at_none sub s : forall i,
  find_at sub s i = None ->
  forall j, j <= length s -> startswith sub (skipn j s) = false.
Proof.
  induction s as [|c s IH]; intros i H j Hj; cbn [find_at] in H.
  - destruct (startswith sub []) eqn:E; [discriminate|].
    cbn in Hj. destruct j; [exact E | lia].
  - destruct (startswith sub (c :: s)) eqn:E; [discriminate|].
    destruct j as [|j]; [exact E|]. cbn [skipn]. apply (IH _ H). cbn in Hj. lia.
Qed.

(** [s.find(sub, start)] returns the first offset from [start] on at
    which [sub] occurs. *)
Lemma find_some sub s start k :
  find sub s start = Some k ->
  start <= k /\ occurs_at sub s k
  /\ forall j, start <= j < k -> startswith sub (skipn j s) = false.
Proof.
  unfold find, occurs_at. destruct (Nat.leb_spec start (length s)) as [Hl|Hl];
    [|discriminate].
  intros H. apply find_at_some in H as (d & -> & Hd & Hs & Hmin).
  rewrite length_skipn in Hd. rewrite skipn_skipn in Hs.
  repeat split; [lia | lia | now rewrite Nat.add_comm in Hs |].
  intros j Hj. specialize (Hmin (j - start) ltac:(lia)).
  rewrite skipn_skipn in Hmin. now replace (j - start + start) with j in Hmin by lia.
Qed.

Lemma find_none sub s start :
  find sub s start = None ->
  forall j, start <= j -> occurs_at sub s j -> False.
Proof.
  unfold find, occurs_at. intros H j Hj [Hl Hs].
  destruct (Nat.leb_spec start (length s)) as [Hl'|Hl']; [|lia].
  pose proof (find_at_none _ _ _ H (j - start)) as Hn.
  rewrite length_skipn, skipn_skipn in Hn.
  replace (j - start + start) with j in Hn by lia.
  rewrite Hn in Hs by lia. discriminate.
Qed.

Lemma rfind_at_char c s : forall i best o,
  rfind_at [c] s i best = Some o ->
  (best = Some o /\ ~ In c s)
  \/ exists pre mid, s = pre ++ c :: mid /\ o = i + length pre /\ ~ In c mid.
Proof.
  induction s as [|x s IH]; intros i best o H; cbn [rfind_at startswith] in H.
  - left. split; [assumption | intros []].
  - rewrite andb_true_r in H. apply IH in H as [[Hb Hn]|(pre & mid & -> & -> & Hn)].
    + destruct (Ascii.eqb_spec c x) as [->|Hne].
      * right. injection Hb as <-. exists [], s.
        repeat split; [cbn; lia | assumption].
      * left. split; [assumption|]. intros [E|Hin]; [now subst | contradiction].
    + right. exists (x :: pre), mid. repeat split; [cbn [length]; lia | assumption].
Qed.

(** [s.rfind(c, 0, stop)] for a character [c] returns the offset of the
    last [c] before [stop]. *)
Lemma rfind_char c s stop o :
  rfind [c] s stop = Some o ->
  exists pre mid, firstn stop s = pre ++ c :: mid /\ o = length pre /\ ~ In c mid.
Proof.
  unfold rfind. intros H.
  apply rfind_at_char in H as [[Hb _]|(pre & mid & E & -> & Hn)]; [discriminate|].
  exists pre, mid. repeat split; assumption.
Qed.

(** Every pair of the loop from [index] on: its marker offset is not
    below [index], its brace offset is what [rfind] gives, and the
    marker is the quoted one or no quoted marker follows it. *)
Lemma find_buildinfo_loop_pair js_code o b : forall fuel index,
  In (o, b) (find_buildinfo_loop fuel js_code index) ->
  index <= b
  /\ rfind (lit "{") js_code b = Some o
  /\ (occurs_at marker_quoted js_code b
      \/ (occurs_at marker_bare js_code b
          /\ forall q, b <= q -> occurs_at marker_quoted js_code q -> False)).
Proof.
  induction fuel as [|fuel IH]; intros index H; [contradiction|].
  cbn [find_buildinfo_loop] in H.
  destruct (find marker_quoted js_code index) as [i|] eqn:Eq.
  - apply find_some in Eq as (Hi & Hocc & _).
    assert (Hrest : In (o, b) (find_buildinfo_loop fuel js_code (S i)) ->
                    index <= b
                    /\ rfind (lit "{") js_code b = Some o
                    /\ (occurs_at marker_quoted js_code b
                        \/ (occurs_at marker_bare js_code b
                            /\ forall q, b <= q ->
                                         occurs_at marker_quoted js_code q -> False))).
    { intros Hin. apply IH in Hin as (Hb & Hr & Hm). repeat split; [lia | assumption | assumption]. }
    destruct (rfind (lit "{") js_code i) as [o'|] eqn:Er; [|now apply Hrest].
    destruct H as [E|Hin]; [|now apply Hrest].
    injection E as <- <-. repeat split; [assumption | assumption | now left].
  - destruct (find marker_bare js_code index) as [i|] eqn:Eb; [|contradiction].
    apply find_some in Eb as (Hi & Hocc & _).
    assert (Hrest : In (o, b) (find_buildinfo_loop fuel js_code (S i)) ->
                    index <= b
                    /\ rfind (lit "{") js_code b = Some o
                    /\ (occurs_at marker_quoted js_code b
                        \/ (occurs_at marker_bare js_code b
                            /\ forall q, b <= q ->
                                         occurs_at marker_quoted js_code q -> False))).
    { intros Hin. apply IH in Hin as (Hb & Hr & Hm). repeat split; [lia | assumption | assumption]. }
    destruct (rfind (lit "{") js_code i) as [o'|] eqn:Er; [|now apply Hrest].
    destruct H as [E|Hin]; [|now apply Hrest].
    injection E as <- <-. repeat split; [assumption | assumption |].
    right. split; [assumption|]. intros q Hq Hoq.
    apply (find_none _ _ _ Eq q); [lia | assumption].
Qed.

(** X5.  Every pair returned by
    [find_buildinfo_and_nearest_opening_brace] gives the offset of a
    marker, quoted or bare, and the offset of the last opening brace
    before it: the brace stands before the marker and no other opening
    brace stands between them. *)
Theorem find_buildinfo_pair_is_nearest_brace js_code o b :
  In (o, b) (find_buildinfo_and_nearest_opening_brace js_code) ->
  exists pre mid post,
    js_code = pre ++ "{" :: mid ++ post
    /\ o = length pre
    /\ b = length pre + 1 + length mid
    /\ ~ In "{" mid
    /\ (startswith marker_quoted post = true
        \/ startswith marker_bare post = true).
Proof.
  unfold find_buildinfo_and_nearest_opening_brace. intros H.
  apply find_buildinfo_loop_pair in H as (_ & Hr & Hm).
  apply (rfind_char "{") in Hr as (pre & mid & E & -> & Hn).
  assert (Hb : b <= length js_code /\
               (startswith marker_quoted (skipn b js_code) = true
                \/ startswith marker_bare (skipn b js_code) = true)).
  { destruct Hm as [[Hl Hs]|[[Hl Hs] _]]; split; auto. }
  destruct Hb as [Hl Hs].
  exists pre, mid, (skipn b js_code). repeat split.
  - rewrite <- (firstn_skipn b js_code) at 1. rewrite E, <- app_assoc. reflexivity.
  - apply (f_equal (@length ascii)) in E.
    rewrite length_firstn, length_app in E. cbn [length] in E. lia.
  - assumption.
  - assumption.
Qed.

Lemma find_buildinfo_pair_is_nearest_brace_witness :
  exists pre mid post,
    mixed_bundle = pre ++ "{" :: mid ++ post
    /\ 22 = length pre
    /\ 23 = length pre + 1 + length mid
    /\ ~ In "{" mid
    /\ (startswith marker_quoted post = true
        \/ startswith marker_bare post = true).
Proof.
  apply (find_buildinfo_pair_is_nearest_brace mixed_bundle 22 23).
  vm_compute. left. reflexivity.
Defined.

(** X6.  A bare marker that is followed, anywhere later in the text, by
    a quoted marker is never reported: every iteration looks for the
    quoted form first, from the current index to the end of the text,
    and moves the index past what it found.  So an object that spells
    the marker without quotes is lost when a later object spells it
    with quotes. *)
Theorem find_buildinfo_skips_bare_before_quoted js_code o b q :
  occurs_at marker_quoted js_code q -> b < q ->
  startswith marker_quoted (skipn b js_code) = false ->
  ~ In (o, b) (find_buildinfo_and_nearest_opening_brace js_code).
Proof.
  unfold find_buildinfo_and_nearest_opening_brace. intros Hq Hb Hnq H.
  apply find_buildinfo_loop_pair in H as (_ & _ & [[_ Hm]|[_ Hm]]).
  - rewrite Hm in Hnq. discriminate.
  - apply (Hm q); [lia | assumption].
Qed.

Lemma find_buildinfo_skips_bare_before_quoted_witness :
  occurs_at marker_bare mixed_bundle 3
  /\ ~ In (2, 3) (find_buildinfo_and_nearest_opening_brace mixed_bundle).
Proof.
  split; [split; [vm_compute; lia | reflexivity]|].
  apply (find_buildinfo_skips_bare_before_quoted mixed_bundle 2 3 23).
  - split; [vm_compute; lia | reflexivity].
  - lia.
  - reflexivity.
Defined.

Lemma startswith_contains sub : forall s j,
  startswith sub (skipn j s) = true -> contains sub s = true.
Proof.
  induction s as [|c s IH]; intros j H.
  - destruct j; exact H.
  - cbn [contains]. destruct j as [|j]; [cbn [skipn] in H; now rewrite H|].
    cbn [skipn] in H. rewrite (IH _ H). apply orb_true_r.
Qed.

Lemma contains_find_none sub s start :
  contains sub s = false -> find sub s start = None.
Proof.
  intros H. destruct (find sub s start) as [k|] eqn:E; [|reflexivity].
  apply find_some in E as (_ & [_ Hs] & _).
  apply startswith_contains in Hs. congruence.
Qed.

Lemma startswith_app_l p r : forall s,
  startswith (p ++ r) s = true -> startswith p s = true.
Proof.
  induction p as [|x p IH]; intros s H; [reflexivity|].
  destruct s as [|y s]; [discriminate|]. cbn [app startswith] in *.
  apply andb_prop in H as [-> H]. now apply IH.
Qed.

Lemma startswith_quoted_bare s :
  startswith marker_quoted s = true -> startswith marker_bare (tl s) = true.
Proof.
  destruct s as [|c s]; [discriminate|].
  change marker_quoted with (dquote :: marker_bare ++ [dquote]).
  cbn [startswith tl]. intros H. apply andb_prop in H as [_ H].
  now apply startswith_app_l in H.
Qed.

Lemma contains_bare_quoted js_code :
  contains marker_bare js_code = false -> contains marker_quoted js_code = false.
Proof.
  intros H. destruct (contains marker_quoted js_code) eqn:E; [|reflexivity].
  exfalso. revert H E. induction js_code as [|c s IH]; [discriminate|].
  cbn [contains]. intros H E. apply orb_false_elim in H as [H1 H2].
  apply orb_prop in E as [E|E]; [|now apply IH].
  apply startswith_quoted_bare in E. cbn [tl] in E.
  apply (startswith_contains _ _ 0) in E. congruence.
Qed.

(** X7.  A bundle in which the word [buildInfo] does not occur has no
    occurrence and yields the empty list of descriptors, without an
    exception. *)
Theorem no_marker_no_descriptor js_code :
  contains marker_bare js_code = false ->
  find_buildinfo_and_nearest_opening_brace js_code = []
  /\ extract_abi_jsons js_code = Returns [].
Proof.
  intros H.
  assert (E : find_buildinfo_and_nearest_opening_brace js_code = []).
  { unfold find_buildinfo_and_nearest_opening_brace. cbn [find_buildinfo_loop].
    rewrite (contains_find_none _ _ _ (contains_bare_quoted _ H)).
    now rewrite (contains_find_none _ _ _ H). }
  split; [exact E|]. unfold extract_abi_jsons. now rewrite E.
Qed.

Lemma no_marker_no_descriptor_witness :
  find_buildinfo_and_nearest_opening_brace (lit "var a={name:'x'};") = []
  /\ extract_abi_jsons (lit "var a={name:'x'};") = Returns [].
Proof.
  apply (no_marker_no_descriptor (lit "var a={name:'x'};")). reflexivity.
Defined.









Lemma find_buildinfo_loop_sorted js_code : forall fuel index l1 p1 l2 p2 l3,
  find_buildinfo_loop fuel js_code index = l1 ++ p1 :: l2 ++ p2 :: l3 ->
  snd p1 < snd p2.
Proof.
  induction fuel as [|fuel IH]; intros index l1 p1 l2 p2 l3 H.
  - destruct l1; discriminate H.
  - cbn [find_buildinfo_loop] in H.
    assert (Hcons : forall i o,
               index <= i ->
               (o, i) :: find_buildinfo_loop fuel js_code (S i)
               = l1 ++ p1 :: l2 ++ p2 :: l3 -> snd p1 < snd p2).
    { intros i o Hi E. destruct l1 as [|x l1].
      - cbn [app] in E. injection E as <- E.
        assert (Hin : In p2 (find_buildinfo_loop fuel js_code (S i))).
        { rewrite E. apply in_or_app. right. now left. }
        destruct p2 as [o2 b2]. apply find_buildinfo_loop_pair in Hin as (Hb & _).
        cbn [snd]. lia.
      - cbn [app] in E. injection E as _ E. now apply IH in E. }
    destruct (find marker_quoted js_code index) as [i|] eqn:Eq.
    + apply find_some in Eq as (Hi & _ & _).
      destruct (rfind (lit "{") js_code i) as [o|]; [now apply (Hcons i o)|].
      now apply IH in H.
    + destruct (find marker_bare js_code index) as [i|] eqn:Eb;
        [|destruct l1; discriminate H].
      apply find_some in Eb as (Hi & _ & _).
      destruct (rfind (lit "{") js_code i) as [o|]; [now apply (Hcons i o)|].
      now apply IH in H.
Qed.

(** X9.  The occurrences are reported in the order of the text: the
    marker offsets of the returned pairs increase strictly, so no
    marker offset is reported twice. *)
Theorem find_buildinfo_offsets_increase js_code l1 p1 l2 p2 l3 :
  find_buildinfo_and_nearest_opening_brace js_code = l1 ++ p1 :: l2 ++ p2 :: l3 ->
  snd p1 < snd p2.
Proof. apply find_buildinfo_loop_sorted. Qed.

Lemma find_buildinfo_offsets_increase_witness : 23 < 24.
Proof.
  exact (find_buildinfo_offsets_increase mixed_bundle [] (22, 23) [] (22, 24) []
           eq_refl).
Defined.

(* ================================================================== *)
(** * More properties: the primary repair *)

Lemma startswith_split p : forall s, startswith p s = true -> exists r, s = p ++ r.
Proof.
  induction p as [|x p IH]; intros s H; [now exists s|].
  destruct s as [|y s]; [discriminate|]. cbn [startswith] in H.
  apply andb_prop in H as [Hx H]. apply Ascii.eqb_eq in Hx. subst y.
  destruct (IH _ H) as [r ->]. now exists r.
Qed.

(** The three cases of one step of [str.replace]. *)
Lemma replace_cases old new s :
  old <> [] ->
  (s = [] /\ replace old new s = [])
  \/ (exists r, s = old ++ r /\ replace old new s = new ++ replace old new r)
  \/ (exists c r, s = c :: r /\ startswith old s = false
                  /\ replace old new s = c :: replace old new r).
Proof.
  intros Hne. destruct s as [|c s]; [now left|]. right.
  destruct (startswith old (c :: s)) eqn:E.
  - left. destruct (startswith_split _ _ E) as [r Er]. exists r. split; [assumption|].
    unfold replace. cbn [replace_from]. rewrite E. f_equal.
    destruct old as [|x old]; [contradiction|].
    cbn [app] in Er. injection Er as _ ->.
    replace (length (x :: old) - 1) with (length old) by (cbn [length]; lia).
    apply replace_from_skip.
  - right. exists c, s. repeat split. unfold replace. cbn [replace_from]. now rewrite E.
Qed.

(** Induction on the steps of [str.replace]. *)
Lemma replace_ind old new (P : str -> str -> Prop) :
  old <> [] ->
  P [] [] ->
  (forall r, P r (replace old new r) -> P (old ++ r) (new ++ replace old new r)) ->
  (forall c r, startswith old (c :: r) = false ->
               P r (replace old new r) -> P (c :: r) (c :: replace old new r)) ->
  forall s, P s (replace old new s).
Proof.
  intros Hne H0 Hm Hc s.
  remember (length s) as n eqn:En. revert s En.
  induction n as [n IH] using lt_wf_ind. intros s En.
  destruct (replace_cases old new s Hne) as [[-> ->]|[(r & -> & ->)|(c & r & -> & E & ->)]].
  - exact H0.
  - apply Hm. apply (IH (length r)); [|reflexivity].
    subst n. rewrite length_app. destruct old; [contradiction | cbn [length]; lia].
  - apply Hc; [assumption|]. apply (IH (length r)); [|reflexivity].
    subst n. cbn [length]. lia.
Qed.













Lemma contains_app_first a p u : forall t,
  ~ In a u -> contains (a :: p) (u ++ t) = contains (a :: p) t.
Proof.
  induction u as [|x u IH]; intros t Hn; [reflexivity|].
  cbn [app contains startswith].
  destruct (Ascii.eqb_spec a x) as [->|Hne]; [exfalso; apply Hn; now left|].
  cbn [andb orb]. apply IH. intros Hin. apply Hn. now right.
Qed.

Lemma contains_suffix p u : forall t,
  contains p (u ++ t) = false -> contains p t = false.
Proof.
  induction u as [|x u IH]; intros t H; [exact H|].
  cbn [app contains] in H. apply orb_false_elim in H as [_ H]. now apply IH.
Qed.

(** The first character of the replaced text is not [b] when neither
    the first character of the text nor that of [new] is. *)
Lemma replace_first_char old n new' b s :
  old <> [] -> n <> b ->
  startswith [b] s = false ->
  startswith [b] (replace old (n :: new') s) = false.
Proof.
  intros Hne Hn Hs.
  destruct (replace_cases old (n :: new') s Hne)
    as [[-> ->]|[(r & -> & ->)|(c & r & -> & E & ->)]].
  - reflexivity.
  - cbn [app startswith]. destruct (Ascii.eqb_spec b n); [congruence | reflexivity].
  - exact Hs.
Qed.

(** A pair of characters [a], [b] does not occur in the replaced text
    when every occurrence of the pair in the text begins an occurrence
    of [old] and [new] can neither begin nor complete the pair. *)
Lemma replace_no_pair a b old n new' s :
  old <> [] -> ~ In a (n :: new') -> n <> b ->
  (forall u t, s = u ++ t -> startswith [a; b] t = true -> startswith old t = true) ->
  contains [a; b] (replace old (n :: new') s) = false.
Proof.
  intros Hne Ha Hn.
  apply (replace_ind old (n :: new')
           (fun s t =>
              (forall u v, s = u ++ v -> startswith [a; b] v = true ->
                           startswith old v = true) ->
              contains [a; b] t = false) Hne).
  - reflexivity.
  - intros r IH HP. rewrite contains_app_first by assumption.
    apply IH. intros u v E. apply (HP (old ++ u) v). rewrite E. now rewrite app_assoc.
  - intros c r E IH HP. cbn [contains]. apply orb_false_intro.
    + destruct (startswith [a; b] (c :: replace old (n :: new') r)) eqn:Es;
        [|reflexivity].
      change (Ascii.eqb a c && startswith [b] (replace old (n :: new') r) = true)
        in Es.
      apply andb_prop in Es as [Hc Es].
      apply Ascii.eqb_eq in Hc. subst c.
      assert (Hr : startswith [b] r = false).
      { destruct (startswith [b] r) eqn:Eb; [|reflexivity].
        rewrite (HP [] (a :: r) eq_refl) in E; [discriminate|].
        cbn [startswith]. rewrite Ascii.eqb_refl. exact Eb. }
      rewrite (replace_first_char old n new' b r Hne Hn Hr) in Es. discriminate.
    + apply IH. intros u v Eu. apply (HP (c :: u) v). now rewrite Eu.
Qed.

Lemma contains_false_suffixes p s :
  contains p s = false -> forall u t, s = u ++ t -> startswith p t = false.
Proof.
  intros H u t ->. apply contains_suffix in H.
  destruct t as [|c t]; [exact H|]. cbn [contains] in H.
  now apply orb_false_elim in H as [H _].
Qed.

(** X13.  The repaired text contains neither [!0] nor [!1]: no minified
    boolean is left, and the replacement of one does not create the
    other. *)
Theorem repair_json_no_minified_boolean s :
  contains (lit "!0") (repair_json s) = false
  /\ contains (lit "!1") (repair_json s) = false.
Proof.
  unfold repair_json.
  set (t := replace [backslash] [backslash; backslash]
              (replace [squote] [dquote] (quote_keys s))).
  assert (H0 : contains (lit "!0") (replace (lit "!0") (lit "true") t) = false).
  { apply (replace_no_pair "!" "0" (lit "!0") "t" (lit "rue"));
      [discriminate | | discriminate | intros u v _ H; exact H].
    cbn. intros [H|[H|[H|[H|[]]]]]; discriminate H. }
  split.
  - apply (replace_no_pair "!" "0" (lit "!1") "f" (lit "alse"));
      [discriminate | | discriminate |].
    + cbn. intros [H|[H|[H|[H|[H|[]]]]]]; discriminate H.
    + intros u v E H. pose proof (contains_false_suffixes _ _ H0 u v E) as Hn.
      change (startswith ["!"; "0"] v = false) in Hn. congruence.
  - apply (replace_no_pair "!" "1" (lit "!1") "f" (lit "alse"));
      [discriminate | | discriminate | intros u v _ H; exact H].
    cbn. intros [H|[H|[H|[H|[H|[]]]]]]; discriminate H.
Qed.

(* ================================================================== *)
(** * More properties: the extraction of a bundle *)

Lemma dedup_In x l : In x (dedup l) <-> In x l.
Proof.
  induction l as [|y l IH]; [tauto|]. cbn [dedup In]. rewrite filter_In, IH.
  split.
  - intros [H|[H _]]; auto.
  - intros [H|H]; [now left|].
    destruct (str_eqb y x) eqn:E; [left; now apply str_eqb_eq | right].
    split; [assumption | reflexivity].
Qed.

Lemma dedup_NoDup l : NoDup (dedup l).
Proof.
  induction l as [|y l IH]; [constructor|]. cbn [dedup]. constructor.
  - rewrite filter_In. intros [_ H]. now rewrite str_eqb_refl in H.
  - now apply NoDup_filter.
Qed.

Lemma repair_occurrences_In js_code : forall occurrences abi_jsons l,
  repair_occurrences js_code occurrences abi_jsons = Returns l ->
  forall x,
    In x l <->
    In x abi_jsons
    \/ exists o b blob,
         In (o, b) occurrences
         /\ extract_matching_braces_content js_code o = Some blob
         /\ x = repair_json blob.
Proof.
  induction occurrences as [|[o b] occs IH]; intros acc l H x.
  - cbn in H. injection H as <-. split; [now left|].
    intros [H|(? & ? & ? & [] & _)]. exact H.
  - cbn [repair_occurrences fst] in H.
    destruct (extract_matching_braces_content js_code o) as [blob|] eqn:E;
      [|discriminate]. cbn [repair_json_value] in H.
    rewrite (IH _ _ H x), in_app_iff. cbn [In]. split.
    + intros [[Hin|[<-|[]]]|(o' & b' & blob' & Hin & Hb & ->)].
      * now left.
      * right. exists o, b, blob. repeat split; [now left | assumption].
      * right. exists o', b', blob'. repeat split; [now right | assumption].
    + intros [Hin|(o' & b' & blob' & [Heq|Hin] & Hb & ->)].
      * left. now left.
      * injection Heq as <- <-. left. right. left. congruence.
      * right. exists o', b', blob'. now repeat split.
Qed.

(** X14.  When the extraction of a bundle returns, its result has no
    duplicate and holds exactly the primary repairs of the blobs read
    at the opening braces of the reported occurrences. *)
Theorem extract_abi_jsons_repaired_blobs js_code abi_jsons :
  extract_abi_jsons js_code = Returns abi_jsons ->
  NoDup abi_jsons
  /\ forall x,
       In x abi_jsons <->
       exists o b blob,
         In (o, b) (find_buildinfo_and_nearest_opening_brace js_code)
         /\ extract_matching_braces_content js_code o = Some blob
         /\ x = repair_json blob.
Proof.
  unfold extract_abi_jsons.
  destruct (repair_occurrences js_code
              (find_buildinfo_and_nearest_opening_brace js_code) []) as [l|e] eqn:E;
    [|discriminate].
  intros H. injection H as <-. split; [apply dedup_NoDup|].
  intros x. rewrite dedup_In, (repair_occurrences_In _ _ _ _ E x). cbn [In]. tauto.
Qed.

Lemma extract_abi_jsons_repaired_blobs_witness :
  NoDup [lit "{`buildInfo`:{`v`:2}}"]
  /\ forall x,
       In x [lit "{`buildInfo`:{`v`:2}}"] <->
       exists o b blob,
         In (o, b) (find_buildinfo_and_nearest_opening_brace mixed_bundle)
         /\ extract_matching_braces_content mixed_bundle o = Some blob
         /\ x = repair_json blob.
Proof.
  apply (extract_abi_jsons_repaired_blobs mixed_bundle). reflexivity.
Defined.

(* ================================================================== *)
(** * More properties: loading a descriptor *)

Lemma unicode_escape_plain s : forallb is_plain s = true -> unicode_escape s = s.
Proof.
  induction s as [|c s IH]; intros H; [reflexivity|].
  cbn [forallb] in H. apply andb_prop in H as [Hc H].
  unfold unicode_escape in *. cbn [flat_map]. rewrite (IH H).
  clear IH H. revert Hc. ascii_cases c; intros Hc; try discriminate Hc; reflexivity.
Qed.

Lemma findall_docs_absent s :
  contains (docs_prefix ++ lit "[") s = false -> findall_docs 0 s = [].
Proof.
  induction s as [|c s IH]; intros H; [reflexivity|].
  cbn [contains] in H. apply orb_false_elim in H as [H1 H2].
  cbn [findall_docs]. unfold match_docs.
  rewrite (startswith_strip_prefix _ _ H1). now apply IH.
Qed.

(** X15.  The secondary repair leaves a text without a [docs] field that
    opens a bracket as it is, so the fallback parse is a second parse of
    the same text. *)
Theorem repair_broken_json_without_docs broken_json :
  contains (docs_prefix ++ lit "[") broken_json = false ->
  repair_broken_json broken_json = broken_json.
Proof.
  intros H. unfold repair_broken_json. now rewrite (findall_docs_absent _ H).
Qed.

Lemma repair_broken_json_without_docs_witness :
  repair_broken_json (lit "{`name`:`X`,`endpoints`:[]}")
  = lit "{`name`:`X`,`endpoints`:[]}".
Proof.
  apply (repair_broken_json_without_docs (lit "{`name`:`X`,`endpoints`:[]}")).
  reflexivity.
Defined.

(** X16.  A descriptor text of printable ASCII characters without a
    backslash and without a bracketed [docs] field is loaded as
    [json.loads] reads it: the escaping before the first parse and the
    repair before the second change nothing, so the descriptor is
    rejected exactly when it is not JSON. *)
Theorem load_abi_json_plain abi_json_str :
  forallb is_plain abi_json_str = true ->
  contains (docs_prefix ++ lit "[") abi_json_str = false ->
  load_abi_json abi_json_str = json_loads abi_json_str.
Proof.
  intros Hp Hd. unfold load_abi_json, repair_broken_json.
  rewrite (unicode_escape_plain _ Hp), (findall_docs_absent _ Hd).
  cbn [fold_left]. now destruct (json_loads abi_json_str).
Qed.

Lemma load_abi_json_plain_witness :
  load_abi_json (lit "{`name`:`X`,`endpoints`:[]}")
  = json_loads (lit "{`name`:`X`,`endpoints`:[]}").
Proof.
  apply (load_abi_json_plain (lit "{`name`:`X`,`endpoints`:[]}")); reflexivity.
Defined.

Lemma replace_char_cons c new x s :
  replace [c] new (x :: s)
  = (if Ascii.eqb c x then new else [x]) ++ replace [c] new s.
Proof.
  unfold replace. cbn [replace_from startswith length Nat.sub].
  rewrite andb_true_r. now destruct (Ascii.eqb c x).
Qed.

(** Escaping the double quotes of a text without a backslash gives a
    text without two backslashes in a row. *)
Lemma escaped_quotes_no_double_backslash inner :
  forallb is_docs_text inner = true ->
  contains [backslash; backslash; "n"]
           (replace [dquote] [backslash; dquote] inner) = false.
Proof.
  induction inner as [|c inner IH]; intros H; [reflexivity|].
  cbn [forallb] in H. apply andb_prop in H as [Hc H].
  rewrite replace_char_cons. specialize (IH H).
  unfold is_docs_text in Hc. apply andb_prop in Hc as [Hb _].
  apply negb_true_iff in Hb.
  destruct (Ascii.eqb_spec dquote c) as [<-|Hq].
  - cbn [app contains startswith]. rewrite IH.
    change ((backslash =? dquote)%char) with false.
    rewrite Ascii.eqb_refl. cbn [andb orb]. reflexivity.
  - cbn [app contains startswith]. rewrite IH, Ascii.eqb_sym, Hb. reflexivity.
Qed.

Lemma scanstring_escaped_quotes rest inner :
  forallb is_docs_text inner = true ->
  scanstring (replace [dquote] [backslash; dquote] inner ++ dquote :: rest)
  = Some (inner, rest).
Proof.
  induction inner as [|c inner IH]; intros H.
  - cbn. reflexivity.
  - cbn [forallb] in H. apply andb_prop in H as [Hc H].
    rewrite replace_char_cons. specialize (IH H).
    unfold is_docs_text in Hc. apply andb_prop in Hc as [Hb Hr].
    apply negb_true_iff in Hb. apply negb_true_iff in Hr.
    destruct (Ascii.eqb_spec dquote c) as [<-|Hq].
    + cbn [app scanstring]. change ((backslash =? dquote)%char) with false.
      rewrite Ascii.eqb_refl. cbn [negb].
      change ((dquote =? "u")%char) with false. cbv iota.
      change (unescape dquote) with (Some dquote). now rewrite IH.
    + cbn [app scanstring]. rewrite Hb, Hr, IH.
      destruct (Ascii.eqb_spec c dquote) as [->|_]; [contradiction|reflexivity].
Qed.

(** X17.  Round trip of the secondary repair: the array written for a
    [docs] field whose text has neither backslash nor control character
    parses to an array of one string, and that string is the text
    between the brackets, double quotes included. *)
Theorem repaired_docs_parse_back inner :
  forallb is_docs_text inner = true ->
  json_loads
    (lit "[" ++ repair_docs_as_single_string (lit "[" ++ inner ++ lit "]") ++ lit "]")
  = Returns (JArray [JString inner]).
Proof.
  intros H. rewrite repair_docs_as_single_string_field. unfold escape_docs.
  rewrite (replace_absent _ _ _ (escaped_quotes_no_double_backslash _ H)).
  set (e := replace [dquote] [backslash; dquote] inner).
  unfold json_loads, json_fuel.
  change (lit "[" ++ (dquote :: e ++ [dquote]) ++ lit "]")
    with ("[" :: dquote :: (e ++ [dquote]) ++ ["]"]).
  rewrite <- app_assoc. cbn [app length].
  replace (2 * S (S (length (e ++ [dquote; "]"]))))
    with (S (S (2 * length (e ++ [dquote; "]"]) + 2))) by lia.
  change (skip_ws ("[" :: dquote :: e ++ [dquote; "]"]))
    with ("[" :: dquote :: e ++ [dquote; "]"]).
  cbn [scan_once]. change (("[" =? dquote)%char) with false.
  change (("[" =? "{")%char) with false. change (("[" =? "[")%char) with true.
  cbv iota.
  change (skip_ws (dquote :: e ++ [dquote; "]"])) with (dquote :: e ++ [dquote; "]"]).
  cbv iota. change ((dquote =? "]")%char) with false. cbv iota.
  cbn [parse_items scan_once]. rewrite Ascii.eqb_refl.
  unfold e. rewrite (scanstring_escaped_quotes ["]"] inner H).
  reflexivity.
Qed.

Lemma repaired_docs_parse_back_witness :
  json_loads
    (lit "[" ++ repair_docs_as_single_string (lit "[say `hi` to all]") ++ lit "]")
  = Returns (JArray [JString (lit "say `hi` to all")]).
Proof.
  apply (repaired_docs_parse_back (lit "say `hi` to all")). reflexivity.
Defined.

(* ================================================================== *)
(** * More properties: the events of a run *)

Section Emits.

Variable allowed : event -> Prop.

Lemma emits_ret {A} (post : A -> Prop) (a : A) : post a -> emits allowed 0 post (ret a).
Proof.
  intros H st. exists []. cbn. rewrite app_nil_r.
  repeat split; [constructor | lia | intros b E; now injection E as <-].
Qed.

Lemma emits_raise {A} (post : A -> Prop) e : emits allowed 0 post (@raise A e).
Proof.
  intros st. exists []. cbn. rewrite app_nil_r.
  repeat split; [constructor | lia | discriminate].
Qed.

Lemma emits_lift {A} (post : A -> Prop) (o : outcome A) :
  (forall a, o = Returns a -> post a) -> emits allowed 0 post (lift o).
Proof.
  intros H st. exists []. cbn. rewrite app_nil_r.
  repeat split; [constructor | lia | exact H].
Qed.

Lemma emits_weaken {A} (post post' : A -> Prop) b b' (m : M A) :
  b <= b' -> (forall a, post a -> post' a) ->
  emits allowed b post m -> emits allowed b' post' m.
Proof.
  intros Hb Hp Hm st. destruct (Hm st) as (evs & Ht & Ha & Hq & Hr).
  exists evs. repeat split; [assumption | assumption | lia | auto].
Qed.

Lemma emits_bind {A B} (mid : A -> Prop) (post : B -> Prop) b1 b2
      (m : M A) (k : A -> M B) :
  emits allowed b1 mid m ->
  (forall a, mid a -> emits allowed b2 post (k a)) ->
  emits allowed (b1 + b2) post (bind m k).
Proof.
  intros Hm Hk st. destruct (Hm st) as (evs1 & Ht1 & Ha1 & Hq1 & Hr1).
  unfold bind. destruct (m st) as [[a|e] st1]; cbn [fst snd] in *.
  - destruct (Hk a (Hr1 a eq_refl) st1) as (evs2 & Ht2 & Ha2 & Hq2 & Hr2).
    exists (evs1 ++ evs2). rewrite Ht2, Ht1, app_assoc.
    repeat split; [now apply Forall_app | | assumption].
    rewrite filter_app, length_app. lia.
  - exists evs1. repeat split; [assumption | assumption | lia | discriminate].
Qed.

Lemma emits_emit e :
  allowed e ->
  emits allowed (if is_query e then 1 else 0) (fun _ => True) (emit e).
Proof.
  intros H st. exists [e]. cbn [emit snd fst trace filter].
  repeat split; [now repeat constructor | now destruct (is_query e)].
Qed.

Lemma emits_try_pass b m :
  emits allowed b (fun _ => True) m -> emits allowed b (fun _ => True) (try_pass m).
Proof.
  intros Hm st. destruct (Hm st) as (evs & Ht & Ha & Hq & _).
  exists evs. now repeat split.
Qed.

Lemma emits_for_each {A} b (body : A -> M unit) l :
  (forall x, In x l -> emits allowed b (fun _ => True) (body x)) ->
  emits allowed (length l * b) (fun _ => True) (for_each l body).
Proof.
  induction l as [|x l IH]; intros Hb; [now apply emits_ret|].
  cbn [for_each length Nat.mul].
  apply (emits_bind (fun _ => True)); [apply Hb; now left|].
  intros _ _. apply IH. intros y Hy. apply Hb. now right.
Qed.

Lemma emits_randbelow n : emits allowed 0 (fun _ => True) (randbelow n).
Proof.
  intros st. exists []. unfold randbelow.
  destruct (rng st); cbn; rewrite app_nil_r; repeat split; constructor.
Qed.

Lemma emits_sample_loop {A} k : forall pool : list A,
  emits allowed 0 (fun result => incl result pool /\ length result = k)
        (sample_loop k pool).
Proof.
  induction k as [|k IH]; intros pool.
  - apply emits_ret. split; [intros x [] | reflexivity].
  - cbn [sample_loop]. change 0 with (0 + 0).
    apply (emits_bind (fun _ => True)); [apply emits_randbelow|].
    intros j _. destruct (nth_error pool j) as [x|] eqn:Ex; [|apply emits_raise].
    change 0 with (0 + 0).
    apply (emits_bind
             (fun result =>
                incl result (removelast (list_set j (last pool x) pool))
                /\ length result = k)); [apply IH|].
    intros result [Hi Hl]. apply emits_ret. split; [|cbn; lia].
    intros y [<-|Hy]; [now apply nth_error_In in Ex|].
    apply Hi, removelast_In, list_set_In in Hy as [->|Hy]; [|exact Hy].
    apply last_In. intros ->. destruct j; discriminate Ex.
Qed.

(** The confirmation round: at most five names, all among the names
    after the first. *)
Lemma emits_confirmation_functions function_names :
  emits allowed 0
        (fun random_functions =>
           incl random_functions (tl function_names)
           /\ length random_functions <= NUMBER_OF_MATCHES)
        (confirmation_functions function_names).
Proof.
  unfold confirmation_functions, random_sample, NUMBER_OF_MATCHES.
  destruct (Nat.ltb_spec (5 - 1) (length function_names)) as [H|H].
  - destruct (length (tl function_names) <? 5)%nat; [apply emits_raise|].
    apply (emits_weaken
             (fun result => incl result (tl function_names) /\ length result = 5)
             _ 0 0); [lia | intros a [Hi Hl]; split; [assumption | lia] |].
    apply emits_sample_loop.
  - apply emits_ret. split; [apply incl_refl|].
    destruct function_names; cbn [tl length] in *; lia.
Qed.

End Emits.

Section RunEvents.

Variable rpc : str -> json -> outcome json.
Variables abi_jsons sc_addresses : list str.
Variable dir : str.

Local Abbreviation allowed := (allowed_event abi_jsons sc_addresses dir).

Lemma emits_query_function sc_address func_name abi_json function_names :
  In sc_address sc_addresses ->
  descriptor_of abi_jsons abi_json function_names ->
  In func_name function_names ->
  emits allowed 1 (fun _ => True) (query_function rpc sc_address func_name).
Proof.
  intros Ha Hd Hf. unfold query_function. change 1 with (1 + 0).
  apply (emits_bind allowed (fun _ => True)).
  - apply (emits_emit allowed (Query sc_address func_name)).
    split; [assumption|]. now exists abi_json, function_names.
  - intros _ _. now apply emits_lift.
Qed.

Lemma emits_count_matches sc_address abi_json function_names random_functions :
  In sc_address sc_addresses ->
  descriptor_of abi_jsons abi_json function_names ->
  incl random_functions function_names ->
  forall match_count,
    emits allowed (length random_functions) (fun _ => True)
          (count_matches rpc sc_address random_functions match_count).
Proof.
  intros Ha Hd. induction random_functions as [|f fs IH]; intros Hi n.
  - now apply emits_ret.
  - cbn [count_matches length]. change (S (length fs)) with (1 + (0 + length fs)).
    apply (emits_bind allowed (fun _ => True)).
    + apply (emits_query_function _ _ abi_json function_names); auto.
      apply Hi. now left.
    + intros response _. apply (emits_bind allowed (fun _ => True)).
      * now apply emits_lift.
      * intros code _. apply IH. intros x Hx. apply Hi. now right.
Qed.

Lemma emits_export_abi_json abi_json function_names name_field :
  descriptor_of abi_jsons abi_json function_names ->
  getitem abi_json (lit "name") = Returns name_field ->
  emits allowed 0 (fun path => export_of abi_jsons dir abi_json path)
        (export_abi_json abi_json name_field dir).
Proof.
  intros Hd Hn. unfold export_abi_json.
  destruct name_field as [| | |name| |]; try apply emits_raise.
  assert (He : export_of abi_jsons dir abi_json (abi_path dir name)).
  { now exists function_names, name. }
  change 0 with (0 + 0). apply (emits_bind allowed (fun _ => True)).
  - apply (emits_emit allowed (WriteFile (abi_path dir name) (AbiJson abi_json))).
    exact He.
  - intros _ _. apply emits_ret. exact He.
Qed.

Lemma emits_set_relationship sc_address abi_json_path :
  emits allowed 0 (fun _ => True) (set_relationship sc_address abi_json_path).
Proof.
  intros st. exists []. cbn. rewrite app_nil_r. repeat split; constructor.
Qed.

(** One pair: at most six queries, one for the first endpoint and at
    most five for the confirmation round. *)
Lemma emits_match_pair abi_json function_names func_name sc_address :
  In sc_address sc_addresses ->
  descriptor_of abi_jsons abi_json function_names ->
  In func_name function_names ->
  emits allowed 6 (fun _ => True)
        (match_pair rpc abi_json function_names func_name dir sc_address).
Proof.
  intros Ha Hd Hf. unfold match_pair. change 6 with (1 + (0 + 5)).
  apply (emits_bind allowed (fun _ => True));
    [now apply (emits_query_function _ _ abi_json function_names)|].
  intros response _. apply (emits_bind allowed (fun _ => True));
    [now apply emits_lift|].
  intros code _. destruct (not_found code).
  { apply (emits_weaken allowed (fun _ => True) _ 0); [lia | auto |].
    now apply emits_ret. }
  change 5 with (0 + 5).
  apply (emits_bind allowed
           (fun random_functions =>
              incl random_functions (tl function_names)
              /\ length random_functions <= NUMBER_OF_MATCHES));
    [apply emits_confirmation_functions|].
  intros random_functions [Hi Hl]. unfold NUMBER_OF_MATCHES in Hl.
  apply (emits_weaken allowed (fun _ => True) _ (length random_functions + 0));
    [lia | auto |].
  apply (emits_bind allowed (fun _ => True)).
  { apply (emits_count_matches _ abi_json function_names); auto.
    intros x Hx. apply Hi in Hx. destruct function_names; [destruct Hx | now right]. }
  intros match_count _.
  destruct (match_count =? length random_functions)%nat; [|now apply emits_ret].
  change 0 with (0 + (0 + (0 + 0))).
  apply (emits_bind allowed
           (fun name_field => getitem abi_json (lit "name") = Returns name_field));
    [apply emits_lift; auto|].
  intros name_field Hn.
  apply (emits_bind allowed (fun path => export_of abi_jsons dir abi_json path));
    [now apply (emits_export_abi_json _ function_names)|].
  intros path Hp.
  apply (emits_bind allowed (fun _ => True)); [apply emits_set_relationship|].
  intros _ _.
  apply (emits_emit allowed (PrintFound sc_address path)).
  split; [assumption | now exists abi_json].
Qed.

Lemma emits_process_abi abi_json_str :
  In abi_json_str abi_jsons ->
  emits allowed (length sc_addresses * 6) (fun _ => True)
        (process_abi rpc sc_addresses dir abi_json_str).
Proof.
  intros Hs. unfold process_abi.
  change (length sc_addresses * 6) with (0 + (0 + (0 + length sc_addresses * 6))).
  apply (emits_bind allowed
           (fun abi_json => load_abi_json abi_json_str = Returns abi_json));
    [apply emits_lift; auto|].
  intros abi_json Hl.
  apply (emits_bind allowed
           (fun function_names => endpoint_names abi_json = Returns function_names));
    [apply emits_lift; auto|].
  intros function_names Hn.
  apply (emits_bind allowed (fun func_name => In func_name function_names)).
  { apply emits_lift. intros f Hf. destruct function_names; [discriminate|].
    injection Hf as <-. now left. }
  intros func_name Hf. apply emits_for_each. intros a Ha.
  apply emits_match_pair; [assumption | now exists abi_json_str | assumption].
Qed.

End RunEvents.

Lemma emits_find_matching_contracts rpc abi_jsons sc_addresses domain :
  emits (allowed_event abi_jsons sc_addresses (os_path_join (lit "exports") domain))
        (length abi_jsons * (length sc_addresses * 6)) (fun _ => True)
        (find_matching_contracts rpc abi_jsons sc_addresses domain).
Proof.
  set (dir := os_path_join (lit "exports") domain).
  set (allowed := allowed_event abi_jsons sc_addresses dir).
  unfold find_matching_contracts.
  replace (length abi_jsons * (length sc_addresses * 6))
    with (0 + (0 + (length abi_jsons * (length sc_addresses * 6) + (0 + (0 + 0)))))
    by lia.
  apply (emits_bind allowed (fun _ => True)).
  { intros st. exists []. cbn. rewrite app_nil_r. repeat split; constructor. }
  intros _ _.
  apply (emits_bind allowed (fun d => d = dir)).
  { unfold create_export_directories. change 0 with (0 + 0).
    apply (emits_bind allowed (fun _ => True)).
    - apply (emits_emit allowed (MakeDirs dir)). reflexivity.
    - intros _ _. now apply emits_ret. }
  intros d ->.
  apply (emits_bind allowed (fun _ => True)).
  { apply emits_for_each. intros s Hs. apply emits_try_pass.
    now apply emits_process_abi. }
  intros _ _.
  apply (emits_bind allowed (fun _ => True)).
  { intros st. exists []. cbn. rewrite app_nil_r. repeat split; constructor. }
  intros relationship_dict _.
  apply (emits_bind allowed
           (fun p => p = os_path_join dir (lit "relationship.json"))).
  { unfold export_relationship_dict. change 0 with (0 + 0).
    apply (emits_bind allowed (fun _ => True)).
    - apply (emits_emit allowed
               (WriteFile (os_path_join dir (lit "relationship.json"))
                          (RelationshipJson relationship_dict))).
      reflexivity.
    - intros _ _. now apply emits_ret. }
  intros p ->.
  apply (emits_emit allowed
           (PrintRelationship (os_path_join dir (lit "relationship.json")))).
  reflexivity.
Qed.

(** X18.  What a run never does.  A run of [find_matching_contracts]
    keeps the trace it starts with and adds only: the creation of the
    export directory; queries of an address of its list for an endpoint
    name of a descriptor of its list; exports of such a descriptor under
    the path made of the export directory and its name; announcements
    of an address of its list with such a path; and the relationship
    file with its announcement. *)
Theorem find_matching_contracts_only_allowed_events
  rpc abi_jsons sc_addresses domain st :
  exists evs,
    trace (snd (find_matching_contracts rpc abi_jsons sc_addresses domain st))
    = trace st ++ evs
    /\ Forall (allowed_event abi_jsons sc_addresses
                 (os_path_join (lit "exports") domain)) evs.
Proof.
  destruct (emits_find_matching_contracts rpc abi_jsons sc_addresses domain st)
    as (evs & Ht & Ha & _). now exists evs.
Qed.

(** X19.  The probe budget: a run issues at most six queries for every
    pair of a descriptor and an address, one for the first endpoint and
    at most [NUMBER_OF_MATCHES] for the confirmation round. *)
Theorem find_matching_contracts_query_budget rpc abi_jsons sc_addresses domain st :
  exists evs,
    trace (snd (find_matching_contracts rpc abi_jsons sc_addresses domain st))
    = trace st ++ evs
    /\ length (filter is_query evs)
       <= length abi_jsons * length sc_addresses * (1 + NUMBER_OF_MATCHES).
Proof.
  destruct (emits_find_matching_contracts rpc abi_jsons sc_addresses domain st)
    as (evs & Ht & _ & Hq & _). exists evs. split; [assumption|].
  unfold NUMBER_OF_MATCHES. lia.
Qed.

(* ================================================================== *)
(** * More properties: the address loop *)

Section Addresses.

Variable rpc : str -> json -> outcome json.

Lemma for_each_app {A} (body : A -> M unit) l1 : forall l2 st,
  for_each (l1 ++ l2) body st
  = match for_each l1 body st with
    | (Returns _, st') => for_each l2 body st'
    | (Raises e, st') => (Raises e, st')
    end.
Proof.
  induction l1 as [|x l1 IH]; intros l2 st; [reflexivity|].
  cbn [app for_each]. unfold bind. destruct (body x st) as [[[]|e] st1]; [|reflexivity].
  apply IH.
Qed.

(** The body of the [try] once the descriptor is loaded. *)
Lemma process_abi_loaded sc_addresses dir abi_json_str abi_json func_name more st :
  load_abi_json abi_json_str = Returns abi_json ->
  endpoint_names abi_json = Returns (func_name :: more) ->
  process_abi rpc sc_addresses dir abi_json_str st
  = for_each sc_addresses
      (match_pair rpc abi_json (func_name :: more) func_name dir) st.
Proof.
  intros Hl Hn. unfold process_abi, bind, lift. rewrite Hl, Hn. reflexivity.
Qed.

(** X20.  With an empty list of addresses no descriptor is probed or
    exported, whatever the descriptors are: the run creates the export
    directory and writes an empty relationship file. *)
Theorem find_matching_contracts_no_address abi_jsons domain st :
  let dir := os_path_join (lit "exports") domain in
  find_matching_contracts rpc abi_jsons [] domain st
  = (Returns tt,
     mkState (rng st)
       (trace st ++ [MakeDirs dir;
                     WriteFile (os_path_join dir (lit "relationship.json"))
                       (RelationshipJson []);
                     PrintRelationship (os_path_join dir (lit "relationship.json"))])
       []).
Proof.
  intros dir. rewrite find_matching_contracts_run. fold dir.
  assert (E : forall s, run_batch rpc [] dir abi_jsons s = s).
  { induction abi_jsons as [|a l IH]; intros s; [reflexivity|].
    rewrite run_batch_cons.
    assert (Es : snd (process_abi rpc [] dir a s) = s).
    { unfold process_abi, bind, lift.
      destruct (load_abi_json a) as [abi|]; [|reflexivity].
      destruct (endpoint_names abi) as [names|]; [|reflexivity].
      destruct (first_name names); reflexivity. }
    rewrite Es. apply IH. }
  rewrite E. unfold log. cbn [rng trace relationship_dict].
  rewrite <- app_assoc. reflexivity.
Qed.

(** X21.  A first probe that raises, because the request fails or the
    answer has no return code, ends the address loop of the descriptor:
    the addresses after it are not probed for this descriptor. *)
Theorem failed_probe_hides_later_addresses
  dir abi_json_str abi_json func_name more before sc_address after st st1 e :
  load_abi_json abi_json_str = Returns abi_json ->
  endpoint_names abi_json = Returns (func_name :: more) ->
  process_abi rpc before dir abi_json_str st = (Returns tt, st1) ->
  obind (rpc sc_address func_name) return_code_of = Raises e ->
  process_abi rpc (before ++ sc_address :: after) dir abi_json_str st
  = (Raises e, log [Query sc_address func_name] st1).
Proof.
  intros Hl Hn Hb He.
  rewrite (process_abi_loaded _ _ _ _ _ _ _ Hl Hn) in Hb.
  rewrite (process_abi_loaded _ _ _ _ _ _ _ Hl Hn).
  rewrite for_each_app, Hb. cbn [for_each]. unfold bind at 1.
  now rewrite match_pair_first, He.
Qed.

(** X22.  When the first probe of every address is answered with a
    rejection code, the descriptor costs exactly one query for each
    address, in the order of the list, and nothing is exported or
    recorded. *)
Theorem rejected_everywhere_one_query_each
  sc_addresses dir abi_json_str abi_json func_name more st :
  load_abi_json abi_json_str = Returns abi_json ->
  endpoint_names abi_json = Returns (func_name :: more) ->
  forallb (fun sc_address => probe_rejected rpc sc_address func_name) sc_addresses
  = true ->
  process_abi rpc sc_addresses dir abi_json_str st
  = (Returns tt,
     log (map (fun sc_address => Query sc_address func_name) sc_addresses) st).
Proof.
  intros Hl Hn Hr. rewrite (process_abi_loaded _ _ _ _ _ _ _ Hl Hn).
  revert st. induction sc_addresses as [|a l IH]; intros st.
  - now rewrite log_nil.
  - cbn [forallb] in Hr. apply andb_prop in Hr as [Ha Hr].
    cbn [for_each map]. unfold bind at 1. rewrite match_pair_first.
    unfold probe_rejected in Ha.
    destruct (obind (rpc a func_name) return_code_of) as [code|]; [|discriminate].
    rewrite Ha, (IH Hr), log_log. reflexivity.
Qed.

End Addresses.

Lemma failed_probe_hides_later_addresses_witness :
  process_abi rpc_flaky ([] ++ address_a :: [address_b]) (lit "exports/x") two_abi
    empty_state
  = (Raises RequestError, log [Query address_a (JString (lit "f1"))] empty_state).
Proof.
  apply (failed_probe_hides_later_addresses rpc_flaky (lit "exports/x") two_abi
           (JObject [(lit "name", JString (lit "Two"));
                     (lit "endpoints",
                      JArray [JObject [(lit "name", JString (lit "f1"))];
                              JObject [(lit "name", JString (lit "f2"))]])])
           (JString (lit "f1")) [JString (lit "f2")]
           [] address_a [address_b] empty_state empty_state RequestError);
    reflexivity.
Defined.

Lemma rejected_everywhere_one_query_each_witness :
  process_abi rpc_nothing [address_a; address_b] (lit "exports/x") two_abi
    empty_state
  = (Returns tt,
     log [Query address_a (JString (lit "f1"));
          Query address_b (JString (lit "f1"))] empty_state).
Proof.
  apply (rejected_everywhere_one_query_each rpc_nothing [address_a; address_b]
           (lit "exports/x") two_abi
           (JObject [(lit "name", JString (lit "Two"));
                     (lit "endpoints",
                      JArray [JObject [(lit "name", JString (lit "f1"))];
                              JObject [(lit "name", JString (lit "f2"))]])])
           (JString (lit "f1")) [JString (lit "f2")] empty_state);
    reflexivity.
Defined.

(* ================================================================== *)
(** * More properties: the recorded paths *)

Section Exported.

Variable rpc : str -> json -> outcome json.

(** [P] holds on with new draws, with a quiet event, and with a
    descriptor written, recorded and announced. *)
Variable P : state -> Prop.
Hypothesis P_rng : forall st draws,
    P st -> P (mkState draws (trace st) (relationship_dict st)).
Hypothesis P_quiet : forall st e, quiet e = true -> P st -> P (log [e] st).
Hypothesis P_recorded : forall st sc_address abi_json_path abi_json,
    P st -> P (recorded sc_address abi_json_path abi_json st).

Lemma keeps_match_pair abi_json function_names func_name dir sc_address :
  preserved P (match_pair rpc abi_json function_names func_name dir sc_address).
Proof.
  unfold match_pair.
  apply preserves_bind; [now apply preserves_query|].
  intros response. apply preserves_bind; [apply preserves_lift|].
  intros code. destruct (not_found code); [apply preserves_ret|].
  apply preserves_bind; [now apply preserves_confirmation_functions|].
  intros fs. apply preserves_bind; [now apply preserves_count_matches|].
  intros n. destruct (n =? length fs)%nat; [|apply preserves_ret].
  apply preserves_bind; [apply preserves_lift|].
  intros name_field st H.
  destruct name_field as [| | |name| |]; try exact H.
  rewrite export_and_record. now apply P_recorded.
Qed.

Lemma keeps_run_batch sc_addresses dir abi_jsons st :
  P st -> P (run_batch rpc sc_addresses dir abi_jsons st).
Proof.
  unfold run_batch. apply preserves_for_each.
  intros s. apply preserves_try_pass. unfold process_abi.
  apply preserves_bind; [apply preserves_lift|].
  intros abi_json. apply preserves_bind; [apply preserves_lift|].
  intros names. apply preserves_bind; [apply preserves_lift|].
  intros f. apply preserves_for_each. intros a. apply keeps_match_pair.
Qed.

End Exported.

Lemma paths_written_since_batch rpc sc_addresses dir abi_jsons base st :
  paths_written_since base st ->
  paths_written_since base (run_batch rpc sc_addresses dir abi_jsons st).
Proof.
  apply keeps_run_batch.
  - intros s draws (evs & Ht & H). now exists evs.
  - intros s e _ (evs & Ht & H). exists (evs ++ [e]).
    unfold log. cbn [trace relationship_dict]. rewrite Ht, <- app_assoc.
    split; [reflexivity|]. intros a p Hp. destruct (H a p Hp) as [abi Hin].
    exists abi. apply in_or_app. now left.
  - intros s a p abi (evs & Ht & H).
    exists (evs ++ [WriteFile p (AbiJson abi); PrintFound a p]).
    unfold recorded. cbn [trace relationship_dict]. rewrite Ht, <- app_assoc.
    split; [reflexivity|]. intros a' p' Hp.
    destruct (str_eqb a a') eqn:E.
    + apply str_eqb_eq in E. subst a'. rewrite dict_get_set_same in Hp.
      injection Hp as <-. exists abi. apply in_or_app. right. now left.
    + rewrite dict_get_set_other in Hp.
      * destruct (H a' p' Hp) as [abi' Hin]. exists abi'.
        apply in_or_app. now left.
      * intros ->. now rewrite str_eqb_refl in E.
Qed.

(** X23.  The relationship file never names a file the run did not
    write: every path that the dictionary of a finished run holds is
    the path of a descriptor written during this run, whatever was
    raised and swallowed on the way. *)
Theorem recorded_paths_were_exported rpc abi_jsons sc_addresses domain st :
  exists evs,
    trace (snd (find_matching_contracts rpc abi_jsons sc_addresses domain st))
    = trace st ++ evs
    /\ forall sc_address abi_json_path,
         dict_get sc_address
           (relationship_dict
              (snd (find_matching_contracts rpc abi_jsons sc_addresses domain st)))
         = Some abi_json_path ->
         exists abi_json, In (WriteFile abi_json_path (AbiJson abi_json)) evs.
Proof.
  rewrite find_matching_contracts_run. cbn zeta.
  set (dir := os_path_join (lit "exports") domain).
  set (started := log [MakeDirs dir] (mkState (rng st) (trace st) [])).
  assert (H0 : paths_written_since (trace st) started).
  { exists [MakeDirs dir]. split; [reflexivity|]. intros a p Hp. discriminate Hp. }
  destruct (paths_written_since_batch rpc sc_addresses dir abi_jsons _ _ H0)
    as (evs & Ht & H).
  set (finished := run_batch rpc sc_addresses dir abi_jsons started) in *.
  cbn [snd]. unfold log. cbn [trace relationship_dict].
  eexists. rewrite Ht, <- app_assoc. split; [reflexivity|].
  intros a p Hp. destruct (H a p Hp) as [abi Hin]. exists abi.
  apply in_or_app. now left.
Qed.

(* ================================================================== *)
(** * More properties: one script of the application *)

Lemma repair_occurrences_returns js_code : forall occurrences abi_jsons,
  (forall occurrence, In occurrence occurrences ->
     extract_matching_braces_content js_code (fst occurrence) <> None) ->
  exists l, repair_occurrences js_code occurrences abi_jsons = Returns l.
Proof.
  induction occurrences as [|o more IH]; intros acc H; [now exists acc|].
  cbn [repair_occurrences].
  destruct (extract_matching_braces_content js_code (fst o)) as [blob|] eqn:E.
  - cbn [repair_json_value]. apply IH. intros occ Hin. apply H. now right.
  - exfalso. apply (H o); [now left | exact E].
Qed.

(** X24.  The extraction of a bundle raises exactly when the braces of
    one reported occurrence never close, and then it raises
    [TypeError]; when all of them close it returns. *)
Theorem extract_abi_jsons_raises_iff_unclosed js_code e :
  extract_abi_jsons js_code = Raises e
  <-> e = TypeError
      /\ exists o b,
           In (o, b) (find_buildinfo_and_nearest_opening_brace js_code)
           /\ extract_matching_braces_content js_code o = None.
Proof.
  unfold extract_abi_jsons. split.
  - intros H.
    assert (Hex : exists o b,
               In (o, b) (find_buildinfo_and_nearest_opening_brace js_code)
               /\ extract_matching_braces_content js_code o = None).
    { set (occs := find_buildinfo_and_nearest_opening_brace js_code) in *.
      clearbody occs. revert H. generalize (@nil str).
      induction occs as [|[o b] more IH]; intros acc H; [discriminate|].
      cbn [repair_occurrences fst] in H.
      destruct (extract_matching_braces_content js_code o) as [blob|] eqn:E.
      - cbn [repair_json_value] in H. destruct (IH _ H) as (o' & b' & Hin & Hn).
        exists o', b'. split; [now right | assumption].
      - exists o, b. split; [now left | assumption]. }
    split; [|exact Hex]. destruct Hex as (o & b & Hin & Hn).
    rewrite (unclosed_occurrence_raises js_code _ [] (o, b) Hin Hn) in H.
    now injection H as <-.
  - intros [-> (o & b & Hin & Hn)].
    now rewrite (unclosed_occurrence_raises js_code _ [] (o, b) Hin Hn).
Qed.

Section ScriptRun.

Variable rpc : str -> json -> outcome json.
Variable http_get : str -> outcome str.
Variable get_active_addresses : list str -> outcome (list str).
Variable netloc : str -> str.

(** X25.  One unclosed occurrence loses the whole script: when the
    braces of a reported occurrence never close, [process_js_url] raises
    [TypeError] before it looks up any address; it probes nothing,
    creates no directory and writes no file, also not for the
    descriptors of the script that are complete. *)
Theorem process_js_url_unclosed_occurrence js_url js_code o b st :
  http_get js_url = Returns js_code ->
  In (o, b) (find_buildinfo_and_nearest_opening_brace js_code) ->
  extract_matching_braces_content js_code o = None ->
  process_js_url rpc http_get get_active_addresses netloc js_url st
  = (Raises TypeError, st).
Proof.
  intros Hg Hin Hn. unfold process_js_url, bind, lift. rewrite Hg.
  unfold extract_abi_jsons.
  now rewrite (unclosed_occurrence_raises js_code _ [] (o, b) Hin Hn).
Qed.

(** X26.  A script without the word [buildInfo] still costs the lookup
    of its addresses and leaves an export directory with an empty
    relationship file; no contract is queried, whatever addresses are
    active. *)
Theorem process_js_url_no_marker js_url js_code active_addresses st :
  http_get js_url = Returns js_code ->
  contains marker_bare js_code = false ->
  get_active_addresses (extract_addresses js_code) = Returns active_addresses ->
  let dir := os_path_join (lit "exports") (netloc js_url) in
  process_js_url rpc http_get get_active_addresses netloc js_url st
  = (Returns [],
     mkState (rng st)
       (trace st ++ [MakeDirs dir;
                     WriteFile (os_path_join dir (lit "relationship.json"))
                       (RelationshipJson []);
                     PrintRelationship (os_path_join dir (lit "relationship.json"))])
       []).
Proof.
  intros Hg Hm Ha dir. unfold process_js_url, bind, lift. rewrite Hg.
  assert (E : extract_abi_jsons js_code = Returns []).
  { unfold extract_abi_jsons, find_buildinfo_and_nearest_opening_brace.
    cbn [find_buildinfo_loop].
    rewrite (contains_find_none _ _ _ (contains_bare_quoted _ Hm)).
    now rewrite (contains_find_none _ _ _ Hm). }
  rewrite E, Ha, find_matching_contracts_run. fold dir.
  change (run_batch rpc active_addresses dir []
            (log [MakeDirs dir] (mkState (rng st) (trace st) [])))
    with (log [MakeDirs dir] (mkState (rng st) (trace st) [])).
  unfold log, ret. cbn [rng trace relationship_dict].
  rewrite <- app_assoc. reflexivity.
Qed.

End ScriptRun.

Lemma process_js_url_unclosed_occurrence_witness :
  process_js_url rpc_all_ok (fun _ => Returns unbalanced_bundle)
    (fun addresses => Returns addresses) (fun url => url) (lit "x") empty_state
  = (Raises TypeError, empty_state).
Proof.
  apply (process_js_url_unclosed_occurrence rpc_all_ok
           (fun _ => Returns unbalanced_bundle) (fun addresses => Returns addresses)
           (fun url => url) (lit "x") unbalanced_bundle 31 32 empty_state).
  - reflexivity.
  - vm_compute. right. left. reflexivity.
  - reflexivity.
Defined.

Lemma process_js_url_no_marker_witness :
  process_js_url rpc_all_ok (fun _ => Returns (lit "var a={name:'x'};"))
    (fun addresses => Returns addresses) (fun url => url) (lit "x") empty_state
  = (Returns [],
     mkState []
       [MakeDirs (lit "exports/x");
        WriteFile (lit "exports/x/relationship.json") (RelationshipJson []);
        PrintRelationship (lit "exports/x/relationship.json")]
       []).
Proof.
  apply (process_js_url_no_marker rpc_all_ok
           (fun _ => Returns (lit "var a={name:'x'};"))
           (fun addresses => Returns addresses) (fun url => url)
           (lit "x") (lit "var a={name:'x'};") [] empty_state); reflexivity.
Defined.

Lemma extract_abi_jsons_raises_iff_unclosed_witness :
  TypeError = TypeError
  /\ exists o b,
       In (o, b) (find_buildinfo_and_nearest_opening_brace unbalanced_bundle)
       /\ extract_matching_braces_content unbalanced_bundle o = None.
Proof.
  apply (proj1 (extract_abi_jsons_raises_iff_unclosed unbalanced_bundle TypeError)).
  reflexivity.
Defined.

(** X27.  [track_sc_abi_relationship]: after the call the address maps
    to the path, every other address maps to what it mapped to before,
    an address that was recorded keeps its place and a new one is put
    last, as a Python dictionary does. *)
Theorem track_sc_abi_relationship_lookup sc_address abi_json_path relationship_dict :
  dict_get sc_address
    (track_sc_abi_relationship sc_address abi_json_path relationship_dict)
  = Some abi_json_path
  /\ (forall other,
        other <> sc_address ->
        dict_get other
          (track_sc_abi_relationship sc_address abi_json_path relationship_dict)
        = dict_get other relationship_dict)
  /\ keys (track_sc_abi_relationship sc_address abi_json_path relationship_dict)
     = (if existsb (str_eqb sc_address) (keys relationship_dict)
        then keys relationship_dict
        else keys relationship_dict ++ [sc_address]).
Proof.
  unfold track_sc_abi_relationship. split; [apply dict_get_set_same|].
  split; [|apply dict_set_keys].
  intros other Hne. apply dict_get_set_other. congruence.
Qed.

(* ================================================================== *)
(** * More properties: the export of a descriptor *)

Section ExportedName.

Variable rpc : str -> json -> outcome json.

(** X28.  A pair that every probe confirms is still not recorded when
    the descriptor has no name or a name that is not a string: reading
    the name or building the file name raises, after all the queries
    were spent, nothing is written, and the exception ends the address
    loop of the descriptor. *)
Theorem confirmed_pair_without_name_is_lost
  abi_json function_names func_name dir sc_address random_functions st st' :
  probe_ok rpc sc_address func_name = true ->
  confirmation_functions function_names (log [Query sc_address func_name] st)
  = (Returns random_functions, st') ->
  forallb (probe_ok rpc sc_address) random_functions = true ->
  (forall name, getitem abi_json (lit "name") <> Returns (JString name)) ->
  exists e,
    match_pair rpc abi_json function_names func_name dir sc_address st
    = (Raises e, log (map (Query sc_address) random_functions) st')
    /\ (e = KeyError \/ e = TypeError \/ e = AttributeError).
Proof.
  intros H0 Hs Hok Hname. rewrite match_pair_first.
  destruct (probe_ok_code rpc _ _ H0) as (code & -> & ->).
  unfold confirm_and_record. unfold bind at 1. rewrite Hs.
  unfold bind at 1. rewrite count_matches_all_ok by assumption.
  cbn [Nat.add]. rewrite Nat.eqb_refl.
  unfold bind at 1. unfold lift at 1.
  destruct (getitem abi_json (lit "name")) as [name_field|e] eqn:En.
  - destruct name_field as [| | |name| |];
      try (exists AttributeError; split; [reflexivity | auto]).
    now destruct (Hname name).
  - exists e. split; [reflexivity|].
    unfold getitem in En. destruct abi_json as [| | | | |members];
      try (injection En as <-; auto).
    destruct (dict_get (lit "name") members); [discriminate|].
    injection En as <-. auto.
Qed.

End ExportedName.

Lemma confirmed_pair_without_name_is_lost_witness :
  exists e,
    match_pair rpc_all_ok unnamed_abi [JString (lit "f")] (JString (lit "f"))
      (lit "exports/x") address_a empty_state
    = (Raises e,
       log (map (Query address_a) [])
         (log [Query address_a (JString (lit "f"))] empty_state))
    /\ (e = KeyError \/ e = TypeError \/ e = AttributeError).
Proof.
  apply (confirmed_pair_without_name_is_lost rpc_all_ok unnamed_abi
           [JString (lit "f")] (JString (lit "f")) (lit "exports/x") address_a []
           empty_state (log [Query address_a (JString (lit "f"))] empty_state));
    try reflexivity.
  intros name H. discriminate H.
Defined.


(* ================================================================== *)
(** * More properties: quoting the keys twice *)

Lemma lookahead_colon_sub_keys_word s : forall x w,
  is_word x = true -> lookahead_colon (sub_keys (x :: w) s) = false.
Proof.
  assert (Hw : forall x w, is_word x = true -> lookahead_colon (x :: w) = false).
  { intros x w Hx. destruct (word_not_colon_space x Hx) as [H1 H2].
    cbn [lookahead_colon]. now rewrite H1, H2. }
  assert (Hq : forall x w rest t, is_word x = true ->
                 lookahead_colon (quote_word (x :: w) rest ++ t) = false).
  { intros x w rest t Hx. unfold quote_word.
    destruct (is_ident_start x && lookahead_colon rest); [reflexivity|].
    now apply Hw. }
  induction s as [|c s IH]; intros x w Hx; cbn [sub_keys].
  - rewrite <- (app_nil_r (quote_word (x :: w) [])). now apply Hq.
  - destruct (is_word c); [now apply (IH x (w ++ [c])) | now apply Hq].
Qed.

(** The substitution does not change what the lookahead sees. *)
Lemma lookahead_colon_sub_keys s :
  lookahead_colon (sub_keys [] s) = lookahead_colon s.
Proof.
  induction s as [|c s IH]; [reflexivity|]. cbn [sub_keys].
  destruct (is_word c) eqn:Hc.
  - cbn [app]. rewrite (lookahead_colon_sub_keys_word s c [] Hc).
    destruct (word_not_colon_space c Hc) as [H1 H2].
    cbn [lookahead_colon]. now rewrite H1, H2.
  - cbn [quote_word app lookahead_colon]. now rewrite IH.
Qed.

Lemma quote_word_before_dquote w rest : quote_word w (dquote :: rest) = w.
Proof.
  unfold quote_word. destruct w as [|x w]; [reflexivity|].
  cbn [lookahead_colon]. change ((dquote =? ":")%char) with false.
  change (is_space dquote) with false. cbv iota. now rewrite andb_false_r.
Qed.

Lemma sub_keys_twice s : forall w,
  forallb is_word w = true -> sub_keys [] (sub_keys w s) = sub_keys w s.
Proof.
  induction s as [|c s IH]; intros w Hw.
  - cbn [sub_keys]. rewrite quote_word_end. now apply sub_keys_words.
  - destruct (is_word c) eqn:Hc.
    + cbn [sub_keys]. rewrite Hc. apply IH. rewrite forallb_app, Hw. cbn.
      now rewrite Hc.
    + rewrite (sub_keys_nonword w c s Hc).
      assert (Hr : sub_keys [] (c :: sub_keys [] s) = c :: sub_keys [] s).
      { rewrite (sub_keys_nonword [] c _ Hc). cbn [quote_word app].
        now rewrite (IH [] eq_refl). }
      assert (Hl : lookahead_colon (c :: sub_keys [] s) = lookahead_colon (c :: s)).
      { cbn [lookahead_colon]. now rewrite lookahead_colon_sub_keys. }
      destruct w as [|x w]; [exact Hr|].
      unfold quote_word at 2. unfold quote_word at 1.
      destruct (is_ident_start x && lookahead_colon (c :: s)) eqn:Eq.
      * change (dquote :: (x :: w) ++ [dquote])
          with ([dquote] ++ (x :: w) ++ [dquote]).
        rewrite <- !app_assoc.
        change ([dquote] ++ (x :: w) ++ [dquote] ++ c :: sub_keys [] s)
          with (dquote :: (x :: w) ++ dquote :: c :: sub_keys [] s).
        rewrite (sub_keys_nonword [] dquote _ eq_refl).
        cbn [quote_word]. change ([] ++ ?l) with l.
        rewrite (sub_keys_word_run (x :: w) [] _ Hw).
        change ([] ++ x :: w) with (x :: w).
        rewrite (sub_keys_nonword (x :: w) dquote _ eq_refl).
        rewrite quote_word_before_dquote, Hr. reflexivity.
      * rewrite (sub_keys_word_run (x :: w) [] _ Hw).
        change ([] ++ x :: w) with (x :: w).
        rewrite (sub_keys_nonword (x :: w) c _ Hc).
        unfold quote_word. rewrite Hl, Eq.
        now rewrite (IH [] eq_refl).
Qed.

(** X30.  Quoting the keys is idempotent: in a text whose keys were
    quoted, no identifier is followed by a colon any more, so a second
    pass of the substitution changes nothing. *)
Theorem quote_keys_idempotent s : quote_keys (quote_keys s) = quote_keys s.
Proof. rewrite !quote_keys_runs. now apply sub_keys_twice. Qed.
